(** * PieceOfCake, group 2: the cut search engine

    A shallow embedding of [players/g2/best_combination.py] and
    [players/g2/helpers.py], and of the grid layouts of
    [players/group_3.py].

    Numbers.  The program computes with Python floats.  They are idealised
    here as exact rationals in canonical form ([Qc]): one representation per
    value, so that Python's [==] on numbers, tuples and set members is
    Leibniz equality.  [round(x, 2)] is rounding to the nearest hundredth,
    ties to even.  A float operation differs from the exact one by a
    rounding error in its last place, and a comparison can come out the
    other way when its two sides are within that error of each other.
    The tests of [sneak] and [mutate] are written on the exact numbers;
    a statement that hangs on such a test keeps a hundredth away from the
    test's threshold, or allows the threshold itself, and [is_uniform]
    takes the float subtraction as a parameter.

    Randomness.  [random.random()] and [random.sample] read a tape of raw
    draws; a theorem about "every outcome of the random choices" is a
    theorem about every tape.  A rejection loop ends on the tapes that
    keep drawing what it waits for ([fair]), not on all of them.

    Failure.  Code that may raise returns [Ok] or [Err]; code that also
    runs a [while] loop returns [Ret], [Raise], or [OutOfFuel] when the
    loop has not finished by the time its fuel is spent. *)

From stdpp Require Import base numbers list.
From Stdlib Require Import QArith Qcanon Qround Qabs Lqa Sorted.

Open Scope Qc_scope.

(** ** Numbers *)

Abbreviation num := Qc (only parsing).

(** The decimal literal [n/d]. *)
Definition dec (n : Z) (d : positive) : num := Q2Qc (n # d).

Definition of_int (z : Z) : num := Q2Qc (inject_Z z).

(** Nearest integer, ties to the even one. *)
Definition round_half_even (q : Q) : Z :=
  let f := Qfloor q in
  let r := (q - inject_Z f)%Q in
  match (r ?= 1 # 2)%Q with
  | Lt => f
  | Gt => (f + 1)%Z
  | Eq => if Z.even f then f else (f + 1)%Z
  end.

(** [round(x, 2)] *)
Definition round2 (x : num) : num :=
  Q2Qc (round_half_even (x * 100) # 100).

Definition Qcabs (x : num) : num := Q2Qc (Qabs x).

Definition Qcmax (x y : num) : num := if decide (x < y) then y else x.

(** ** Outcomes of a run *)

Inductive error :=
  | ValueError
  | ZeroDivisionError
  | IndexError
  | NameError
  | GeometryError.

(** The result of code that may raise. *)
Inductive checked (A : Type) :=
  | Ok (a : A)
  | Err (e : error).
Arguments Ok {A} a.
Arguments Err {A} e.

Definition obind {A B} (m : checked A) (k : A → checked B) : checked B :=
  match m with
  | Ok a => k a
  | Err e => Err e
  end.

Notation "x ←! m ; k" := (obind m (λ x, k))
  (at level 20, m at level 100, k at level 200, only parsing, right associativity).

Fixpoint omapM {A B} (f : A → checked B) (l : list A) : checked (list B) :=
  match l with
  | [] => Ok []
  | a :: l' => b ←! f a; bs ←! omapM f l'; Ok (b :: bs)
  end.

(** The result of code that may also loop. *)
Inductive outcome (A : Type) :=
  | Ret (a : A)
  | Raise (e : error)
  | OutOfFuel.
Arguments Ret {A} a.
Arguments Raise {A} e.
Arguments OutOfFuel {A}.

(** [l[i]] with Python's negative indices. *)
Definition py_index {A} (l : list A) (i : Z) : checked A :=
  let n := Z.of_nat (length l) in
  let j := if decide (i < 0)%Z then (i + n)%Z else i in
  if decide (0 ≤ j < n)%Z then
    match l !! Z.to_nat j with
    | Some a => Ok a
    | None => Err IndexError
    end
  else Err IndexError.

(** [a / b] on floats *)
Definition py_div (a b : num) : checked num :=
  if decide (b = 0) then Err ZeroDivisionError else Ok (a / b).

(** ** The random source *)

Record rng := mkRng { tape : nat → N; pos : nat }.

Definition advance (n : nat) (g : rng) : rng :=
  {| tape := tape g; pos := n + pos g |}.

(** Computations that draw from the tape. *)
Definition M (A : Type) := rng → outcome (A * rng).

Definition retM {A} (a : A) : M A := λ g, Ret (a, g).

Definition bindM {A B} (m : M A) (k : A → M B) : M B :=
  λ g, match m g with
       | Ret (a, g') => k a g'
       | Raise e => Raise e
       | OutOfFuel => OutOfFuel
       end.

Definition lift {A} (o : checked A) : M A :=
  λ g, match o with
       | Ok a => Ret (a, g)
       | Err e => Raise e
       end.

Notation "x ← m ; k" := (bindM m (λ x, k))
  (at level 20, m at level 100, k at level 200, only parsing, right associativity).
Notation "' pat ← m ; k" := (bindM m (λ x, match x with pat => k end))
  (at level 20, pat pattern, m at level 100, k at level 200, only parsing,
   right associativity).

(** What a run returns, without the random source it leaves. *)
Definition result {A} (o : outcome (A * rng)) : outcome A :=
  match o with
  | Ret r => Ret r.1
  | Raise e => Raise e
  | OutOfFuel => OutOfFuel
  end.

(** The next raw draw. *)
Definition draw : M N := λ g, Ret (tape g (pos g), advance 1 g).

(** [random.random()]: a multiple of [2^-53] in [[0, 1)]. *)
Definition random : M num :=
  r ← draw; retM (Q2Qc (Z.of_N (r mod 2 ^ 53) # 2 ^ 53)).

(** [random.sample(l, 1)[0]] *)
Definition sample1 {A} (l : list A) : M A :=
  match l with
  | [] => lift (Err ValueError)
  | d :: _ =>
      r ← draw; retM (nth (N.to_nat (r mod N.of_nat (length l))) l d)
  end.

(** [l] without the element at index [i]. *)
Definition remove_nth {A} (i : nat) (l : list A) : list A :=
  take i l ++ drop (S i) l.

(** [random.sample(l, 2)]: two elements at distinct positions. *)
Definition sample2 {A} (l : list A) : M (A * A) :=
  match l with
  | d :: _ :: _ =>
      r1 ← draw;
      r2 ← draw;
      let i := N.to_nat (r1 mod N.of_nat (length l)) in
      let rest := remove_nth i l in
      let j := N.to_nat (r2 mod N.of_nat (length rest)) in
      retM (nth i l d, nth j rest d)
  | _ => lift (Err ValueError)
  end.

(** ** Points, cuts, moves *)

Definition point := (num * num)%type.
Definition cut := (point * point)%type.

(** ** [get_cuts_spread] *)

Definition get_cuts_spread {A} (requests : list A) : Z * Z :=
  let count := Z.of_nat (length requests) in
  let max_cuts := (count - 1)%Z in
  let min_cuts := (count `div` 3)%Z in
  let max_cuts := Z.max max_cuts (min_cuts + 1) in
  (min_cuts, max_cuts).

(** ** [helpers.py]: the boundary walk *)

Definition nearest_edge_x (p : point) (cake_width : num) : num * num :=
  let min_x := p.1 in
  let x_edge := 0 in
  if decide (cake_width - p.1 < min_x) then (cake_width, cake_width - p.1)
  else (x_edge, min_x).

Definition nearest_edge_y (p : point) (cake_len : num) : num * num :=
  let min_y := p.2 in
  let y_edge := 0 in
  if decide (cake_len - p.2 < min_y) then (cake_len, cake_len - p.2)
  else (y_edge, min_y).

Definition bounce (margin : num) : num :=
  if decide (margin = 0) then dec 1 100 else round2 (margin - dec 1 100).

(** The distances are exact here.  In the program [cake_width - x] is a
    float, so that a distance of one tenth can test as more than [0.1]
    (10.3 - 10.2 does); a hundredth or more from 0.1 the float test and
    the exact one agree. *)
Definition sneak (start_pos end_pos : point) (cake_width cake_len : num)
  : list point :=
  let '(nearest_x, x_dist) := nearest_edge_x start_pos cake_width in
  let '(nearest_y, y_dist) := nearest_edge_y start_pos cake_len in
  let '(end_x, end_x_dist) := nearest_edge_x end_pos cake_width in
  let '(end_y, end_y_dist) := nearest_edge_y end_pos cake_len in
  let moves :=
    if decide (y_dist = 0 ∧ (dec 1 10 < x_dist ∨ nearest_x ≠ end_x)) then
      let bounce_y := bounce nearest_y in
      [(end_x, bounce_y)] ++
      (if decide (0 < end_y_dist ∨ nearest_y ≠ end_y) then
         let bounce_x := bounce end_x in
         [(bounce_x, nearest_y)] ++
         (if decide (end_y_dist = 0) then
            let bounce_y := bounce end_y in
            [(bounce_x, end_y); (end_x, bounce_y)]
          else [])
       else [])
    else if decide (x_dist = 0 ∧ (dec 1 10 < y_dist ∨ nearest_y ≠ end_y)) then
      let bounce_x := bounce nearest_x in
      [(bounce_x, end_y)] ++
      (if decide (0 < end_x_dist ∨ nearest_x ≠ end_x) then
         let bounce_y := bounce end_y in
         [(nearest_x, bounce_y)] ++
         (if decide (end_x_dist = 0) then
            let bounce_x := bounce end_x in
            [(end_x, bounce_y); (bounce_x, end_y)]
          else [])
       else [])
    else [] in
  moves ++ [end_pos].

(** ** [cuts_to_moves] *)

Inductive move_kind := INIT | CUT.

Definition move := (move_kind * point)%type.

(** The loop body of [cuts_to_moves]: [moves] and [last_point] are the
    loop's variables. *)
Definition cuts_to_moves_step (cake_len cake_width : num)
    (st : list move * option point) (c : cut) : list move * option point :=
  let '(moves, last_point) := st in
  let from_point := c.1 in
  let to_point := c.2 in
  let moves :=
    match moves, last_point with
    | [], _ => [(INIT, from_point)]
    | _, Some lp =>
        moves ++ ((λ p, (CUT, p)) <$> sneak lp from_point cake_width cake_len)
    | _, None => moves
    end in
  (moves ++ [(CUT, to_point)], Some to_point).

Definition cuts_to_moves {A} (cuts : list cut) (requests : list A)
    (cake_len cake_width : num) : list move :=
  (foldl (cuts_to_moves_step cake_len cake_width) ([], None) cuts).1.

(** ** The collaborators: shapely, miniball and the matching strategy

    A polygon is its ring of vertices, as given to shapely's [Polygon].
    The primitives the program calls on it are an interface; [split] and
    [intersects] may raise, and so may [miniball]. *)

Definition polygon := list point.

Class Shapely := {
  convex_hull : polygon → polygon;
  intersects : cut → polygon → checked bool;
  split : polygon → cut → checked (list polygon);
  area : polygon → num;
  miniball_radius : polygon → checked num;
}.

(** [assign_func(polygons, requests, tolerance)]: for each request the
    index of its piece, or -1. *)
Definition assign_func := list polygon → list num → num → checked (list Z).

Section Engine.
Context `{Shapely}.

(** ** [divide_polygon] *)

Definition divide_polygon (poly : polygon) (from_point to_point : point)
  : checked (list polygon) :=
  let poly := convex_hull poly in
  let line := (from_point, to_point) in
  hit ←! intersects line poly;
  if negb hit then Ok [poly]
  else
    result ←! split poly line;
    Ok (convex_hull <$> result).

(** ** [can_cake_fit_in_plate] *)

Definition can_cake_fit_in_plate (cake_piece : polygon) (radius : num)
  : checked bool :=
  if decide (area cake_piece < dec 1 4) then Ok true
  else
    res ←! miniball_radius cake_piece;
    Ok (bool_decide (res <= radius)).

Definition plate_radius : num := dec 25 2.

(** ** [__calculate_penalty] *)

(** One turn of the loop over [enumerate(assignments)]. *)
Definition penalty_of_request (requests : list num) (polygons : list polygon)
    (tolerance : num) (request_index : nat) (assignment : Z) : checked num :=
  if decide (assignment = (-1)%Z) then Ok (of_int 100)
  else
    piece ←! py_index polygons assignment;
    fits ←! can_cake_fit_in_plate piece plate_radius;
    if negb fits then Ok (of_int 100)
    else
      request ←! py_index requests (Z.of_nat request_index);
      penalty_percentage ←!
        py_div (of_int 100 * Qcabs (area piece - request)) request;
      if decide (tolerance < penalty_percentage) then Ok penalty_percentage
      else Ok 0.

Fixpoint calculate_penalty_loop (requests : list num) (polygons : list polygon)
    (tolerance : num) (request_index : nat) (assignments : list Z)
    (penalty : num) : checked num :=
  match assignments with
  | [] => Ok penalty
  | assignment :: rest =>
      p ←! penalty_of_request requests polygons tolerance request_index
             assignment;
      calculate_penalty_loop requests polygons tolerance (S request_index)
        rest (penalty + p)
  end.

Definition __calculate_penalty (assign : assign_func) (requests : list num)
    (polygons : list polygon) (tolerance : num) : checked num :=
  assignments ←! assign polygons requests tolerance;
  calculate_penalty_loop requests polygons tolerance 0 assignments 0.

(** ** [cuts_to_polygons] *)

Definition cut_polygons (polygons : list polygon) (c : cut)
  : checked (list polygon) :=
  pieces ←! omapM (λ poly, divide_polygon poly c.1 c.2) polygons;
  Ok (concat pieces).

Fixpoint apply_cuts (cuts : list cut) (polygons : list polygon)
  : checked (list polygon) :=
  match cuts with
  | [] => Ok polygons
  | c :: cuts' =>
      new_polygons ←! cut_polygons polygons c;
      apply_cuts cuts' new_polygons
  end.

Definition cuts_to_polygons (cuts : list cut) (cake_len cake_width : num)
  : checked (list polygon) :=
  apply_cuts cuts
    [[(0, 0); (0, cake_len); (cake_width, cake_len); (cake_width, 0)]].

(** ** [penalty] *)

Context (greedy_best_fit_assignment : assign_func).

Definition penalty (cuts : list cut) (requests : list num)
    (cake_len cake_width tolerance : num) : checked num :=
  polygons ←! cuts_to_polygons cuts cake_len cake_width;
  __calculate_penalty greedy_best_fit_assignment requests polygons tolerance.

End Engine.

(** ** [generate_cuts] *)

(** [[round(extent * i / GAP, 2) for i in range(jumps)]] *)
Definition edge_coords (extent : num) (jumps : Z) : checked (list num) :=
  let GAP := (jumps - 1)%Z in
  omapM (λ i, q ←! py_div (extent * of_int i) (of_int GAP); Ok (round2 q))
    (seqZ 0 jumps).

(** The four edge lists and the point set built from them. *)
Record grid := {
  LEFT : list point;
  RIGHT : list point;
  UP : list point;
  DOWN : list point;
  points : list point;
}.

(** The first lines of [generate_cuts], up to [points = set(...)]; the set
    is listed without repetitions. *)
Definition sample_grid (cake_len cake_width : num) (jumps : Z)
  : checked grid :=
  ys ←! edge_coords cake_len jumps;
  ys' ←! edge_coords cake_len jumps;
  xs ←! edge_coords cake_width jumps;
  xs' ←! edge_coords cake_width jumps;
  let LEFT := (λ y, (0, y)) <$> ys in
  let RIGHT := (λ y, (cake_width, y)) <$> ys' in
  let UP := (λ x, (x, 0)) <$> xs in
  let DOWN := (λ x, (x, cake_len)) <$> xs' in
  Ok {| LEFT := LEFT; RIGHT := RIGHT; UP := UP; DOWN := DOWN;
         points := remove_dups (LEFT ++ RIGHT ++ UP ++ DOWN) |}.

Section Sampler.
Variable gr : grid.

(** The points the "to" end is drawn from: [points.difference(E)], where [E]
    is the first of [LEFT], [RIGHT], [UP], [DOWN] that holds [from_point]
    ([DOWN] when none does). *)
Definition to_candidates (from_point : point) : list point :=
  if decide (from_point ∈ LEFT gr) then list_difference (points gr) (LEFT gr)
  else if decide (from_point ∈ RIGHT gr) then
    list_difference (points gr) (RIGHT gr)
  else if decide (from_point ∈ UP gr) then list_difference (points gr) (UP gr)
  else list_difference (points gr) (DOWN gr).

(** One turn of the [while] loop up to the test on [selected]. *)
Definition draw_cut : M cut :=
  from_point ← sample1 (points gr);
  to_point ← sample1 (to_candidates from_point);
  retM (from_point, to_point).

Definition add_cut (selected : list cut) (c : cut) : list cut :=
  if decide ((c ∉ selected) ∧ ((c.2, c.1) ∉ selected)) then selected ++ [c]
  else selected.

Fixpoint generate_cuts_loop (fuel : nat) (cuts : Z) (selected : list cut)
  : M (list cut) :=
  match fuel with
  | O => λ _, OutOfFuel
  | S fuel' =>
      if decide (Z.of_nat (length selected) < cuts)%Z then
        (c ← draw_cut;
         generate_cuts_loop fuel' cuts (add_cut selected c))
      else retM selected
  end.

End Sampler.

Definition generate_cuts (fuel : nat) (cuts : Z) (cake_len cake_width : num)
    (jumps : Z) : M (list cut) :=
  gr ← lift (sample_grid cake_len cake_width jumps);
  generate_cuts_loop gr fuel cuts [].

(** ** What the sampler can draw *)

Section SamplerSpec.
Variable gr : grid.

(** Every ordered pair one turn of the loop can come up with. *)
Definition realizable_cuts : list cut :=
  points gr ≫= λ p, (λ q, (p, q)) <$> to_candidates gr p.

(** A cut with its endpoints in a fixed order, whichever way it was
    drawn: two cuts are the same up to the order of their endpoints
    exactly when [cut_norm] sends them to the same pair. *)
Definition point_le (p q : point) : Prop :=
  p.1 < q.1 ∨ (p.1 = q.1 ∧ p.2 <= q.2).

Definition cut_norm (c : cut) : cut :=
  if decide (point_le c.1 c.2) then c else (c.2, c.1).


(** Equal up to the order of the endpoints. *)
Definition same_cut (c d : cut) : Prop := c = d ∨ c = (d.2, d.1).




(** The loop invariant on [selected]. *)
Definition selected_ok (selected : list cut) : Prop :=
  NoDup (cut_norm <$> selected) ∧ ∀ c, c ∈ selected → c ∈ realizable_cuts.

(** The edge list the sampler files a point under. *)
Definition first_edge (p : point) : list point :=
  if decide (p ∈ LEFT gr) then LEFT gr
  else if decide (p ∈ RIGHT gr) then RIGHT gr
  else if decide (p ∈ UP gr) then UP gr
  else DOWN gr.

End SamplerSpec.

(** ** [create_offspring] *)

(** A genome is the pair of offsets of one cut's two endpoints; a candidate
    has one genome per cut. *)
Definition offset := (num * num)%type.
Definition genome := (offset * offset)%type.
Definition candidate := list genome.

Definition MUTATION_PROB : num := dec 4 10.
Definition MUTATION_DIST : num := dec 1 10.

(** The body of [if mut < MUTATION_PROB:].  The guards are exact here.
    In the program their sums are floats, so that a sum equal to the
    extent can test as less than it (99.8 + 0.1 + 0.1 < 100 does), and a
    difference equal to 0 as more than 0; a hundredth or more from the
    bound the float guard and the exact one agree. *)
Definition mutate (c : cut) (g : genome) (mut cake_len cake_width : num)
  : genome :=
  let '(l, r) := c in
  let '((g00, g01), (g10, g11)) := g in
  if decide (mut < MUTATION_PROB / dec 2 1) then
    if decide (l.1 = 0 ∨ l.1 = cake_width) then
      if decide (mut < MUTATION_PROB / dec 4 1
                 ∧ l.2 + g01 + MUTATION_DIST < cake_len) then
        ((g00, g01 + MUTATION_DIST), (g10, g11))
      else if decide (0 < l.2 + g01 - MUTATION_DIST) then
        ((g00, g01 - MUTATION_DIST), (g10, g11))
      else g
    else if decide (l.2 = 0 ∨ l.2 = cake_len) then
      if decide (mut < MUTATION_PROB / dec 4 1
                 ∧ l.1 + g00 + MUTATION_DIST < cake_width) then
        ((g00 + MUTATION_DIST, g01), (g10, g11))
      else if decide (0 < l.1 + g00 - MUTATION_DIST) then
        ((g00 - MUTATION_DIST, g01), (g10, g11))
      else g
    else g
  else
    if decide (r.1 = 0 ∨ r.1 = cake_width) then
      if decide (mut - MUTATION_PROB / dec 2 1 < MUTATION_PROB / dec 4 1
                 ∧ r.2 + g11 + MUTATION_DIST < cake_len) then
        ((g00, g01), (g10, g11 + MUTATION_DIST))
      else if decide (0 < r.2 + g11 - MUTATION_DIST) then
        ((g00, g01), (g10, g11 - MUTATION_DIST))
      else g
    else if decide (r.2 = 0 ∨ r.2 = cake_len) then
      if decide (mut - MUTATION_PROB / dec 2 1 < MUTATION_PROB / dec 4 1
                 ∧ r.2 + g10 + MUTATION_DIST < cake_len) then
        ((g00, g01), (g10 + MUTATION_DIST, g11))
      else if decide (0 < r.1 + g10 - MUTATION_DIST) then
        ((g00, g01), (g10 - MUTATION_DIST, g11))
      else g
    else g.

Definition round_genome (g : genome) : genome :=
  ((round2 g.1.1, round2 g.1.2), (round2 g.2.1, round2 g.2.2)).

(** The loop over [idx]; [cuts], [c1] and [c2] are the lists from [idx] on. *)
Fixpoint create_offspring (cuts : list cut) (c1 c2 : candidate)
    (cake_len cake_width : num) : M candidate :=
  match c1 with
  | [] => retM []
  | g1 :: c1' =>
      toss ← random;
      g ← (if decide (toss < dec 1 2) then retM g1
           else lift (py_index c2 0));
      mut ← random;
      g ← (if decide (mut < MUTATION_PROB) then
             c ← lift (py_index cuts 0);
             retM (mutate c g mut cake_len cake_width)
           else retM g);
      offspring ← create_offspring (tail cuts) c1' (tail c2)
                    cake_len cake_width;
      retM (round_genome g :: offspring)
  end.

(** ** [combined_cuts] *)

Definition combine_cut (c : cut) (g : genome) : cut :=
  ((round2 (c.1.1 + g.1.1), round2 (c.1.2 + g.1.2)),
   (round2 (c.2.1 + g.2.1), round2 (c.2.2 + g.2.2))).

Fixpoint combined_cuts (cuts : list cut) (cand : candidate)
  : checked (list cut) :=
  match cuts with
  | [] => Ok []
  | c :: cuts' =>
      g ←! py_index cand 0;
      rest ←! combined_cuts cuts' (tail cand);
      Ok (combine_cut c g :: rest)
  end.

(** ** Floats with [float("inf")] *)

Inductive xnum := Fin (q : num) | Inf.

Definition xlt (a b : xnum) : Prop :=
  match a, b with
  | Fin x, Fin y => x < y
  | Fin _, Inf => True
  | Inf, _ => False
  end.

Global Instance xlt_dec a b : Decision (xlt a b).
Proof. destruct a, b; simpl; apply _. Defined.

(** ** A stable sort by key, as [list.sort(key=...)] *)

Fixpoint insert_by_key {A} (x : num * A) (l : list (num * A))
  : list (num * A) :=
  match l with
  | [] => [x]
  | y :: l' =>
      if decide (y.1 < x.1) then y :: insert_by_key x l' else x :: y :: l'
  end.

Fixpoint sort_by_key {A} (l : list (num * A)) : list (num * A) :=
  match l with
  | [] => []
  | x :: l' => insert_by_key x (sort_by_key l')
  end.

Section Refiner.
Context `{Shapely} (greedy_best_fit_assignment : assign_func).
Variables (requests : list num) (cake_len cake_width tolerance : num).

Definition penalty_of (cuts : list cut) : checked num :=
  penalty greedy_best_fit_assignment cuts requests cake_len cake_width
    tolerance.

(** The key of [sort_candidates]. *)
Definition candidate_penalty (cuts : list cut) (c : candidate)
  : checked num :=
  cc ←! combined_cuts cuts c;
  penalty_of cc.

(** ** [sort_candidates] *)

Definition sort_candidates (cuts : list cut) (candidates : list candidate)
  : checked (list candidate) :=
  keyed ←! omapM (λ c, k ←! candidate_penalty cuts c; Ok (k, c)) candidates;
  Ok ((sort_by_key keyed).*2).

(** ** [shake] *)

Definition NUM_CANDIDATES : nat := 20.
Definition CUTOFF : nat := 6.
Definition MAX_UNCHANGED_EPOCS : Z := 30.

(** [while len(candidates) < NUM_CANDIDATES:], run for the [n] turns it
    takes. *)
Fixpoint breed (n : nat) (cuts : list cut) (candidates : list candidate)
  : M (list candidate) :=
  match n with
  | O => retM candidates
  | S n' =>
      parents ← sample2 candidates;
      offspring ← create_offspring cuts parents.1 parents.2
                    cake_len cake_width;
      breed n' cuts (candidates ++ [offspring])
  end.

Definition fill_population (cuts : list cut) (candidates : list candidate)
  : M (list candidate) :=
  breed (NUM_CANDIDATES - length candidates) cuts candidates.

(** [candidates[:-CUTOFF]] *)
Definition cut_worst (candidates : list candidate) : list candidate :=
  take (length candidates - CUTOFF) candidates.

Definition next_generation (cuts : list cut) (candidates : list candidate)
  : M (list candidate) :=
  candidates ← fill_population cuts candidates;
  candidates ← lift (sort_candidates cuts candidates);
  retM (cut_worst candidates).

Definition best_candidate_penalty (cuts : list cut)
    (candidates : list candidate) : checked num :=
  c ←! py_index candidates 0;
  candidate_penalty cuts c.

Fixpoint shake_loop (fuel : nat) (cuts : list cut)
    (candidates : list candidate) (min_penalty : xnum)
    (best_epoc curr_epoc : Z) : M (list candidate) :=
  match fuel with
  | O => λ _, OutOfFuel
  | S fuel' =>
      if decide (xlt (Fin 0) min_penalty
                 ∧ (curr_epoc < best_epoc + MAX_UNCHANGED_EPOCS)%Z) then
        (candidates ← next_generation cuts candidates;
         (* the two penalties the progress line prints *)
         _ ← lift (penalty_of cuts);
         _ ← lift (best_candidate_penalty cuts candidates);
         let curr_epoc := (curr_epoc + 1)%Z in
         curr_penalty ← lift (best_candidate_penalty cuts candidates);
         if decide (xlt (Fin curr_penalty) min_penalty) then
           shake_loop fuel' cuts candidates (Fin curr_penalty)
             curr_epoc curr_epoc
         else
           shake_loop fuel' cuts candidates min_penalty best_epoc curr_epoc)
      else retM candidates
  end.

Definition zero_candidate (cuts : list cut) : candidate :=
  (λ _, ((0, 0), (0, 0))) <$> cuts.

Definition shake (fuel : nat) (cuts : list cut) (pen : xnum)
  : M (list cut) :=
  let candidates := [zero_candidate cuts; zero_candidate cuts] in
  candidates ← next_generation cuts candidates;
  let min_penalty := pen in
  let best_epoc := 0%Z in
  let curr_epoc := 0%Z in
  candidates ← shake_loop fuel cuts candidates min_penalty best_epoc
                 curr_epoc;
  c ← lift (py_index candidates 0);
  lift (combined_cuts cuts c).

(** ** [best_combo] *)

(** The inner loop [for _ in range(200):] of the search.  [curr_best_cuts]
    is never assigned in the loop, so [not curr_best_cuts] holds at every
    turn.  [None] stands for the placeholder [float("inf")] that
    [best_contender] starts with. *)
Fixpoint search_trials (n fuel : nat) (cuts : Z)
    (best_contender : option (list cut)) (best_curr_penalty : xnum)
  : M (option (list cut) * xnum) :=
  match n with
  | O => retM (best_contender, best_curr_penalty)
  | S n' =>
      let curr_best_cuts : list cut := [] in
      cuts_contender ← generate_cuts fuel cuts cake_len cake_width 6;
      curr_penalty ← lift (penalty_of cuts_contender);
      if decide (curr_best_cuts = []
                 ∨ xlt (Fin curr_penalty) best_curr_penalty) then
        search_trials n' fuel cuts (Some cuts_contender) (Fin curr_penalty)
      else search_trials n' fuel cuts best_contender best_curr_penalty
  end.

(** The variables that outlive the search loop.  [loop_cuts] is the loop
    variable [cuts], unbound until the first turn. *)
Record search_state := {
  best_cuts : list cut;
  min_penalty : xnum;
  best_cut_no : Z;
  loop_cuts : option Z;
}.

(** [for cuts in range(min_cuts, max_cuts + 1):] over the values left. *)
Fixpoint search_loop (fuel : nat) (range : list Z) (st : search_state)
  : M search_state :=
  match range with
  | [] => retM st
  | cuts :: range' =>
      let st := {| best_cuts := best_cuts st; min_penalty := min_penalty st;
                   best_cut_no := best_cut_no st; loop_cuts := Some cuts |} in
      if decide (best_cut_no st + 5 < cuts)%Z then retM st
      else
        r ← search_trials 200 fuel cuts None Inf;
        let best_contender := r.1 in
        let best_curr_penalty := r.2 in
        if decide (best_cuts st = []
                   ∨ xlt best_curr_penalty (min_penalty st)) then
          search_loop fuel range'
            {| best_cuts := default [] best_contender;
               min_penalty := best_curr_penalty;
               best_cut_no := cuts;
               loop_cuts := Some cuts |}
        else search_loop fuel range' st
  end.

Definition search (fuel : nat) : M search_state :=
  let '(min_cuts, max_cuts) := get_cuts_spread requests in
  search_loop fuel (seqZ min_cuts (max_cuts + 1 - min_cuts))
    {| best_cuts := []; min_penalty := Inf; best_cut_no := min_cuts;
       loop_cuts := None |}.

(** [for _ in tqdm(range(2000)):], called with the count it passes to
    [generate_cuts]. *)
Fixpoint spam (n fuel : nat) (cuts : Z) (best_cuts : list cut)
    (min_penalty : xnum) : M (list cut * xnum) :=
  match n with
  | O => retM (best_cuts, min_penalty)
  | S n' =>
      cuts_contender ← generate_cuts fuel cuts cake_len cake_width 12;
      curr_penalty ← lift (penalty_of cuts_contender);
      if decide (xlt (Fin curr_penalty) min_penalty) then
        spam n' fuel cuts cuts_contender (Fin curr_penalty)
      else spam n' fuel cuts best_cuts min_penalty
  end.

(** The count the spam pass hands to [generate_cuts]: the variable [cuts]
    as the search loop left it. *)
Definition spam_cut_count (st : search_state) : checked Z :=
  match loop_cuts st with
  | Some cuts => Ok cuts
  | None => Err NameError
  end.

Definition best_combo (fuel : nat) : M (list cut) :=
  st ← search fuel;
  cuts ← lift (spam_cut_count st);
  r ← spam 2000 fuel cuts (best_cuts st) (min_penalty st);
  shake fuel r.1 r.2.

End Refiner.

(** ** The penalty as the specification words it *)

Section PenaltySpec.
Context `{Shapely}.




Definition sum_num (l : list num) : num := foldr Qcplus 0 l.


End PenaltySpec.

(** ** Edges of the domain *)

Definition same_edge (cake_width cake_len : num) (p q : point) : Prop :=
  (p.1 = 0 ∧ q.1 = 0) ∨ (p.1 = cake_width ∧ q.1 = cake_width)
  ∨ (p.2 = 0 ∧ q.2 = 0) ∨ (p.2 = cake_len ∧ q.2 = cake_len).

Global Instance same_edge_dec w l p q : Decision (same_edge w l p q).
Proof. unfold same_edge. apply _. Defined.


(** ** What the refiner can reach

    The offsets of a candidate move in steps of a hundredth and the guards
    of [mutate] keep them in a box around the cake, so the refiner can
    reach finitely many candidates. *)

(** The run did not stop for want of fuel. *)
Definition ends {A} (o : outcome A) : Prop := o ≠ OutOfFuel.

(** The hundredths between [-K/100] and [K/100]. *)
Definition hundredths (K : Z) : list num :=
  (λ k, Q2Qc (k # 100)) <$> seqZ (- K) (2 * K + 1).

Definition in_box (K : Z) (x : num) : Prop :=
  dec (- K) 100 <= x ∧ x <= dec K 100.

Section Box.
Variables (cake_len cake_width : num) (K : Z).

Definition genome_in_box (g : genome) : Prop :=
  in_box K g.1.1 ∧ in_box K g.1.2 ∧ in_box K g.2.1 ∧ in_box K g.2.2.

Definition genome_in_grid (g : genome) : Prop :=
  g.1.1 ∈ hundredths K ∧ g.1.2 ∈ hundredths K
  ∧ g.2.1 ∈ hundredths K ∧ g.2.2 ∈ hundredths K.

(** What the guards of [mutate] compare the offsets with. *)
Definition guard_terms (c : cut) : list num :=
  [c.1.1; c.1.2; c.2.1; c.2.2;
   cake_len - c.1.2; cake_width - c.1.1; cake_len - c.2.2].

Definition cut_fits (c : cut) : Prop :=
  Forall (λ x, x <= dec K 100) (guard_terms c).

End Box.

(** The first element has a least key. *)
Definition head_least {A} (l : list (num * A)) : Prop :=
  match l with
  | [] => True
  | x :: _ => Forall (λ y, x.1 <= y.1) l
  end.

Fixpoint all_lists {A} (xs : list A) (n : nat) : list (list A) :=
  match n with
  | O => [[]]
  | S n' => xs ≫= λ x, (x ::.) <$> all_lists xs n'
  end.

Definition all_genomes (K : Z) : list genome :=
  cprod (cprod (hundredths K) (hundredths K))
        (cprod (hundredths K) (hundredths K)).

(** A point of the data model: coordinates with two decimals. *)
Definition rounded (x : num) : Prop := round2 x = x.

Definition rounded_cut (c : cut) : Prop :=
  rounded c.1.1 ∧ rounded c.1.2 ∧ rounded c.2.1 ∧ rounded c.2.2.

Section RefinerSpec.
Context `{Shapely} (assign : assign_func).
Variables (requests : list num) (cake_len cake_width tolerance : num).
Variables (cuts : list cut) (K : Z).

Local Abbreviation score :=
  (candidate_penalty assign requests cake_len cake_width tolerance cuts).

(** The candidates the search can reach: one genome per cut, every offset
    a hundredth of the box. *)
Definition in_space (c : candidate) : Prop :=
  length c = length cuts ∧ Forall (genome_in_grid K) c.

(** The finitely many penalties of the reachable candidates. *)
Definition reachable_scores : list num :=
  omap (λ c, match score c with Ok p => Some p | Err _ => None end)
    (all_lists (all_genomes K) (length cuts)).

(** How many penalties lie below [m]. *)
Definition scores_below (m : xnum) : nat :=
  length (filter (λ v, xlt (Fin v) m) reachable_scores).

(** The first candidate has a penalty, and it is at most [bound]. *)
Definition leads_within (bound : num) (candidates : list candidate) : Prop :=
  ∃ c0 p0, head candidates = Some c0 ∧ score c0 = Ok p0 ∧ p0 <= bound.

End RefinerSpec.

(** ** Running the engine on examples *)

Global Instance error_eq_dec : EqDecision error.
Proof. solve_decision. Defined.

Global Instance checked_eq_dec {A} `{EqDecision A} : EqDecision (checked A).
Proof. solve_decision. Defined.

Global Instance outcome_eq_dec {A} `{EqDecision A} : EqDecision (outcome A).
Proof. solve_decision. Defined.

(** The tape that starts with [draws] and goes on with the position. *)
Definition tape_of (draws : list N) : rng :=
  mkRng (λ n, nth n draws (N.of_nat n)) 0.

(** Twice the signed area of a ring of vertices, by the shoelace
    formula. *)
Fixpoint shoelace (first : point) (ring : list point) : num :=
  match ring with
  | [] => 0
  | p :: ring' =>
      let q := hd first ring' in
      p.1 * q.2 - q.1 * p.2 + shoelace first ring'
  end.

Definition polygon_area (poly : polygon) : num :=
  match poly with
  | [] => 0
  | p :: _ => Qcabs (shoelace p poly) / dec 2 1
  end.

(** A stand-in for the collaborators: no cut ever meets a piece, and the
    enclosing circle of a piece is taken as large as half the sum of the
    coordinates' spans, which bounds its radius from above. *)
Definition span (l : list num) : num :=
  foldr Qcmax 0 l - foldr (λ x m, if decide (x < m) then x else m) (hd 0 l) l.

Definition no_split_shapely : Shapely := {|
  convex_hull poly := poly;
  intersects _ _ := Ok false;
  split poly _ := Ok [poly];
  area := polygon_area;
  miniball_radius poly := Ok ((span (poly.*1) + span (poly.*2)) / dec 2 1);
|}.

(** A stand-in that does cut: a convex piece is split along the line
    through the cut, as Shapely splits it when both ends of the cut are on
    the cake's boundary.  [side] is positive on one side of the line,
    negative on the other and 0 on it; [clip] keeps the vertices of a ring
    on one side and adds the points where the ring crosses the line.  The
    radius of the enclosing circle is bounded as in [no_split_shapely]. *)
Definition side (c : cut) (p : point) : num :=
  (c.2.1 - c.1.1) * (p.2 - c.1.2) - (c.2.2 - c.1.2) * (p.1 - c.1.1).

Definition crossing (c : cut) (a b : point) : point :=
  let t := side c a / (side c a - side c b) in
  (a.1 + t * (b.1 - a.1), a.2 + t * (b.2 - a.2)).

Fixpoint clip (sign : num) (c : cut) (first : point) (ring : list point)
  : list point :=
  match ring with
  | [] => []
  | a :: ring' =>
      let b := hd first ring' in
      let sa := sign * side c a in
      let sb := sign * side c b in
      (if decide (0 <= sa) then [a] else [])
      ++ (if decide ((sa < 0 ∧ 0 < sb) ∨ (0 < sa ∧ sb < 0)) then
            [crossing c a b]
          else [])
      ++ clip sign c first ring'
  end.

Definition half (sign : num) (c : cut) (poly : polygon) : polygon :=
  match poly with
  | [] => []
  | p :: _ => clip sign c p poly
  end.

Definition line_shapely : Shapely := {|
  convex_hull poly := poly;
  intersects c poly :=
    Ok (bool_decide (Exists (λ p, 0 <= side c p) poly
                     ∧ Exists (λ p, side c p <= 0) poly));
  split poly c :=
    Ok (filter (λ h, 0 < polygon_area h) [half 1 c poly; half (-1) c poly]);
  area := polygon_area;
  miniball_radius poly := Ok ((span (poly.*1) + span (poly.*2)) / dec 2 1);
|}.

(** Matching strategies: leave every request unassigned; hand the pieces
    out in order. *)
Definition leave_unassigned : assign_func :=
  λ _ requests _, Ok ((λ _, (-1)%Z) <$> requests).

Definition assign_in_order : assign_func :=
  λ polygons requests _,
    Ok (imap (λ i _, if decide (i < length polygons)%nat then Z.of_nat i
                      else (-1)%Z) requests).

Global Instance grid_eq_dec : EqDecision grid.
Proof. solve_decision. Defined.


(** ** Places on the boundary *)

Definition on_boundary (cake_width cake_len : num) (p : point) : Prop :=
  p.1 = 0 ∨ p.1 = cake_width ∨ p.2 = 0 ∨ p.2 = cake_len.

(** The points one hundredth away from a corner, on the boundary. *)
Definition beside_corner (cake_width cake_len : num) (p : point) : Prop :=
  ((p.1 = 0 ∨ p.1 = cake_width) ∧ (p.2 = bounce 0 ∨ p.2 = bounce cake_len))
  ∨ ((p.1 = bounce 0 ∨ p.1 = bounce cake_width)
     ∧ (p.2 = 0 ∨ p.2 = cake_len)).

(** ** Shapes of genomes and of matchings *)

Definition rounded_genome (g : genome) : Prop :=
  rounded g.1.1 ∧ rounded g.1.2 ∧ rounded g.2.1 ∧ rounded g.2.2.

(** The requests a matching leaves without a piece. *)
Definition unassigned (assignments : list Z) : nat :=
  length (filter (λ a, a = (-1)%Z) assignments).

(** ** [helpers.py]: the requests laid out in a grid *)

Definition Qcmin (x y : num) : num := if decide (y < x) then y else x.

(** [max(l)] and [min(l)]: the first greatest and the first least element;
    ValueError on the empty list. *)
Definition py_max (l : list num) : checked num :=
  match l with
  | [] => Err ValueError
  | x :: l' => Ok (foldl Qcmax x l')
  end.

Definition py_min (l : list num) : checked num :=
  match l with
  | [] => Err ValueError
  | x :: l' => Ok (foldl Qcmin x l')
  end.

(** [max(requests) - min(requests)] is a float subtraction, and its
    rounding can decide the test (0.8 - 0.2 is more than 0.6): [fsub] is
    that subtraction.  Doubling the tolerance is exact. *)
Definition is_uniform (fsub : num → num → num) (requests : list num)
    (tolerance : num) : checked bool :=
  if decide (length requests < 1)%nat then Ok true
  else
    hi ←! py_max requests;
    lo ←! py_min requests;
    Ok (bool_decide (fsub hi lo <= of_int 2 * tolerance)).

(** [a % b] on integers *)
Definition py_mod (a b : Z) : checked Z :=
  if decide (b = 0)%Z then Err ZeroDivisionError else Ok (a `mod` b)%Z.

(** [int(a / b)] on integers: the quotient, cut off towards zero. *)
Definition py_int_div (a b : Z) : checked Z :=
  if decide (b = 0)%Z then Err ZeroDivisionError else Ok (a `quot` b)%Z.

(** [math.ceil(a / b)] on integers *)
Definition py_ceil_div (a b : Z) : checked Z :=
  if decide (b = 0)%Z then Err ZeroDivisionError
  else Ok (Qceiling (inject_Z a / inject_Z b)).

(** [l[j] += val] *)
Definition add_at (l : list num) (j : Z) (val : num) : checked (list num) :=
  let n := Z.of_nat (length l) in
  let k := if decide (j < 0)%Z then (j + n)%Z else j in
  x ←! py_index l j;
  Ok (<[Z.to_nat k := x + val]> l).

(** The loop over [range(0, len(requests_copy))], from index [i] on;
    [vals] is [requests_copy] from [i] on. *)
Fixpoint divide_requests_loop (s i : Z) (vals : list num) (total_sum : num)
    (h_sums v_sums : list num) : checked (num * list num * list num) :=
  match vals with
  | [] => Ok (total_sum, h_sums, v_sums)
  | val :: vals' =>
      let total_sum := total_sum + val in
      v_sums ←! (if decide (i < s)%Z then Ok (v_sums ++ [val])
                 else col ←! py_mod i s; add_at v_sums col val);
      row ←! py_int_div i s;
      h_sums ←! (if decide (Z.of_nat (length h_sums) ≤ row)%Z then
                   Ok (h_sums ++ [val])
                 else add_at h_sums row val);
      divide_requests_loop s (i + 1) vals' total_sum h_sums v_sums
  end.

(** [int(math.sqrt(n))] is the integer square root of a length [n]. *)
Definition divide_requests (requests : list num)
  : checked (num * list num * list num) :=
  let n := Z.of_nat (length requests) in
  let s := Z.sqrt n in
  let requests_copy := requests in
  hi ←! py_max requests;
  lo ←! py_min requests;
  let median := (hi + lo) / of_int 2 in
  r ←! py_mod n s;
  n ←! (if decide (r ≠ 0%Z) then c ←! py_ceil_div n s; Ok (s * c)%Z
        else Ok n);
  (* [while len(requests_copy) < n: requests_copy.append(median)] *)
  let requests_copy :=
    requests_copy
    ++ replicate (Z.to_nat (n - Z.of_nat (length requests_copy))) median in
  divide_requests_loop s 0 requests_copy 0 [] [].

Definition grid_enough (requests : list num) (width length tolerance : num)
  : checked bool :=
  r ←! divide_requests requests;
  let '(total, h_sums, v_sums) := r in
  h_hi ←! py_max h_sums;
  h_lo ←! py_min h_sums;
  h_variance ←! py_div (length * (h_hi - h_lo)) total;
  v_hi ←! py_max v_sums;
  v_lo ←! py_min v_sums;
  v_variance ←! py_div (width * (v_hi - v_lo)) total;
  Ok (bool_decide (Qcmin h_variance v_variance <= Qcmax 1 tolerance)).

Definition create_polygon (width height : num) : polygon :=
  [(0, 0); (width, 0); (width, height); (0, height); (0, 0)].

(** [estimate_uneven_penalty] hands its rectangles to two functions of
    [players/g2/assigns.py]: the matching and the penalty of a matching. *)
Section Uneven.
Context (hungarian_min_penalty : assign_func).
Context (calculate_total_penalty :
           list Z → list polygon → list num → num → checked num).

Definition estimate_uneven_penalty (requests : list num)
    (cake_width cake_len tolerance : num) : checked (num * list polygon) :=
  r ←! divide_requests requests;
  let '(total, h_sums, v_sums) := r in
  rows ←! omapM (λ h,
            h_size ←! py_div (cake_len * h) total;
            omapM (λ v,
              v_size ←! py_div (cake_width * v) total;
              Ok (create_polygon h_size v_size)) v_sums) h_sums;
  let polygons := concat rows in
  assignment ←! hungarian_min_penalty polygons requests tolerance;
  p ←! calculate_total_penalty assignment polygons requests tolerance;
  Ok (p, polygons).

End Uneven.

(** The side of the grid, the number of its rows, and the number of cells
    the requests leave empty. *)
Definition grid_side (n : nat) : Z := Z.sqrt (Z.of_nat n).
Definition grid_rows (n : nat) : Z :=
  ((Z.of_nat n + grid_side n - 1) `div` grid_side n)%Z.
Definition grid_padding (n : nat) : Z :=
  (grid_side n * grid_rows n - Z.of_nat n)%Z.

(** ** [group_3.py]: the grid of equal cells *)

(** [int(n**0.5)] is the integer square root of a count [n]. *)
Definition find_factor_pairs (n : Z) : list (Z * Z) :=
  foldl (λ factor_pairs i,
           if decide (n `mod` i = 0)%Z then
             factor_pairs ++ [(i, n `div` i)%Z]
           else factor_pairs)
        [] (seqZ 1 (Z.sqrt n)).

(** [np.sqrt(row_height**2 + col_width**2) <= 25], on exact numbers. *)
Definition fits_plate (cake_len cake_width : num) (factor_pair : Z * Z)
  : checked bool :=
  let '(num_rows, num_cols) := factor_pair in
  row_height ←! py_div cake_len (of_int num_rows);
  col_width ←! py_div cake_width (of_int num_cols);
  Ok (bool_decide (row_height * row_height + col_width * col_width
                   <= of_int 625)).

(** The loop over [factor_pairs]. *)
Fixpoint fitting_pairs (cake_len cake_width : num)
    (factor_pairs : list (Z * Z)) : checked (list (Z * Z)) :=
  match factor_pairs with
  | [] => Ok []
  | factor_pair :: rest =>
      fits ←! fits_plate cake_len cake_width factor_pair;
      working_pairs ←! fitting_pairs cake_len cake_width rest;
      Ok (if fits then factor_pair :: working_pairs else working_pairs)
  end.

(** [while not working_pairs:].  [requests] is the list of the percept,
    which [mod_requests += ...] extends in place. *)
Fixpoint init_cuts_loop (fuel : nat) (cake_len cake_width extra_area : num)
    (requests : list num) (extra_pieces : Z)
  : outcome (list (Z * Z) * list num) :=
  match fuel with
  | O => OutOfFuel
  | S fuel' =>
      let mod_requests :=
        requests ++ replicate (Z.to_nat extra_pieces)
                      (extra_area / of_int extra_pieces) in
      let factor_pairs :=
        find_factor_pairs (Z.of_nat (length mod_requests)) in
      match fitting_pairs cake_len cake_width factor_pairs with
      | Err e => Raise e
      | Ok [] =>
          init_cuts_loop fuel' cake_len cake_width extra_area mod_requests
            (extra_pieces + 1)
      | Ok working_pairs => Ret (working_pairs, mod_requests)
      end
  end.

(** The cuts of one layout: [(horizontal_cuts, vertical_cuts)]. *)
Definition layout_cuts (cake_len cake_width : num) (working_pair : Z * Z)
  : checked (list (num * num) * list (num * num)) :=
  let '(num_rows, num_cols) := working_pair in
  row_height ←! py_div cake_len (of_int num_rows);
  col_width ←! py_div cake_width (of_int num_cols);
  Ok ((λ i, (of_int i * row_height, of_int i * row_height))
        <$> seqZ 1 (num_rows - 1),
      (λ i, (of_int i * col_width, of_int i * col_width))
        <$> seqZ 1 (num_cols - 1)).

(** [init_cuts] returns the dictionary [cuts], here the list of its items
    in the order they were set, together with the requests of the percept
    as it leaves them. *)
Definition init_cuts (fuel : nat) (requests : list num)
    (cake_len cake_width : num)
  : outcome (list ((Z * Z) * (list (num * num) * list (num * num)))
             * list num) :=
  let extra_area := cake_len * cake_width * dec 5 100 in
  match init_cuts_loop fuel cake_len cake_width extra_area requests 0 with
  | Ret (working_pairs, requests) =>
      match omapM (λ working_pair,
                     c ←! layout_cuts cake_len cake_width working_pair;
                     Ok (working_pair, c)) working_pairs with
      | Ok cuts => Ret (cuts, requests)
      | Err e => Raise e
      end
  | Raise e => Raise e
  | OutOfFuel => OutOfFuel
  end.

(** ** Runs that return *)

Definition returns {A} (o : outcome A) : bool :=
  match o with
  | Ret _ => true
  | _ => false
  end.

(** * Properties *)

(** ** Arithmetic on canonical rationals *)

Lemma Qc_sub_self (x : Qc) : x - x = 0.
Proof. ring. Qed.

Lemma Qc_sub_0 (x : Qc) : x - 0 = x.
Proof. ring. Qed.

Lemma Qc_lt_irrefl (x : Qc) : ¬ x < x.
Proof. apply Qlt_irrefl. Qed.

Lemma Qc_lt_asym (x y : Qc) : x < y → ¬ y < x.
Proof. intros H1 H2. apply (Qc_lt_irrefl x). by apply Qclt_trans with y. Qed.

Ltac qc_to_q :=
  repeat match goal with
  | H : @eq Qc ?x ?y |- _ =>
      let H' := fresh in
      assert (H' : (this x == this y)%Q) by (rewrite H; reflexivity);
      clear H
  | |- @eq Qc _ _ => apply Qc_is_canon
  end;
  unfold Qcle, Qclt, Qcminus, dec, of_int in *;
  repeat (progress (unfold Qcplus, Qcopp, Qcmult, Q2Qc in *; cbn [this] in *;
                    rewrite ?Qred_correct in * )).

Ltac qc_lra := qc_to_q; lra.

Lemma dec_opp (k : Z) (d : positive) : dec (- k) d = - dec k d.
Proof.
  apply Qc_is_canon. unfold dec, Qcopp, Q2Qc. cbn [this].
  by rewrite !Qred_correct.
Qed.

(** ** [get_cuts_spread] *)

(** C6: [get_cuts_spread] returns [len(requests) // 3] and
    [len(requests) - 1], the latter raised to [min_cuts + 1] when it would
    not exceed [min_cuts]; the maximum always exceeds the minimum. *)
Theorem get_cuts_spread_bounds {A} (requests : list A) :
  let count := Z.of_nat (length requests) in
  let min_cuts := (get_cuts_spread requests).1 in
  let max_cuts := (get_cuts_spread requests).2 in
  min_cuts = (count `div` 3)%Z
  ∧ max_cuts = (if decide (count - 1 ≤ min_cuts)%Z then (min_cuts + 1)%Z
                else (count - 1)%Z)
  ∧ (min_cuts < max_cuts)%Z.
Proof.
  intros count min_cuts max_cuts.
  unfold min_cuts, max_cuts, get_cuts_spread. fold count. simpl.
  case_decide; repeat split; lia.
Qed.

(** ** [cuts_to_polygons] and [cuts_to_moves] on no cuts *)

(** C8: with no cuts, [cuts_to_polygons] returns exactly one piece, the
    starting rectangle with corners (0,0), (0,len), (width,len), (width,0). *)
Theorem cuts_to_polygons_nil `{Shapely} (cake_len cake_width : num) :
  cuts_to_polygons [] cake_len cake_width
  = Ok [[(0, 0); (0, cake_len); (cake_width, cake_len); (cake_width, 0)]].
Proof. reflexivity. Qed.

(** C10: for the empty cut list [cuts_to_moves] returns no move at all,
    neither an INIT nor a CUT. *)
Theorem cuts_to_moves_nil {A} (requests : list A) (cake_len cake_width : num) :
  cuts_to_moves [] requests cake_len cake_width = [].
Proof. reflexivity. Qed.

(** ** [sneak] between two points of one edge *)

Ltac by_computation := apply (bool_decide_unpack _); vm_compute; exact I.

Lemma nearest_edge_x_left (p : point) (w : num) :
  0 < w → p.1 = 0 → nearest_edge_x p w = (0, 0).
Proof.
  intros Hw Hp. unfold nearest_edge_x. rewrite Hp, Qc_sub_0.
  case_decide as Hlt; [|done]. by apply Qc_lt_asym in Hlt.
Qed.

Lemma nearest_edge_x_right (p : point) (w : num) :
  0 < w → p.1 = w → nearest_edge_x p w = (w, 0).
Proof.
  intros Hw Hp. unfold nearest_edge_x. rewrite Hp, Qc_sub_self.
  by case_decide.
Qed.

Lemma nearest_edge_y_top (p : point) (l : num) :
  0 < l → p.2 = 0 → nearest_edge_y p l = (0, 0).
Proof.
  intros Hl Hp. unfold nearest_edge_y. rewrite Hp, Qc_sub_0.
  case_decide as Hlt; [|done]. by apply Qc_lt_asym in Hlt.
Qed.

Lemma nearest_edge_y_bottom (p : point) (l : num) :
  0 < l → p.2 = l → nearest_edge_y p l = (l, 0).
Proof.
  intros Hl Hp. unfold nearest_edge_y. rewrite Hp, Qc_sub_self.
  by case_decide.
Qed.

(** The start (30, 0) and the end (60, 0) lie both on the top edge of the
    100 x 100 cake, and [sneak] goes through the waypoint (100, 0.01). *)
Lemma sneak_same_edge_waypoint :
  0 < of_int 100
  ∧ same_edge (of_int 100) (of_int 100) (of_int 30, 0) (of_int 60, 0)
  ∧ sneak (of_int 30, 0) (of_int 60, 0) (of_int 100) (of_int 100)
    = [(of_int 100, dec 1 100); (of_int 60, 0)]
  ∧ sneak (of_int 30, 0) (of_int 60, 0) (of_int 100) (of_int 100)
    ≠ [(of_int 60, 0)].
Proof. repeat split; by_computation. Qed.

(** Splits on every test of [sneak] and closes the branches that the edge
    facts in the context rule out. *)
Ltac sneak_cases :=
  repeat case_decide; destruct_and?; destruct_or?; simplify_eq; try done;
  try (by (exfalso; eauto using Qc_lt_irrefl));
  exfalso; naive_solver eauto using Qc_lt_irrefl.

(** On the exact numbers, between two points of one edge the first test
    of each branch of [sneak] decides the walk, and no later one fires. *)
Lemma sneak_same_edge_exact (cake_width cake_len : num)
    (start_pos end_pos : point) :
  0 < cake_width → 0 < cake_len →
  same_edge cake_width cake_len start_pos end_pos →
  let nearest_x := (nearest_edge_x start_pos cake_width).1 in
  let x_dist := (nearest_edge_x start_pos cake_width).2 in
  let nearest_y := (nearest_edge_y start_pos cake_len).1 in
  let y_dist := (nearest_edge_y start_pos cake_len).2 in
  let end_x := (nearest_edge_x end_pos cake_width).1 in
  let end_y := (nearest_edge_y end_pos cake_len).1 in
  sneak start_pos end_pos cake_width cake_len
  = if decide (y_dist = 0 ∧ (dec 1 10 < x_dist ∨ nearest_x ≠ end_x)) then
      [(end_x, bounce nearest_y); end_pos]
    else if decide (x_dist = 0 ∧ (dec 1 10 < y_dist ∨ nearest_y ≠ end_y)) then
      [(bounce nearest_x, end_y); end_pos]
    else [end_pos].
Proof.
  intros Hw Hl Hedge. unfold sneak.
  destruct (nearest_edge_x start_pos cake_width) as [nx xd] eqn:Hsx.
  destruct (nearest_edge_y start_pos cake_len) as [ny yd] eqn:Hsy.
  destruct (nearest_edge_x end_pos cake_width) as [ex exd] eqn:Hex.
  destruct (nearest_edge_y end_pos cake_len) as [ey eyd] eqn:Hey.
  simpl.
  assert (Htenth : ¬ dec 1 10 < 0) by by_computation.
  destruct Hedge as [[Hs He]|[[Hs He]|[[Hs He]|[Hs He]]]].
  - rewrite (nearest_edge_x_left _ _ Hw Hs) in Hsx.
    rewrite (nearest_edge_x_left _ _ Hw He) in Hex.
    simplify_eq. sneak_cases.
  - rewrite (nearest_edge_x_right _ _ Hw Hs) in Hsx.
    rewrite (nearest_edge_x_right _ _ Hw He) in Hex.
    simplify_eq. sneak_cases.
  - rewrite (nearest_edge_y_top _ _ Hl Hs) in Hsy.
    rewrite (nearest_edge_y_top _ _ Hl He) in Hey.
    simplify_eq. sneak_cases.
  - rewrite (nearest_edge_y_bottom _ _ Hl Hs) in Hsy.
    rewrite (nearest_edge_y_bottom _ _ Hl He) in Hey.
    simplify_eq. sneak_cases.
Qed.

(** C7, amended: between two points of one edge of a cake of positive
    extents [sneak] never ricochets off a corner: it returns the end
    position alone, or after the one waypoint [(end_x, bounce nearest_y)]
    from a start on the top or bottom edge, or after the one waypoint
    [(bounce nearest_x, end_y)] from a start on the left or right edge.
    From the top or bottom edge the waypoint is there when the start is
    0.11 or more from its nearest side edge, or that side is not the one
    nearest to the end; from the left or right edge under the mirrored
    test, unless the first waypoint is taken.  The end position comes
    alone when the start is 0.09 or less from the side nearest to it and
    that side is the one nearest to the end.  Between 0.09 and 0.11 the
    rounding of the program's float subtraction decides, and nothing is
    said. *)
Theorem sneak_same_edge (cake_width cake_len : num) (start_pos end_pos : point) :
  0 < cake_width → 0 < cake_len →
  same_edge cake_width cake_len start_pos end_pos →
  let nearest_x := (nearest_edge_x start_pos cake_width).1 in
  let x_dist := (nearest_edge_x start_pos cake_width).2 in
  let nearest_y := (nearest_edge_y start_pos cake_len).1 in
  let y_dist := (nearest_edge_y start_pos cake_len).2 in
  let end_x := (nearest_edge_x end_pos cake_width).1 in
  let end_y := (nearest_edge_y end_pos cake_len).1 in
  let walk := sneak start_pos end_pos cake_width cake_len in
  let along_x := [(end_x, bounce nearest_y); end_pos] in
  let along_y := [(bounce nearest_x, end_y); end_pos] in
  (walk = [end_pos]
   ∨ (y_dist = 0 ∧ walk = along_x)
   ∨ (x_dist = 0 ∧ walk = along_y))
  ∧ (y_dist = 0 → dec 11 100 <= x_dist ∨ nearest_x ≠ end_x →
     walk = along_x)
  ∧ (x_dist = 0 → ¬ (y_dist = 0 ∧ nearest_x ≠ end_x) →
     dec 11 100 <= y_dist ∨ nearest_y ≠ end_y →
     walk = along_y)
  ∧ ((y_dist = 0 → x_dist <= dec 9 100 ∧ nearest_x = end_x) →
     (x_dist = 0 → y_dist <= dec 9 100 ∧ nearest_y = end_y) →
     walk = [end_pos]).
Proof.
  intros Hw Hl Hedge.
  pose proof (sneak_same_edge_exact cake_width cake_len start_pos end_pos
                Hw Hl Hedge) as Hwalk.
  cbv zeta in *. rewrite Hwalk. clear Hwalk Hedge.
  generalize (bounce (nearest_edge_y start_pos cake_len).1).
  generalize (bounce (nearest_edge_x start_pos cake_width).1).
  destruct (nearest_edge_x start_pos cake_width) as [nx xd].
  destruct (nearest_edge_y start_pos cake_len) as [ny yd].
  destruct (nearest_edge_x end_pos cake_width) as [ex exd].
  destruct (nearest_edge_y end_pos cake_len) as [ey eyd].
  cbn [fst snd]. intros bx by'.
  assert (Hfar : ∀ d : num, dec 11 100 <= d → dec 1 10 < d)
    by (intros d Hd; qc_lra).
  assert (Hnear : ∀ d : num, d <= dec 9 100 → ¬ dec 1 10 < d)
    by (intros d Hd Hd'; qc_lra).
  assert (Hzero : ¬ dec 1 10 < 0) by by_computation.
  split; [|split; [|split]].
  - destruct (decide (yd = 0 ∧ (dec 1 10 < xd ∨ nx ≠ ex))) as [[Hy _]|_];
      [by right; left|].
    destruct (decide (xd = 0 ∧ (dec 1 10 < yd ∨ ny ≠ ey))) as [[Hx _]|_];
      [by right; right|by left].
  - intros Hy Hor. rewrite decide_True; [done|].
    split; [done|]. destruct Hor as [?|?]; [left; auto|by right].
  - intros Hx Hnot Hor.
    rewrite decide_False.
    + rewrite decide_True; [done|].
      split; [done|]. destruct Hor as [?|?]; [left; auto|by right].
    + intros [Hy [Hd|Hne]]; [by subst|]. by apply Hnot.
  - intros H1 H2.
    rewrite decide_False.
    + rewrite decide_False; [done|].
      intros [Hx [Hd|Hne]]; destruct (H2 Hx) as [Hle Heq]; [|done].
      by apply (Hnear yd).
    + intros [Hy [Hd|Hne]]; destruct (H1 Hy) as [Hle Heq]; [|done].
      by apply (Hnear xd).
Qed.

Lemma sneak_same_edge_witness :
  sneak (of_int 30, 0) (of_int 60, 0) (of_int 100) (of_int 100)
  = [(of_int 100, bounce 0); (of_int 60, 0)].
Proof.
  refine (proj1 (proj2 (sneak_same_edge (of_int 100) (of_int 100)
                          (of_int 30, 0) (of_int 60, 0) _ _ _)) _ _).
  - by_computation.
  - by_computation.
  - by_computation.
  - by_computation.
  - left. by_computation.
Defined.

(** ** The penalty *)

Section PenaltyProps.
Context `{Shapely}.

Lemma py_index_lookup {A} (l : list A) (i : nat) (a : A) :
  l !! i = Some a → py_index l (Z.of_nat i) = Ok a.
Proof.
  intros Hl. unfold py_index. cbv zeta.
  pose proof (lookup_lt_Some _ _ _ Hl).
  destruct (decide (Z.of_nat i < 0)%Z); [lia|].
  case_decide; [|lia].
  by rewrite Nat2Z.id, Hl.
Qed.

Lemma py_index_nonneg {A} (l : list A) (i : Z) (a : A) :
  (0 ≤ i)%Z → l !! Z.to_nat i = Some a → py_index l i = Ok a.
Proof.
  intros Hi Hl. rewrite <- (Z2Nat.id i Hi). by apply py_index_lookup.
Qed.





End PenaltyProps.

(** ** The penalty on two pieces and three requests *)


(** ** Runs that draw *)


Lemma bindM_ret {A B} (m : M A) (k : A → M B) (g : rng) (r : B * rng) :
  bindM m k g = Ret r → ∃ a g1, m g = Ret (a, g1) ∧ k a g1 = Ret r.
Proof.
  unfold bindM. destruct (m g) as [[a g1]| |]; try done. eauto.
Qed.

Lemma bindM_ends {A B} (m : M A) (k : A → M B) (g : rng) :
  ends (m g) → (∀ a g1, m g = Ret (a, g1) → ends (k a g1)) →
  ends (bindM m k g).
Proof.
  unfold bindM, ends. destruct (m g) as [[a g1]| |]; try done. eauto.
Qed.

Lemma lift_ret {A} (o : checked A) (g : rng) (r : A * rng) :
  lift o g = Ret r → ∃ a, o = Ok a ∧ r = (a, g).
Proof. destruct o; simpl; intros; simplify_eq; eauto. Qed.

Lemma lift_ends {A} (o : checked A) (g : rng) : ends (lift o g).
Proof. by destruct o. Qed.

Lemma retM_ends {A} (a : A) (g : rng) : ends (retM a g).
Proof. done. Qed.

Lemma random_ends (g : rng) : ends (random g).
Proof. done. Qed.

Lemma py_index_elem_of {A} (l : list A) (i : Z) (a : A) :
  py_index l i = Ok a → a ∈ l.
Proof.
  unfold py_index. cbv zeta. case_decide; [|done].
  destruct (l !! _) eqn:Hl; [|done]. intros [= <-].
  by eapply list_elem_of_lookup_2.
Qed.

Lemma sample2_elem_of {A} (l : list A) (g g' : rng) (a b : A) :
  sample2 l g = Ret ((a, b), g') → a ∈ l ∧ b ∈ l.
Proof.
  destruct l as [|d [|d' l]]; try done.
  set (pick := λ k : list A,
    r1 ← draw; r2 ← draw;
    let i := N.to_nat (r1 mod N.of_nat (length k)) in
    let rest := remove_nth i k in
    let j := N.to_nat (r2 mod N.of_nat (length rest)) in
    retM (nth i k d, nth j rest d)).
  assert (sample2 (d :: d' :: l) g = pick (d :: d' :: l) g) as ->
    by reflexivity.
  assert (Hd : d ∈ d :: d' :: l) by left.
  remember (d :: d' :: l) as k eqn:Hk. clear Hk.
  assert (Hnth : ∀ (k' : list A) i, (∀ x, x ∈ k' → x ∈ k) → nth i k' d ∈ k).
  { intros k' i Hk'. destruct (nth_in_or_default i k' d) as [Hin| ->]; [|done].
    by apply Hk', list_elem_of_In. }
  unfold pick, bindM, draw, retM. cbv zeta. intros [= <- <- _].
  split; apply Hnth; [done|].
  intros x. unfold remove_nth. rewrite elem_of_app.
  intros [Hx|Hx]; [by eapply subseteq_take|by eapply subseteq_drop].
Qed.

Lemma sample2_ends {A} (l : list A) (g : rng) : ends (sample2 l g).
Proof. by destruct l as [|d [|d' l]]. Qed.

(** ** The sampler's loop *)

Lemma point_le_total (p q : point) : point_le p q ∨ point_le q p.
Proof.
  unfold point_le. destruct p as [px py], q as [qx qy]. simpl.
  destruct (Qc_dec px qx) as [[Hlt|Hgt]|Heq]; [by left; left|by right; left|].
  subst. destruct (Qclt_le_dec qy py) as [Hlt|Hle].
  - right. right. split; [done|]. by apply Qclt_le_weak.
  - left. by right.
Qed.

Lemma point_le_antisym (p q : point) : point_le p q → point_le q p → p = q.
Proof.
  unfold point_le. destruct p as [px py], q as [qx qy]. simpl.
  intros [H1|[H1 H1']] [H2|[H2 H2']]; subst.
  - by apply Qc_lt_asym in H1.
  - by apply Qc_lt_irrefl in H1.
  - by apply Qc_lt_irrefl in H2.
  - f_equal. by apply Qcle_antisym.
Qed.

Lemma cut_norm_swap (c : cut) : cut_norm (c.2, c.1) = cut_norm c.
Proof.
  unfold cut_norm. destruct c as [p q]. simpl.
  repeat case_decide; try done.
  - f_equal; by apply point_le_antisym.
  - destruct (point_le_total p q); done.
Qed.

Lemma same_cut_norm (c d : cut) : same_cut c d ↔ cut_norm c = cut_norm d.
Proof.
  split.
  - intros [->| ->]; [done|]. apply cut_norm_swap.
  - unfold cut_norm, same_cut. destruct c as [p q], d as [p' q']. simpl.
    repeat case_decide; intros; simplify_eq; auto.
Qed.

Section SamplerProps.
Variable gr : grid.

Lemma elem_of_realizable (c : cut) :
  c ∈ realizable_cuts gr ↔ c.1 ∈ points gr ∧ c.2 ∈ to_candidates gr c.1.
Proof.
  unfold realizable_cuts. rewrite list_elem_of_bind. split.
  - intros (p & Hc & Hp). apply list_elem_of_fmap in Hc as (q & -> & Hq).
    done.
  - intros [Hp Hq]. exists c.1. split; [|done].
    apply list_elem_of_fmap. exists c.2. by destruct c.
Qed.

Lemma advance_advance (a b : nat) (g : rng) :
  advance a (advance b g) = advance (a + b) g.
Proof. unfold advance. simpl. f_equal. lia. Qed.

Lemma sample1_ret {A} (l : list A) (g : rng) :
  l ≠ [] → ∃ a, a ∈ l ∧ sample1 l g = Ret (a, advance 1 g).
Proof.
  intros Hl. destruct l as [|d l]; [done|].
  eexists. split; [|reflexivity].
  apply list_elem_of_In, nth_In.
  pose proof (N.mod_upper_bound (tape g (pos g))
                (N.of_nat (length (d :: l)))) as Hb.
  simpl length in *. lia.
Qed.

Lemma sample1_elem_of {A} (l : list A) (g g' : rng) (a : A) :
  sample1 l g = Ret (a, g') → a ∈ l ∧ g' = advance 1 g.
Proof.
  intros Hs. destruct l as [|d l]; [discriminate|].
  destruct (sample1_ret (d :: l) g) as (a' & Ha & Hs'); [done|].
  rewrite Hs' in Hs. by simplify_eq.
Qed.




Lemma fresh_norm (selected : list cut) (c : cut) :
  ((c ∉ selected) ∧ ((c.2, c.1) ∉ selected)) ↔ cut_norm c ∉ cut_norm <$> selected.
Proof.
  rewrite list_elem_of_fmap. split.
  - intros [H1 H2] (d & Hn & Hd). apply same_cut_norm in Hn as [->| ->];
      [done|].
    by destruct d.
  - intros Hn. split; intros Hin; apply Hn.
    + by exists c.
    + exists (c.2, c.1). by rewrite cut_norm_swap.
Qed.

Lemma add_cut_ok (selected : list cut) (c : cut) :
  selected_ok gr selected → c ∈ realizable_cuts gr →
  selected_ok gr (add_cut selected c).
Proof.
  intros [Hnd Hin] Hc. unfold add_cut. case_decide as Hfresh; [|done].
  split.
  - rewrite fmap_app. apply NoDup_app. split; [done|]. split.
    + intros x Hx Hx'. apply list_elem_of_singleton in Hx' as ->.
      by apply fresh_norm in Hfresh.
    + apply NoDup_singleton.
  - intros d [Hd|Hd%list_elem_of_singleton]%elem_of_app; [auto|by subst].
Qed.

Lemma add_cut_length (selected : list cut) (c : cut) :
  length (add_cut selected c) = length selected
  ∨ length (add_cut selected c) = S (length selected).
Proof.
  unfold add_cut. case_decide; [right|by left].
  rewrite length_app. simpl. lia.
Qed.




Lemma draw_cut_elem_of (g g' : rng) (c : cut) :
  draw_cut gr g = Ret (c, g') → c ∈ realizable_cuts gr ∧ g' = advance 2 g.
Proof.
  unfold draw_cut, bindM, retM. intros Hd.
  destruct (sample1 (points gr) g) as [[p g1]| |] eqn:Hp; try done.
  destruct (sample1 (to_candidates gr p) g1) as [[q g2]| |] eqn:Hq; try done.
  apply sample1_elem_of in Hp as [Hp ->], Hq as [Hq ->]. simplify_eq.
  split; [by apply elem_of_realizable|]. by rewrite advance_advance.
Qed.



Lemma advance_0 (g : rng) : advance 0 g = g.
Proof. by destruct g. Qed.


(** Whatever the loop returns is a set of exactly [cuts] cuts. *)
Lemma generate_cuts_loop_result (cuts : Z) (fuel : nat) :
  ∀ (selected : list cut) (g : rng) (selected' : list cut) (g' : rng),
  selected_ok gr selected → (length selected ≤ Z.to_nat cuts)%nat →
  generate_cuts_loop gr fuel cuts selected g = Ret (selected', g') →
  selected_ok gr selected' ∧ length selected' = Z.to_nat cuts.
Proof.
  induction fuel as [|fuel IH]; intros sel g sel' g' Hok Hlen Hrun;
    [done|].
  simpl in Hrun. case_decide as Hlt.
  - unfold bindM in Hrun.
    destruct (draw_cut gr g) as [[c g1]| |] eqn:Hd; try done.
    apply draw_cut_elem_of in Hd as [Hc ->].
    apply IH in Hrun; [done|by apply add_cut_ok|].
    destruct (add_cut_length sel c) as [-> | ->]; lia.
  - unfold retM in Hrun. simplify_eq. split; [done|]. lia.
Qed.




End SamplerProps.

(** ** The grid of [generate_cuts] *)

Lemma of_int_eq_0 (z : Z) : of_int z = 0 → z = 0%Z.
Proof.
  unfold of_int. intros Hz. apply Q2Qc_eq_iff in Hz.
  unfold Qeq in Hz. simpl in Hz. lia.
Qed.

Lemma omapM_ret {A B} (f : A → checked B) (l : list A) :
  (∀ a, a ∈ l → ∃ b, f a = Ok b) →
  ∃ bs, omapM f l = Ok bs ∧ length bs = length l.
Proof.
  induction l as [|a l IH]; intros Hf; [by exists []|].
  destruct (Hf a) as [b Hb]; [by left|].
  destruct IH as (bs & Hbs & Hlen); [intros; apply Hf; by right|].
  exists (b :: bs). simpl. rewrite Hb. simpl. rewrite Hbs. simpl.
  by rewrite Hlen.
Qed.

Lemma edge_coords_ret (extent : num) (jumps : Z) :
  jumps ≠ 1%Z →
  ∃ cs, edge_coords extent jumps = Ok cs ∧ length cs = Z.to_nat jumps.
Proof.
  intros Hj. unfold edge_coords.
  destruct (omapM_ret
    (λ i, q ←! py_div (extent * of_int i) (of_int (jumps - 1)); Ok (round2 q))
    (seqZ 0 jumps)) as (cs & Hcs & Hlen).
  - intros i _. unfold py_div. rewrite decide_False; [by eexists|].
    intros Hz%of_int_eq_0. lia.
  - exists cs. split; [done|]. by rewrite Hlen, length_seqZ.
Qed.




(** ** A fair tape *)





(** ** Termination of the sampler *)



(** ** An unfair tape *)




(** ** What the sampler does exclude *)

Lemma to_candidates_first_edge (gr : grid) (p : point) :
  to_candidates gr p = list_difference (points gr) (first_edge gr p).
Proof. unfold to_candidates, first_edge. by repeat case_decide. Qed.

(** Every cut [generate_cuts] returns ends outside the edge list its
    start was filed under; so no cut starts and ends in [LEFT], and a cut
    from (0, 25) to (0, 75) is never returned. *)
Lemma generate_cuts_off_first_edge (fuel : nat) (cuts : Z)
    (cake_len cake_width : num) (jumps : Z) (gr : grid) (g g' : rng)
    (selected : list cut) (c : cut) :
  sample_grid cake_len cake_width jumps = Ok gr →
  generate_cuts fuel cuts cake_len cake_width jumps g = Ret (selected, g') →
  c ∈ selected →
  c.1 ∈ points gr ∧ c.2 ∈ points gr ∧ c.2 ∉ first_edge gr c.1.
Proof.
  intros Hgr Hrun Hc. unfold generate_cuts, bindM, lift in Hrun.
  rewrite Hgr in Hrun.
  apply generate_cuts_loop_result in Hrun as [[_ Hreal] _].
  - apply Hreal, elem_of_realizable in Hc as [Hfrom Hto].
    rewrite to_candidates_first_edge in Hto.
    apply list_elem_of_difference in Hto as [? ?]. done.
  - split; [apply NoDup_nil_2|]. by intros ? ?%not_elem_of_nil.
  - simpl. lia.
Qed.

(** ** [generate_cuts] at a corner *)

(** C2 fails at a corner.  On the 100 x 100 cake with three points per
    edge, the draws 2 and 1 pick the corner (0, 0), which [generate_cuts]
    files under LEFT only, and then (50, 0): the one cut returned runs
    along the top edge. *)
Theorem generate_cuts_same_edge_cut :
  result (generate_cuts 2 1 (of_int 100) (of_int 100) 3 (tape_of [2; 1]%N))
  = Ret [((0, 0), (of_int 50, 0))]
  ∧ same_edge (of_int 100) (of_int 100) (0, 0) (of_int 50, 0).
Proof. split; by_computation. Qed.

(** ** Rounding stays in a box *)


Lemma round_half_even_bounds (y : Q) (K : Z) :
  (inject_Z (- K) <= y)%Q → (y <= inject_Z K)%Q →
  (- K ≤ round_half_even y ≤ K)%Z.
Proof.
  intros Hlo Hhi.
  assert (Hf1 : (- K ≤ Qfloor y)%Z).
  { rewrite <- (Qfloor_Z (- K)). by apply Qfloor_resp_le. }
  assert (Hf2 : (Qfloor y ≤ K)%Z).
  { rewrite <- (Qfloor_Z K). by apply Qfloor_resp_le. }
  unfold round_half_even.
  destruct (Qcompare_spec (y - inject_Z (Qfloor y)) (1 # 2)) as [He|Hl|Hg];
    [|lia|].
  - destruct (decide (Qfloor y = K)) as [HK|HK]; [|destruct (Z.even _); lia].
    rewrite HK in He. exfalso. lra.
  - destruct (decide (Qfloor y = K)) as [HK|HK]; [|lia].
    rewrite HK in Hg. exfalso. lra.
Qed.

Lemma hundredths_in_box (K : Z) (x : num) : x ∈ hundredths K → in_box K x.
Proof.
  unfold hundredths, in_box.
  intros (k & -> & Hk)%list_elem_of_fmap. apply elem_of_seqZ in Hk.
  split; qc_to_q; unfold Qle; simpl; lia.
Qed.

Lemma round2_hundredths (K : Z) (x : num) :
  in_box K x → round2 x ∈ hundredths K.
Proof.
  intros [Hlo Hhi]. unfold round2, hundredths.
  apply list_elem_of_fmap. eexists. split; [reflexivity|].
  apply elem_of_seqZ.
  cut (- K ≤ round_half_even (x * 100) ≤ K)%Z; [lia|].
  apply round_half_even_bounds.
  - qc_to_q. unfold Qle in *. simpl in *. lia.
  - qc_to_q. unfold Qle in *. simpl in *. lia.
Qed.

(** ** Offsets stay in a box *)

Section Box.
Variables (cake_len cake_width : num) (K : Z).


Lemma genome_grid_box (g : genome) : genome_in_grid K g → genome_in_box K g.
Proof.
  intros (?&?&?&?). repeat split; by apply hundredths_in_box.
Qed.

Lemma round_genome_grid (g : genome) :
  genome_in_box K g → genome_in_grid K (round_genome g).
Proof.
  intros (?&?&?&?). repeat split; by apply round2_hundredths.
Qed.

Lemma mutate_in_box (c : cut) (g : genome) (mut : num) :
  cut_fits cake_len cake_width K c → genome_in_box K g →
  genome_in_box K (mutate c g mut cake_len cake_width).
Proof.
  unfold cut_fits, guard_terms, genome_in_box, in_box.
  destruct c as [[lx ly] [rx ry]], g as [[g00 g01] [g10 g11]].
  rewrite !Forall_cons. cbn [fst snd].
  intros (H1 & H2 & H3 & H4 & H5 & H6 & H7 & _) Hg.
  unfold mutate, MUTATION_DIST.
  repeat case_decide; cbn [fst snd]; try done;
    cbn [fst snd] in *; rewrite ?dec_opp in *;
    destruct_and?; repeat split; try done; qc_lra.
Qed.

End Box.

(** ** The guards of the first endpoint *)

(** The sibling guards do what the guard of the second endpoint on the
    top or bottom edge misses: a mutation of the first endpoint moves one
    coordinate only, and on the exact numbers the moved coordinate of the
    combined endpoint is strictly inside the cake's extent. *)
Lemma mutate_first_endpoint_inside (c : cut) (g : genome)
    (mut cake_len cake_width : num) :
  mut < MUTATION_PROB / dec 2 1 →
  0 <= c.1.1 + g.1.1 ∧ c.1.1 + g.1.1 <= cake_width →
  0 <= c.1.2 + g.1.2 ∧ c.1.2 + g.1.2 <= cake_len →
  let g' := mutate c g mut cake_len cake_width in
  g'.2 = g.2
  ∧ (g'.1 = g.1
     ∨ (g'.1.1 = g.1.1
        ∧ 0 < c.1.2 + g'.1.2 ∧ c.1.2 + g'.1.2 < cake_len)
     ∨ (g'.1.2 = g.1.2
        ∧ 0 < c.1.1 + g'.1.1 ∧ c.1.1 + g'.1.1 < cake_width)).
Proof.
  destruct c as [[lx ly] [rx ry]], g as [[g00 g01] [g10 g11]].
  cbn [fst snd]. intros Hmut Hx Hy. unfold mutate, MUTATION_DIST.
  rewrite decide_True by done.
  repeat case_decide; cbn [fst snd]; (split; [done|]);
    try (by left); destruct_and?; cbn [fst snd] in *;
    first [ right; left; split; [done|split; qc_lra]
          | right; right; split; [done|split; qc_lra] ].
Qed.

(** ** [create_offspring] past the right edge *)

(** C3 fails for the second endpoint on the top edge.  The base cut goes
    from (0, 50) to (99.95, 0) on the 100 x 100 cake, both parents are the
    zero candidate, and the second draw is [mut = 0.25]: the test before
    [genome[1][0] += MUTATION_DIST] compares [r[1] + genome[1][0] +
    MUTATION_DIST] with [cake_len], so the offset 0.1 is accepted and the
    combined endpoint is (100.05, 0), beyond the cake's width. *)
Theorem create_offspring_leaves_cake :
  let cuts := [((0, of_int 50), (dec 9995 100, 0))] in
  let parent := zero_candidate cuts in
  result (create_offspring cuts parent parent (of_int 100) (of_int 100)
            (tape_of [0; 2 ^ 51]%N))
  = Ret [((0, 0), (dec 1 10, 0))]
  ∧ combined_cuts cuts [((0, 0), (dec 1 10, 0))]
    = Ok [((0, of_int 50), (dec 10005 100, 0))]
  ∧ of_int 100 < dec 10005 100.
Proof. repeat split; by_computation. Qed.

(** ** Offspring stay on the grid of hundredths *)

Section Offspring.
Variables (cake_len cake_width : num) (K : Z).

Local Abbreviation on_grid := (Forall (genome_in_grid K)).

Lemma create_offspring_grid (c1 : candidate) :
  ∀ (cuts : list cut) (c2 : candidate) (g g' : rng) (offspring : candidate),
  Forall (cut_fits cake_len cake_width K) cuts → on_grid c1 → on_grid c2 →
  create_offspring cuts c1 c2 cake_len cake_width g = Ret (offspring, g') →
  length offspring = length c1 ∧ on_grid offspring.
Proof.
  induction c1 as [|g1 c1 IH]; intros cuts c2 g g' off Hcuts H1 H2 Hrun.
  - simpl in Hrun. unfold retM in Hrun. by simplify_eq.
  - simpl in Hrun. apply Forall_cons in H1 as [Hg1 H1].
    apply bindM_ret in Hrun as (toss & ga & _ & Hrun).
    apply bindM_ret in Hrun as (ge & gb & Hge & Hrun).
    apply bindM_ret in Hrun as (mut & gc & _ & Hrun).
    apply bindM_ret in Hrun as (gm & gd & Hgm & Hrun).
    apply bindM_ret in Hrun as (rest & gf & Hrest & Hrun).
    unfold retM in Hrun. simplify_eq.
    assert (Hge' : genome_in_grid K ge).
    { destruct (decide (toss < dec 1 2)).
      - unfold retM in Hge. by simplify_eq.
      - apply lift_ret in Hge as (x & Hx & ?). simplify_eq.
        apply py_index_elem_of in Hx. rewrite Forall_forall in H2. auto. }
    assert (Hgm' : genome_in_box K gm).
    { destruct (decide (mut < MUTATION_PROB)).
      - apply bindM_ret in Hgm as (c & gx & Hc & Hgm).
        unfold retM in Hgm. simplify_eq.
        apply lift_ret in Hc as (x & Hx & ?). simplify_eq.
        apply py_index_elem_of in Hx. rewrite Forall_forall in Hcuts.
        apply mutate_in_box; [auto|by apply genome_grid_box].
      - unfold retM in Hgm. simplify_eq. by apply genome_grid_box. }
    apply IH in Hrest as [Hlen Hrest]; try done.
    + split; [simpl; by rewrite Hlen|].
      apply Forall_cons. split; [by apply round_genome_grid|done].
    + destruct cuts; [done|]. by apply Forall_cons in Hcuts as [_ ?].
    + destruct c2; [done|]. by apply Forall_cons in H2 as [_ ?].
Qed.

Lemma create_offspring_ends (c1 : candidate) :
  ∀ (cuts : list cut) (c2 : candidate) (g : rng),
  ends (create_offspring cuts c1 c2 cake_len cake_width g).
Proof.
  induction c1 as [|g1 c1 IH]; intros cuts c2 g; [done|].
  simpl.
  apply bindM_ends; [apply random_ends|]. intros toss ga _.
  apply bindM_ends.
  { case_decide; [apply retM_ends|apply lift_ends]. }
  intros ge gb _.
  apply bindM_ends; [apply random_ends|]. intros mut gc _.
  apply bindM_ends.
  { case_decide; [|apply retM_ends].
    apply bindM_ends; [apply lift_ends|]. intros; apply retM_ends. }
  intros gm gd _.
  apply bindM_ends; [apply IH|]. intros; apply retM_ends.
Qed.

End Offspring.

(** ** The stable sort *)

Lemma insert_by_key_perm {A} (x : num * A) (l : list (num * A)) :
  insert_by_key x l ≡ₚ x :: l.
Proof.
  induction l as [|y l IH]; [done|]. simpl. case_decide; [|done].
  rewrite IH. apply Permutation_swap.
Qed.

Lemma sort_by_key_perm {A} (l : list (num * A)) : sort_by_key l ≡ₚ l.
Proof.
  induction l as [|x l IH]; [done|]. simpl.
  by rewrite insert_by_key_perm, IH.
Qed.


Lemma insert_by_key_head {A} (x : num * A) (l : list (num * A)) :
  head_least l → head_least (insert_by_key x l).
Proof.
  destruct l as [|y l]; simpl.
  - intros _. apply Forall_singleton. apply Qcle_refl.
  - intros Hy. case_decide as Hlt.
    + apply Forall_cons in Hy as [Hyy Hy]. unfold head_least.
      apply Forall_cons_2; [done|]. rewrite insert_by_key_perm.
      apply Forall_cons_2; [by apply Qclt_le_weak|done].
    + apply Qcnot_lt_le in Hlt. unfold head_least.
      apply Forall_cons_2; [apply Qcle_refl|].
      eapply Forall_impl; [exact Hy|]. simpl. intros z Hz.
      by eapply Qcle_trans.
Qed.

Lemma sort_by_key_head {A} (l : list (num * A)) : head_least (sort_by_key l).
Proof.
  induction l as [|x l IH]; [done|]. simpl. by apply insert_by_key_head.
Qed.

Lemma omapM_keyed {A} (f : A → checked num) (l : list A)
    (keyed : list (num * A)) :
  omapM (λ c, k ←! f c; Ok (k, c)) l = Ok keyed →
  keyed.*2 = l ∧ Forall (λ kc, f kc.2 = Ok kc.1) keyed.
Proof.
  revert keyed. induction l as [|c l IH]; intros keyed Hk; simpl in Hk.
  - by simplify_eq.
  - destruct (f c) as [k|] eqn:Hc; [|done]. simpl in Hk.
    destruct (omapM _ l) as [ks|] eqn:Hl; [|done]. simpl in Hk.
    simplify_eq. destruct (IH ks eq_refl) as [<- Hks].
    split; [done|]. by apply Forall_cons.
Qed.

(** ** One generation *)

Section Generation.
Context `{Shapely} (assign : assign_func).
Variables (requests : list num) (cake_len cake_width tolerance : num).
Variables (cuts : list cut) (K : Z).
Hypothesis cuts_fit : Forall (cut_fits cake_len cake_width K) cuts.

Local Abbreviation score :=
  (candidate_penalty assign requests cake_len cake_width tolerance cuts).
Local Abbreviation next_gen :=
  (next_generation assign requests cake_len cake_width tolerance cuts).


Lemma sort_candidates_spec (candidates sorted : list candidate) :
  sort_candidates assign requests cake_len cake_width tolerance cuts
    candidates = Ok sorted →
  sorted ≡ₚ candidates
  ∧ ∀ c0, head sorted = Some c0 →
      ∃ p0, score c0 = Ok p0
            ∧ ∀ c p, c ∈ candidates → score c = Ok p → p0 <= p.
Proof.
  unfold sort_candidates. intros Hs.
  destruct (omapM _ candidates) as [keyed|] eqn:Hk; [|done].
  simpl in Hs. simplify_eq.
  apply omapM_keyed in Hk as [<- Hk].
  split; [by rewrite sort_by_key_perm|].
  intros c0 Hc0.
  pose proof (sort_by_key_head keyed) as Hleast.
  pose proof (sort_by_key_perm keyed) as Hperm.
  destruct (sort_by_key keyed) as [|[p0 c0'] rest]; [done|].
  simpl in Hc0, Hleast. simplify_eq.
  rewrite Forall_forall in Hk. rewrite Forall_forall in Hleast.
  exists p0. split.
  - apply (Hk (p0, c0)). rewrite <- Hperm. by left.
  - intros c p (kc & -> & Hkc)%list_elem_of_fmap Hp.
    rewrite (Hk kc Hkc) in Hp. simplify_eq.
    apply (Hleast kc). by rewrite Hperm.
Qed.

Lemma breed_spec (n : nat) :
  ∀ (candidates candidates' : list candidate) (g g' : rng),
  Forall (in_space cuts K) candidates →
  breed cake_len cake_width n cuts candidates g = Ret (candidates', g') →
  Forall (in_space cuts K) candidates'
  ∧ (∀ c, c ∈ candidates → c ∈ candidates')
  ∧ length candidates' = (length candidates + n)%nat.
Proof.
  induction n as [|n IH]; intros cands cands' g g' Hsp Hrun; simpl in Hrun.
  - unfold retM in Hrun. simplify_eq. repeat split; [done|done|lia].
  - apply bindM_ret in Hrun as ([c1 c2] & g1 & Hparents & Hrun).
    apply bindM_ret in Hrun as (offspring & g2 & Hoff & Hrun).
    apply sample2_elem_of in Hparents as [Hc1 Hc2].
    rewrite Forall_forall in Hsp.
    destruct (Hsp c1 Hc1) as [Hl1 Hg1], (Hsp c2 Hc2) as [Hl2 Hg2].
    apply create_offspring_grid with (K := K) in Hoff as [Hlen Hgrid];
      try done.
    apply IH in Hrun as (Hsp' & Hin & Hlen').
    + repeat split; [done| |].
      * intros c Hc. apply Hin, elem_of_app. by left.
      * rewrite Hlen', length_app. simpl. lia.
    + apply Forall_app. split; [by apply Forall_forall|].
      apply Forall_singleton. split; [|done]. simpl in Hlen. congruence.
Qed.

Lemma breed_ends (n : nat) :
  ∀ (candidates : list candidate) (g : rng),
  ends (breed cake_len cake_width n cuts candidates g).
Proof.
  induction n as [|n IH]; intros cands g; [done|]. simpl.
  apply bindM_ends; [apply sample2_ends|]. intros parents g1 _.
  apply bindM_ends; [apply create_offspring_ends|]. intros; apply IH.
Qed.

Lemma next_generation_ends (candidates : list candidate) (g : rng) :
  ends (next_gen candidates g).
Proof.
  unfold next_generation, fill_population.
  apply bindM_ends; [apply breed_ends|]. intros filled g1 _.
  apply bindM_ends; [apply lift_ends|]. intros; apply retM_ends.
Qed.

Lemma next_generation_spec (candidates candidates' : list candidate)
    (g g' : rng) :
  Forall (in_space cuts K) candidates →
  next_gen candidates g = Ret (candidates', g') →
  Forall (in_space cuts K) candidates'
  ∧ ∃ c0 p0, head candidates' = Some c0 ∧ score c0 = Ok p0
             ∧ ∀ c p, c ∈ candidates → score c = Ok p → p0 <= p.
Proof.
  intros Hsp Hrun. unfold next_generation, fill_population in Hrun.
  apply bindM_ret in Hrun as (filled & g1 & Hfill & Hrun).
  apply bindM_ret in Hrun as (sorted & g2 & Hsort & Hrun).
  unfold retM in Hrun. simplify_eq.
  apply breed_spec in Hfill as (Hsp' & Hin & Hlen); [|done].
  apply lift_ret in Hsort as (sorted' & Hsort & ?). simplify_eq.
  apply sort_candidates_spec in Hsort as [Hperm Hhead].
  assert (Hlong : (20 ≤ length sorted')%nat).
  { rewrite Hperm, Hlen. unfold NUM_CANDIDATES. lia. }
  split.
  - unfold cut_worst. apply Forall_take. by rewrite Hperm.
  - destruct sorted' as [|c0 rest]; [simpl in Hlong; lia|].
    destruct (Hhead c0 eq_refl) as (p0 & Hp0 & Hleast).
    exists c0, p0. split; [|split; [done|]].
    + unfold cut_worst, CUTOFF. simpl length.
      by replace (S (length rest) - 6)%nat with (S (length rest - 6)) by
        (simpl in Hlong; lia).
    + intros c p Hc. by apply Hleast, Hin.
Qed.

End Generation.

(** ** A box for every cut list *)

Lemma num_bound (x : num) : ∃ K : Z, (0 ≤ K)%Z ∧ x <= dec K 100.
Proof.
  exists (Z.max 0 (Qceiling (x * 100))). split; [lia|].
  pose proof (Qle_ceiling (x * 100)) as Hc.
  assert (Hm : (inject_Z (Qceiling (x * 100))
                <= inject_Z (Z.max 0 (Qceiling (x * 100))))%Q).
  { rewrite <- Zle_Qle. lia. }
  qc_to_q. apply Qle_trans with (inject_Z (Z.max 0 (Qceiling (x * 100))) / 100)%Q.
  - apply Qle_shift_div_l; [done|]. lra.
  - unfold Qle. simpl. lia.
Qed.

Lemma dec_mono (K K' : Z) : (K ≤ K')%Z → dec K 100 <= dec K' 100.
Proof. intros HK. qc_to_q. unfold Qle. simpl. lia. Qed.

Lemma cut_fits_mono (cake_len cake_width : num) (K K' : Z) (c : cut) :
  (K ≤ K')%Z → cut_fits cake_len cake_width K c →
  cut_fits cake_len cake_width K' c.
Proof.
  intros HK Hc. unfold cut_fits. eapply Forall_impl; [exact Hc|].
  simpl. intros x Hx. eapply Qcle_trans; [exact Hx|by apply dec_mono].
Qed.

Lemma list_bound (xs : list num) :
  ∃ K : Z, (0 ≤ K)%Z ∧ Forall (λ x, x <= dec K 100) xs.
Proof.
  induction xs as [|x xs (K1 & HK1 & Hxs)]; [by exists 0%Z|].
  destruct (num_bound x) as (K2 & HK2 & Hx).
  exists (Z.max K1 K2). split; [lia|]. apply Forall_cons. split.
  - eapply Qcle_trans; [exact Hx|apply dec_mono; lia].
  - eapply Forall_impl; [exact Hxs|]. simpl. intros y Hy.
    eapply Qcle_trans; [exact Hy|apply dec_mono; lia].
Qed.

Lemma cuts_box (cake_len cake_width : num) (cuts : list cut) :
  ∃ K : Z, (0 ≤ K)%Z ∧ Forall (cut_fits cake_len cake_width K) cuts.
Proof.
  induction cuts as [|c cuts (K1 & HK1 & Hcuts)]; [by exists 0%Z|].
  destruct (list_bound (guard_terms cake_len cake_width c))
    as (K2 & HK2 & Hc).
  exists (Z.max K1 K2). split; [lia|]. apply Forall_cons. split.
  - apply cut_fits_mono with K2; [lia|done].
  - eapply Forall_impl; [exact Hcuts|]. intros c'.
    apply cut_fits_mono. lia.
Qed.

(** ** Every list over a finite alphabet *)


Lemma all_lists_elem_of {A} (xs : list A) (l : list A) :
  Forall (.∈ xs) l → l ∈ all_lists xs (length l).
Proof.
  induction 1 as [|x l Hx Hl IH]; simpl; [by left|].
  apply list_elem_of_bind. exists x. split; [|done].
  apply list_elem_of_fmap. eauto.
Qed.


Lemma all_genomes_elem_of (K : Z) (g : genome) :
  genome_in_grid K g → g ∈ all_genomes K.
Proof.
  intros (?&?&?&?). unfold all_genomes.
  apply list_elem_of_cprod. split; by apply list_elem_of_cprod.
Qed.

(** ** The generations of [shake] *)

Section Shake.
Context `{Shapely} (assign : assign_func).
Variables (requests : list num) (cake_len cake_width tolerance : num).
Variables (cuts : list cut) (K : Z).
Hypothesis cuts_fit : Forall (cut_fits cake_len cake_width K) cuts.

Local Abbreviation score :=
  (candidate_penalty assign requests cake_len cake_width tolerance cuts).
Local Abbreviation next_gen :=
  (next_generation assign requests cake_len cake_width tolerance cuts).
Local Abbreviation loop :=
  (shake_loop assign requests cake_len cake_width tolerance).
Local Abbreviation best_score :=
  (best_candidate_penalty assign requests cake_len cake_width tolerance cuts).
Local Abbreviation space := (in_space cuts K).
Local Abbreviation scores :=
  (reachable_scores assign requests cake_len cake_width tolerance cuts K).
Local Abbreviation below :=
  (scores_below assign requests cake_len cake_width tolerance cuts K).
Local Abbreviation leads :=
  (leads_within assign requests cake_len cake_width tolerance cuts).


Lemma score_in_scores (c : candidate) (p : num) :
  space c → score c = Ok p → p ∈ scores.
Proof.
  intros [Hlen Hgrid] Hp. apply list_elem_of_omap. exists c.
  unfold reachable_scores. rewrite Hp. split; [|done]. rewrite <- Hlen.
  apply all_lists_elem_of. eapply Forall_impl; [exact Hgrid|].
  apply all_genomes_elem_of.
Qed.


Lemma below_lt (p : num) (m : xnum) :
  p ∈ scores → xlt (Fin p) m → (below (Fin p) < below m)%nat.
Proof.
  intros Hp Hlt. unfold scores_below.
  assert (Heq : filter (λ v, xlt (Fin v) (Fin p)) scores
    = filter (λ v, xlt (Fin v) (Fin p))
        (filter (λ v, xlt (Fin v) m) scores)).
  { rewrite list_filter_filter. apply list_filter_iff. intros v. simpl.
    split; [|tauto]. intros Hv. split; [done|].
    destruct m as [q|]; simpl in *; [|done]. by eapply Qclt_trans. }
  rewrite Heq. apply length_filter_lt with p.
  - by apply list_elem_of_filter.
  - simpl. apply Qc_lt_irrefl.
Qed.

Lemma head_py_index {A} (l : list A) (a : A) :
  head l = Some a ↔ py_index l 0 = Ok a.
Proof. destruct l; simpl; [done|]. unfold py_index. simpl. naive_solver. Qed.

Lemma best_score_head (candidates : list candidate) (c0 : candidate) :
  head candidates = Some c0 → best_score candidates = score c0.
Proof.
  intros Hc0%head_py_index. unfold best_candidate_penalty. by rewrite Hc0.
Qed.

Lemma shake_loop_S (fuel : nat) (candidates : list candidate) (m : xnum)
    (best_epoc curr_epoc : Z) :
  loop (S fuel) cuts candidates m best_epoc curr_epoc
  = if decide (xlt (Fin 0) m
               ∧ (curr_epoc < best_epoc + MAX_UNCHANGED_EPOCS)%Z) then
      (candidates ← next_gen candidates;
       _ ← lift (penalty_of assign requests cake_len cake_width tolerance
                   cuts);
       _ ← lift (best_score candidates);
       curr_penalty ← lift (best_score candidates);
       if decide (xlt (Fin curr_penalty) m) then
         loop fuel cuts candidates (Fin curr_penalty) (curr_epoc + 1)%Z
           (curr_epoc + 1)%Z
       else loop fuel cuts candidates m best_epoc (curr_epoc + 1)%Z)
    else retM candidates.
Proof. reflexivity. Qed.

(** The loop ends: each generation either lowers the best penalty, which
    can happen only as often as there are penalties, or brings the
    stagnation limit one generation closer. *)
Lemma shake_loop_ends (measure : nat) :
  ∀ (candidates : list candidate) (m : xnum) (best_epoc curr_epoc : Z)
    (g : rng),
  Forall space candidates →
  (30 * below m + Z.to_nat (best_epoc + 30 - curr_epoc) ≤ measure)%nat →
  ∃ fuel, ends (loop fuel cuts candidates m best_epoc curr_epoc g).
Proof.
  induction measure as [measure IH] using lt_wf_ind.
  intros cands m best curr g Hsp Hmeasure.
  destruct (decide (xlt (Fin 0) m
                    ∧ (curr < best + MAX_UNCHANGED_EPOCS)%Z)) as [Hgo|Hstop].
  2: { exists 1%nat. rewrite shake_loop_S, decide_False by done. done. }
  destruct Hgo as [Hpos Hepoc]. unfold MAX_UNCHANGED_EPOCS in Hepoc.
  destruct (next_gen cands g) as [[cands1 g1]|e|] eqn:Hng.
  3: { by destruct (next_generation_ends assign requests cake_len cake_width
                      tolerance cuts cands g). }
  2: { exists 1%nat. rewrite shake_loop_S, decide_True by done.
       unfold bindM. by rewrite Hng. }
  apply (next_generation_spec assign requests cake_len cake_width tolerance
           cuts K cuts_fit) in Hng as Hspec; [|done].
  destruct Hspec as (Hsp1 & c0 & p0 & Hhead & Hp0 & _).
  assert (Hstep : ∀ fuel,
    loop (S fuel) cuts cands m best curr g
    = (_ ← lift (penalty_of assign requests cake_len cake_width tolerance
                   cuts);
       _ ← lift (best_score cands1);
       curr_penalty ← lift (best_score cands1);
       if decide (xlt (Fin curr_penalty) m) then
         loop fuel cuts cands1 (Fin curr_penalty) (curr + 1)%Z (curr + 1)%Z
       else loop fuel cuts cands1 m best (curr + 1)%Z) g1).
  { intros fuel. rewrite shake_loop_S, decide_True by done.
    unfold bindM at 1. by rewrite Hng. }
  destruct (penalty_of assign requests cake_len cake_width tolerance cuts)
    as [pb|e] eqn:Hpb.
  2: { exists 1%nat. by rewrite Hstep. }
  rewrite (best_score_head _ _ Hhead), Hp0 in Hstep.
  unfold bindM, lift in Hstep.
  assert (Hin : p0 ∈ scores).
  { apply (score_in_scores c0); [|done].
    rewrite Forall_forall in Hsp1. apply Hsp1.
    destruct cands1; simpl in Hhead; simplify_eq. by left. }
  destruct (decide (xlt (Fin p0) m)) as [Hbetter|Hsame].
  - pose proof (below_lt p0 m Hin Hbetter) as Hlt.
    destruct (IH (30 * below (Fin p0) + 30)%nat) with
      (candidates := cands1) (m := Fin p0) (best_epoc := (curr + 1)%Z)
      (curr_epoc := (curr + 1)%Z) (g := g1) as [fuel Hfuel]; [lia|done|lia|].
    exists (S fuel). by rewrite Hstep.
  - destruct (IH (30 * below m + Z.to_nat (best + 30 - (curr + 1)))%nat) with
      (candidates := cands1) (m := m) (best_epoc := best)
      (curr_epoc := (curr + 1)%Z) (g := g1) as [fuel Hfuel]; [lia|done|lia|].
    exists (S fuel). by rewrite Hstep.
Qed.


Lemma next_generation_leads (bound : num) (candidates candidates' : list candidate)
    (g g' : rng) :
  Forall space candidates →
  (∃ c p, c ∈ candidates ∧ score c = Ok p ∧ p <= bound) →
  next_gen candidates g = Ret (candidates', g') →
  Forall space candidates' ∧ leads bound candidates'.
Proof.
  intros Hsp (c & p & Hc & Hp & Hle) Hng.
  apply (next_generation_spec assign requests cake_len cake_width tolerance
           cuts K cuts_fit) in Hng as (Hsp' & c0 & p0 & Hhead & Hp0 & Hmin);
    [|done].
  split; [done|]. exists c0, p0. repeat split; try done.
  eapply Qcle_trans; [|exact Hle]. by eapply Hmin.
Qed.

Lemma shake_loop_leads (bound : num) (fuel : nat) :
  ∀ (candidates candidates' : list candidate) (m : xnum)
    (best_epoc curr_epoc : Z) (g g' : rng),
  Forall space candidates → leads bound candidates →
  loop fuel cuts candidates m best_epoc curr_epoc g = Ret (candidates', g') →
  leads bound candidates'.
Proof.
  induction fuel as [|fuel IH];
    intros cands cands' m best curr g g' Hsp Hlead Hrun; [done|].
  rewrite shake_loop_S in Hrun. case_decide as Hgo.
  2: { unfold retM in Hrun. by simplify_eq. }
  apply bindM_ret in Hrun as (cands1 & g1 & Hng & Hrun).
  apply (next_generation_leads bound) in Hng as [Hsp1 Hlead1]; [|done|].
  2: { destruct Hlead as (c0 & p0 & Hhead & Hp0 & Hle). exists c0, p0.
       split; [|done]. destruct cands; simpl in Hhead; simplify_eq.
       by left. }
  apply bindM_ret in Hrun as (pb & g2 & _ & Hrun).
  apply bindM_ret in Hrun as (p1 & g3 & _ & Hrun).
  apply bindM_ret in Hrun as (p2 & g4 & _ & Hrun).
  case_decide; by eapply IH.
Qed.

End Shake.

(** ** [shake] *)


Lemma combined_cuts_zero (cuts : list cut) :
  Forall rounded_cut cuts →
  combined_cuts cuts (zero_candidate cuts) = Ok cuts.
Proof.
  induction 1 as [|c cuts (H1 & H2 & H3 & H4) _ IH]; [done|].
  change (zero_candidate (c :: cuts))
    with (((0, 0), (0, 0)) :: zero_candidate cuts).
  cbn [combined_cuts tail]. unfold py_index. simpl. rewrite IH. simpl.
  unfold combine_cut. cbn [fst snd]. rewrite !Qcplus_0_r.
  unfold rounded in *. destruct c as [[??][??]]; simpl in *.
  by rewrite H1, H2, H3, H4.
Qed.

Lemma zero_in_space (cuts : list cut) (K : Z) :
  (0 ≤ K)%Z → in_space cuts K (zero_candidate cuts).
Proof.
  intros HK. split; [apply length_fmap|].
  assert (Hz : (0 : num) ∈ hundredths K).
  { apply list_elem_of_fmap. exists 0%Z. split; [by apply Qc_is_canon|].
    apply elem_of_seqZ. lia. }
  apply Forall_fmap, Forall_forall. intros c _. by repeat split.
Qed.

(** ** Runs that return *)

Lemma sample2_ret {A} (l : list A) (g : rng) :
  (2 ≤ length l)%nat → ∃ r g', sample2 l g = Ret (r, g').
Proof.
  destruct l as [|d [|d' l]]; simpl; try lia. intros _.
  unfold sample2, bindM, draw, retM. eauto.
Qed.

Lemma combined_cuts_ok (cuts : list cut) :
  ∀ c : candidate, (length cuts ≤ length c)%nat →
                   ∃ cc, combined_cuts cuts c = Ok cc.
Proof.
  induction cuts as [|x cuts IH]; intros c Hlen; [by eexists|].
  destruct c as [|g c]; simpl in Hlen; [lia|].
  destruct (IH c) as [cc Hcc]; [lia|].
  eexists. cbn [combined_cuts tail].
  rewrite (proj1 (head_py_index (g :: c) g) eq_refl). simpl.
  by rewrite Hcc.
Qed.

Lemma create_offspring_ret (cake_len cake_width : num) (c1 : candidate) :
  ∀ (cuts : list cut) (c2 : candidate) (g : rng),
  (length c1 ≤ length cuts)%nat → (length c1 ≤ length c2)%nat →
  ∃ offspring g',
    create_offspring cuts c1 c2 cake_len cake_width g = Ret (offspring, g').
Proof.
  induction c1 as [|g1 c1 IH]; intros cuts c2 g Hcuts Hc2; [by eexists _, _|].
  destruct cuts as [|c cuts]; simpl in Hcuts; [lia|].
  destruct c2 as [|g2 c2]; simpl in Hc2; [lia|].
  cbn [create_offspring tail].
  unfold bindM at 1. unfold random at 1. unfold bindM at 1, draw, retM at 1.
  set (toss := Q2Qc _). set (ga := advance 1 g).
  assert (Hge : ∃ ge, (if decide (toss < dec 1 2) then retM g1
                       else lift (py_index (g2 :: c2) 0)) ga = Ret (ge, ga)).
  { destruct (decide (toss < dec 1 2)); [by eexists|].
    rewrite (proj1 (head_py_index (g2 :: c2) g2) eq_refl).
    eexists. reflexivity. }
  destruct Hge as [ge Hge]. unfold bindM at 1. rewrite Hge.
  unfold bindM at 1. unfold random at 1. unfold bindM at 1, draw, retM at 1.
  set (mut := Q2Qc _). set (gb := advance 1 ga).
  assert (Hgm : ∃ gm, (if decide (mut < MUTATION_PROB) then
                         c' ← lift (py_index (c :: cuts) 0);
                         retM (mutate c' ge mut cake_len cake_width)
                       else retM ge) gb = Ret (gm, gb)).
  { destruct (decide (mut < MUTATION_PROB)); [|by eexists].
    rewrite (proj1 (head_py_index (c :: cuts) c) eq_refl).
    eexists. reflexivity. }
  destruct Hgm as [gm Hgm]. unfold bindM at 1. rewrite Hgm.
  destruct (IH cuts c2 gb) as (rest & g' & Hrest); [lia|lia|].
  unfold bindM. rewrite Hrest. by eexists _, _.
Qed.

(** ** When the penalty never raises *)

Section Total.
Context `{Shapely} (assign : assign_func).
Variables (requests : list num) (cake_len cake_width tolerance : num).
Variables (cuts : list cut) (K : Z).
Hypothesis cuts_fit : Forall (cut_fits cake_len cake_width K) cuts.
Hypothesis penalty_total :
  ∀ cs, ∃ p, penalty_of assign requests cake_len cake_width tolerance cs
             = Ok p.

Local Abbreviation score :=
  (candidate_penalty assign requests cake_len cake_width tolerance cuts).
Local Abbreviation next_gen :=
  (next_generation assign requests cake_len cake_width tolerance cuts).
Local Abbreviation loop :=
  (shake_loop assign requests cake_len cake_width tolerance).
Local Abbreviation best_score :=
  (best_candidate_penalty assign requests cake_len cake_width tolerance cuts).
Local Abbreviation space := (in_space cuts K).
Local Abbreviation below :=
  (scores_below assign requests cake_len cake_width tolerance cuts K).

Lemma score_ok (c : candidate) : space c → ∃ p, score c = Ok p.
Proof.
  intros [Hlen _]. unfold candidate_penalty.
  destruct (combined_cuts_ok cuts c) as [cc ->]; [lia|]. simpl.
  apply penalty_total.
Qed.

Lemma sort_candidates_ok (candidates : list candidate) :
  Forall space candidates →
  ∃ sorted,
    sort_candidates assign requests cake_len cake_width tolerance cuts
      candidates = Ok sorted.
Proof.
  intros Hsp. unfold sort_candidates.
  destruct (omapM_ret (λ c, k ←! score c; Ok (k, c)) candidates)
    as (keyed & -> & _); [|by eexists].
  intros c Hc. rewrite Forall_forall in Hsp.
  destruct (score_ok c (Hsp c Hc)) as [p ->]. by eexists.
Qed.

Lemma breed_ret (n : nat) :
  ∀ (candidates : list candidate) (g : rng),
  Forall space candidates → (2 ≤ length candidates)%nat →
  ∃ candidates' g',
    breed cake_len cake_width n cuts candidates g = Ret (candidates', g').
Proof.
  induction n as [|n IH]; intros cands g Hsp Hlen; [by eexists _, _|].
  cbn [breed].
  destruct (sample2_ret cands g Hlen) as ([c1 c2] & g1 & Hparents).
  unfold bindM at 1. rewrite Hparents.
  apply sample2_elem_of in Hparents as [Hc1 Hc2].
  rewrite Forall_forall in Hsp.
  destruct (Hsp c1 Hc1) as [Hl1 Hg1], (Hsp c2 Hc2) as [Hl2 Hg2].
  destruct (create_offspring_ret cake_len cake_width c1 cuts c2 g1)
    as (offspring & g2 & Hoff); [lia|lia|].
  unfold bindM at 1. cbn [fst snd]. rewrite Hoff.
  apply create_offspring_grid with (K := K) in Hoff as [Hlen' Hgrid];
    try done.
  apply IH.
  - apply Forall_app. split; [by apply Forall_forall|].
    apply Forall_singleton. split; [congruence|done].
  - rewrite length_app. simpl. lia.
Qed.

Lemma next_generation_ret (candidates : list candidate) (g : rng) :
  Forall space candidates → (2 ≤ length candidates)%nat →
  ∃ candidates' g',
    next_gen candidates g = Ret (candidates', g')
    ∧ Forall space candidates' ∧ (2 ≤ length candidates')%nat.
Proof.
  intros Hsp Hlen.
  destruct (breed_ret (NUM_CANDIDATES - length candidates) candidates g
              Hsp Hlen) as (filled & g1 & Hfill).
  pose proof Hfill as Hfill'.
  apply (breed_spec cake_len cake_width cuts K cuts_fit) in Hfill'
    as (Hsp1 & _ & Hlen1); [|done].
  destruct (sort_candidates_ok filled Hsp1) as [sorted Hsort].
  pose proof Hsort as Hsort'.
  apply sort_candidates_spec in Hsort' as [Hperm _].
  exists (cut_worst sorted), g1. repeat split.
  - unfold next_generation, fill_population, bindM. rewrite Hfill.
    unfold lift. by rewrite Hsort.
  - unfold cut_worst. apply Forall_take. by rewrite Hperm.
  - unfold cut_worst. rewrite length_take, Hperm, Hlen1.
    unfold NUM_CANDIDATES, CUTOFF. lia.
Qed.

Lemma shake_loop_returns (measure : nat) :
  ∀ (candidates : list candidate) (m : xnum) (best_epoc curr_epoc : Z)
    (g : rng),
  Forall space candidates → (2 ≤ length candidates)%nat →
  (30 * below m + Z.to_nat (best_epoc + 30 - curr_epoc) ≤ measure)%nat →
  ∃ fuel candidates' g',
    loop fuel cuts candidates m best_epoc curr_epoc g = Ret (candidates', g')
    ∧ Forall space candidates' ∧ (2 ≤ length candidates')%nat.
Proof.
  induction measure as [measure IH] using lt_wf_ind.
  intros cands m best curr g Hsp Hlen Hmeasure.
  destruct (decide (xlt (Fin 0) m
                    ∧ (curr < best + MAX_UNCHANGED_EPOCS)%Z)) as [Hgo|Hstop].
  2: { exists 1%nat, cands, g.
       by rewrite shake_loop_S, decide_False by done. }
  destruct Hgo as [Hpos Hepoc]. unfold MAX_UNCHANGED_EPOCS in Hepoc.
  destruct (next_generation_ret cands g Hsp Hlen)
    as (cands1 & g1 & Hng & Hsp1 & Hlen1).
  destruct cands1 as [|c0 rest]; [simpl in Hlen1; lia|].
  assert (Hc0 : space c0).
  { rewrite Forall_forall in Hsp1. apply Hsp1. by left. }
  destruct (score_ok c0 Hc0) as [p0 Hp0].
  destruct (penalty_total cuts) as [pb Hpb].
  assert (Hstep : ∀ fuel,
    loop (S fuel) cuts cands m best curr g
    = if decide (xlt (Fin p0) m) then
        loop fuel cuts (c0 :: rest) (Fin p0) (curr + 1)%Z (curr + 1)%Z g1
      else loop fuel cuts (c0 :: rest) m best (curr + 1)%Z g1).
  { intros fuel. rewrite shake_loop_S, decide_True by done.
    unfold bindM at 1. rewrite Hng. rewrite Hpb.
    rewrite (best_score_head assign requests cake_len cake_width tolerance
               cuts (c0 :: rest) c0 eq_refl), Hp0.
    unfold bindM, lift. by case_decide. }
  assert (Hin : p0 ∈ reachable_scores assign requests cake_len cake_width
                       tolerance cuts K)
    by by apply (score_in_scores assign requests cake_len cake_width
                   tolerance cuts K c0).
  destruct (decide (xlt (Fin p0) m)) as [Hbetter|Hsame].
  - pose proof (below_lt assign requests cake_len cake_width tolerance cuts K
                  p0 m Hin Hbetter) as Hlt.
    destruct (IH (30 * below (Fin p0) + 30)%nat) with
      (candidates := c0 :: rest) (m := Fin p0) (best_epoc := (curr + 1)%Z)
      (curr_epoc := (curr + 1)%Z) (g := g1)
      as (fuel & cands' & g' & Hrun & Hres); [lia|done|done|lia|].
    exists (S fuel), cands', g'. by rewrite Hstep.
  - destruct (IH (30 * below m + Z.to_nat (best + 30 - (curr + 1)))%nat) with
      (candidates := c0 :: rest) (m := m) (best_epoc := best)
      (curr_epoc := (curr + 1)%Z) (g := g1)
      as (fuel & cands' & g' & Hrun & Hres); [lia|done|done|lia|].
    exists (S fuel), cands', g'. by rewrite Hstep.
Qed.

Lemma shake_returns (pen : xnum) (g : rng) :
  (0 ≤ K)%Z →
  ∃ fuel refined g',
    shake assign requests cake_len cake_width tolerance fuel cuts pen g
    = Ret (refined, g').
Proof.
  intros HK. pose proof (zero_in_space cuts K HK) as Hzero.
  destruct (next_generation_ret [zero_candidate cuts; zero_candidate cuts] g)
    as (cands1 & g1 & Hng & Hsp1 & Hlen1);
    [by repeat apply Forall_cons_2|simpl; lia|].
  destruct (shake_loop_returns _ cands1 pen 0%Z 0%Z g1 Hsp1 Hlen1 (le_n _))
    as (fuel & cands2 & g2 & Hloop & Hsp2 & Hlen2).
  destruct cands2 as [|c0 rest]; [simpl in Hlen2; lia|].
  assert (Hc0 : space c0).
  { rewrite Forall_forall in Hsp2. apply Hsp2. by left. }
  destruct (combined_cuts_ok cuts c0) as [cc Hcc]; [destruct Hc0; lia|].
  exists fuel, cc, g2. unfold shake, bindM. rewrite Hng, Hloop.
  rewrite (proj1 (head_py_index (c0 :: rest) c0) eq_refl). simpl.
  by rewrite Hcc.
Qed.

End Total.

(** ** The refinement never loses *)

(** C4, amended: for a base cut set whose coordinates have two decimals
    and an input penalty equal to the base cut set's penalty, on every random
    source: the cut set [shake] returns has a penalty, and that penalty is
    at most the input penalty; [shake] comes to an end, some amount of
    fuel is enough for it; and when the penalty never raises, [shake]
    returns a cut set. *)
Theorem shake_never_worse `{Shapely} (assign : assign_func)
    (requests : list num) (cake_len cake_width tolerance : num)
    (cuts : list cut) (pen : num) (g : rng) :
  Forall rounded_cut cuts →
  penalty_of assign requests cake_len cake_width tolerance cuts = Ok pen →
  (∀ fuel refined g',
     shake assign requests cake_len cake_width tolerance fuel cuts (Fin pen) g
     = Ret (refined, g') →
     ∃ p, penalty_of assign requests cake_len cake_width tolerance refined
          = Ok p
          ∧ p <= pen)
  ∧ (∃ fuel,
       ends (shake assign requests cake_len cake_width tolerance fuel cuts
               (Fin pen) g))
  ∧ ((∀ cs, ∃ p, penalty_of assign requests cake_len cake_width tolerance cs
                 = Ok p) →
     ∃ fuel refined g',
       shake assign requests cake_len cake_width tolerance fuel cuts
         (Fin pen) g = Ret (refined, g')).
Proof.
  intros Hrounded Hpen.
  destruct (cuts_box cake_len cake_width cuts) as (K & HK & Hfit).
  pose proof (zero_in_space cuts K HK) as Hzero.
  assert (Hscore : candidate_penalty assign requests cake_len cake_width
                     tolerance cuts (zero_candidate cuts) = Ok pen).
  { unfold candidate_penalty. by rewrite combined_cuts_zero. }
  assert (Hstart : Forall (in_space cuts K)
                     [zero_candidate cuts; zero_candidate cuts]).
  { by repeat apply Forall_cons_2. }
  split; [|split].
  - intros fuel refined g' Hrun. unfold shake in Hrun.
    apply bindM_ret in Hrun as (cands1 & g1 & Hng & Hrun).
    apply (next_generation_leads assign requests cake_len cake_width tolerance
             cuts K Hfit pen) in Hng as [Hsp1 Hlead1]; [|done|].
    2: { exists (zero_candidate cuts), pen.
         split; [by left|]. split; [done|apply Qcle_refl]. }
    apply bindM_ret in Hrun as (cands2 & g2 & Hloop & Hrun).
    apply (shake_loop_leads assign requests cake_len cake_width tolerance
             cuts K Hfit pen) in Hloop as (c0 & p0 & Hhead & Hp0 & Hle);
      [|done|done].
    apply bindM_ret in Hrun as (c & g3 & Hc & Hrun).
    apply lift_ret in Hc as (c' & Hc & ?). simplify_eq.
    apply head_py_index in Hhead. rewrite Hhead in Hc. simplify_eq.
    apply lift_ret in Hrun as (r & Hr & ?). simplify_eq.
    exists p0. split; [|done].
    unfold candidate_penalty in Hp0. by rewrite Hr in Hp0.
  - destruct (next_generation assign requests cake_len cake_width tolerance
                cuts [zero_candidate cuts; zero_candidate cuts] g)
      as [[cands1 g1]|e|] eqn:Hng.
    + apply (next_generation_spec assign requests cake_len cake_width
               tolerance cuts K Hfit) in Hng as Hspec; [|done].
      destruct Hspec as [Hsp1 _].
      destruct (shake_loop_ends assign requests cake_len cake_width tolerance
                  cuts K Hfit _ cands1 (Fin pen) 0%Z 0%Z g1 Hsp1 (le_n _))
        as [fuel Hfuel].
      exists fuel. unfold shake, bindM at 1. rewrite Hng.
      apply bindM_ends; [done|]. intros cands2 g2 _.
      apply bindM_ends; [apply lift_ends|]. intros; apply lift_ends.
    + exists 0%nat. unfold shake, bindM at 1. by rewrite Hng.
    + by destruct (next_generation_ends assign requests cake_len cake_width
                     tolerance cuts [zero_candidate cuts; zero_candidate cuts]
                     g).
  - intros Htotal.
    by apply (shake_returns assign requests cake_len cake_width tolerance
                cuts K Hfit Htotal).
Qed.

(** With the stand-in collaborators every cut leaves the cake whole, so
    the penalty of every cut set is that of the whole cake. *)
Lemma no_split_penalty (requests : list num) (cake_len cake_width : num)
    (tolerance : num) (cs : list cut) :
  penalty_of (H := no_split_shapely) assign_in_order requests cake_len
    cake_width tolerance cs
  = penalty_of (H := no_split_shapely) assign_in_order requests cake_len
      cake_width tolerance [].
Proof.
  unfold penalty_of, penalty, cuts_to_polygons.
  generalize [(0, 0); (0, cake_len); (cake_width, cake_len); (cake_width, 0)].
  intros rect.
  assert (apply_cuts (H := no_split_shapely) cs [rect] = Ok [rect]) as ->;
    [|done].
  induction cs as [|c cs IH]; [done|]. by cbn.
Qed.

Lemma shake_never_worse_witness :
  let cuts := [((0, of_int 50), (of_int 100, of_int 50))] in
  let requests := [of_int 5000; of_int 5000] in
  (∀ fuel refined g',
     shake (H := no_split_shapely) assign_in_order requests (of_int 100)
       (of_int 100) 0 fuel cuts (Fin (of_int 200)) (tape_of [])
     = Ret (refined, g') →
     ∃ p, penalty_of (H := no_split_shapely) assign_in_order requests
            (of_int 100) (of_int 100) 0 refined = Ok p
          ∧ p <= of_int 200)
  ∧ ∃ fuel refined g',
      shake (H := no_split_shapely) assign_in_order requests (of_int 100)
        (of_int 100) 0 fuel cuts (Fin (of_int 200)) (tape_of [])
      = Ret (refined, g').
Proof.
  intros cuts requests.
  destruct (shake_never_worse (H := no_split_shapely) assign_in_order
              requests (of_int 100) (of_int 100) 0 cuts (of_int 200)
              (tape_of [])) as (Hbest & _ & Hreturns).
  - repeat constructor; by_computation.
  - by_computation.
  - split; [exact Hbest|]. apply Hreturns. intros cs.
    exists (of_int 200). rewrite no_split_penalty. by_computation.
Defined.

(** Two decimals cannot be dropped from C4.  On the cake of width 1 and
    length 1.005 the sampler hands out the cut from (0, 1.005) to (1, 0),
    which halves the cake: two requests of 0.5025 are met and the penalty
    is 0.  [shake] rounds every candidate, the zero candidate too, and
    returns the cut from (0, 1) to (1, 0); its pieces of 0.5 and 0.505 are
    each off by more than the tolerance of 0.1 percent. *)
Lemma shake_unrounded_base_worse :
  result (generate_cuts 2 1 (dec 1005 1000) 1 2 (tape_of [4; 3]%N))
  = Ret [((0, dec 1005 1000), (1, 0))]
  ∧ penalty_of (H := line_shapely) assign_in_order
      [dec 201 400; dec 201 400] (dec 1005 1000) 1 (dec 1 10)
      [((0, dec 1005 1000), (1, 0))]
    = Ok 0
  ∧ result (shake (H := line_shapely) assign_in_order
              [dec 201 400; dec 201 400] (dec 1005 1000) 1 (dec 1 10) 1
              [((0, dec 1005 1000), (1, 0))] (Fin 0) (tape_of []))
    = Ret [((0, 1), (1, 0))]
  ∧ penalty_of (H := line_shapely) assign_in_order
      [dec 201 400; dec 201 400] (dec 1005 1000) 1 (dec 1 10)
      [((0, 1), (1, 0))]
    = Ok (dec 200 201)
  ∧ 0 < dec 200 201.
Proof. repeat split; by_computation. Qed.

(** ** The loop variable the search leaves behind *)

Section SearchProps.
Context `{Shapely} (assign : assign_func).
Variables (requests : list num) (cake_len cake_width tolerance : num).

Local Abbreviation run_loop :=
  (search_loop assign requests cake_len cake_width tolerance).

Lemma search_loop_cuts (fuel m : nat) :
  ∀ (lo : Z) (st st' : search_state) (g g' : rng),
  (lo - 6 ≤ best_cut_no st ≤ lo)%Z →
  run_loop fuel (seqZ lo (Z.of_nat (S m))) st g = Ret (st', g') →
  ∃ k, loop_cuts st' = Some k
       ∧ (best_cut_no st' ≤ k)%Z
       ∧ (k = lo + Z.of_nat m ∨ k = best_cut_no st' + 6)%Z.
Proof.
  induction m as [|m IH]; intros lo st st' g g' Hbest Hrun.
  - change (seqZ lo (Z.of_nat 1)) with [lo] in Hrun.
    cbn [search_loop best_cut_no] in Hrun. case_decide as Hbreak.
    + unfold retM in Hrun. simplify_eq. exists lo. simpl.
      repeat split; [lia|right; lia].
    + apply bindM_ret in Hrun as (r & g1 & _ & Hrun).
      case_decide; simpl in Hrun; unfold retM in Hrun; simplify_eq;
        exists lo; simpl; repeat split; try lia; left; lia.
  - rewrite seqZ_cons in Hrun by lia.
    replace (Z.pred (Z.of_nat (S (S m)))) with (Z.of_nat (S m)) in Hrun
      by lia.
    cbn [search_loop best_cut_no] in Hrun. case_decide as Hbreak.
    + unfold retM in Hrun. simplify_eq. exists lo. simpl.
      repeat split; [lia|right; lia].
    + apply bindM_ret in Hrun as (r & g1 & _ & Hrun).
      case_decide; apply IH in Hrun as (k & Hk & Hle & Hor);
        try (simpl; lia); exists k; repeat split; try done; lia.
Qed.

(** The count the spam pass uses is the last count the search reached:
    the maximum, or the best count plus 6 when the search broke off.  It
    is the best count only if the best count is the maximum. *)
Lemma search_leaves_last_count (fuel : nat) (st : search_state) (g g' : rng) :
  search assign requests cake_len cake_width tolerance fuel g = Ret (st, g') →
  ∃ k, spam_cut_count st = Ok k
       ∧ (best_cut_no st ≤ k)%Z
       ∧ (k = (get_cuts_spread requests).2 ∨ k = best_cut_no st + 6)%Z.
Proof.
  unfold search.
  assert (Hlt : ((get_cuts_spread requests).1
                 < (get_cuts_spread requests).2)%Z)
    by (unfold get_cuts_spread; simpl; lia).
  destruct (get_cuts_spread requests) as [min_cuts max_cuts].
  simpl in Hlt.
  replace (max_cuts + 1 - min_cuts)%Z
    with (Z.of_nat (S (Z.to_nat (max_cuts - min_cuts)))) by lia.
  intros Hrun. apply search_loop_cuts in Hrun as (k & Hk & Hle & Hor);
    [|simpl; lia].
  exists k. unfold spam_cut_count. rewrite Hk. repeat split; [done|].
  simpl. lia.
Qed.

End SearchProps.

(** ** The count of the spam pass *)

(** C1 fails whenever the search does not end on its best count.  With
    four requests the search tries 1, 2 and 3 cuts; here every contender
    scores the same, so the best count stays 1, and the spam pass is
    called with the loop variable's last value, 3. *)
Theorem best_combo_spam_count :
  let requests := [of_int 10; of_int 10; of_int 10; of_int 10] in
  let run :=
    search (H := no_split_shapely) leave_unassigned requests
      (of_int 100) (of_int 100) 0 50 in
  result ((st ← run; retM (best_cut_no st)) (tape_of [])) = Ret 1%Z
  ∧ result ((st ← run; lift (spam_cut_count st)) (tape_of [])) = Ret 3%Z.
Proof. split; by_computation. Qed.

(** ** The moves of a cut list *)

Lemma sneak_last (start_pos end_pos : point) (w l : num) :
  ∃ waypoints, sneak start_pos end_pos w l = waypoints ++ [end_pos]
               ∧ (length waypoints ≤ 4)%nat.
Proof.
  unfold sneak.
  destruct (nearest_edge_x start_pos w) as [nearest_x x_dist].
  destruct (nearest_edge_y start_pos l) as [nearest_y y_dist].
  destruct (nearest_edge_x end_pos w) as [end_x end_x_dist].
  destruct (nearest_edge_y end_pos l) as [end_y end_y_dist].
  eexists. split; [reflexivity|].
  repeat case_decide; simpl; lia.
Qed.

Section Moves.
Variables (cake_len cake_width : num).

Local Abbreviation step := (cuts_to_moves_step cake_len cake_width).

Lemma cuts_to_moves_state (cs : list cut) (c : cut) :
  ∃ moves, foldl step ([], None) (cs ++ [c]) = (moves, Some c.2) ∧ moves ≠ [].
Proof.
  rewrite foldl_app. simpl.
  destruct (foldl step ([], None) cs) as [moves lp].
  unfold cuts_to_moves_step.
  destruct moves as [|m moves]; [|destruct lp]; eexists; (split; [reflexivity|]);
    simpl; done.
Qed.

(** One more cut: the walk to its first end, then the stroke. *)
Lemma cuts_to_moves_snoc {A} (requests : list A) (cs : list cut) (d c : cut) :
  cuts_to_moves (cs ++ [d; c]) requests cake_len cake_width
  = cuts_to_moves (cs ++ [d]) requests cake_len cake_width
    ++ ((λ p, (CUT, p)) <$> sneak d.2 c.1 cake_width cake_len)
    ++ [(CUT, c.2)].
Proof.
  unfold cuts_to_moves.
  replace (cs ++ [d; c]) with ((cs ++ [d]) ++ [c]) by by rewrite <- app_assoc.
  rewrite (foldl_app _ (cs ++ [d])).
  destruct (cuts_to_moves_state cs d) as (moves & -> & Hne).
  simpl. destruct moves; [done|]. by rewrite <- app_assoc.
Qed.

Lemma cuts_to_moves_one {A} (requests : list A) (c : cut) :
  cuts_to_moves [c] requests cake_len cake_width = [(INIT, c.1); (CUT, c.2)].
Proof. reflexivity. Qed.

Lemma cuts_to_moves_ind {A} (requests : list A)
    (P : list cut → list move → Prop) :
  (∀ c, P [c] [(INIT, c.1); (CUT, c.2)]) →
  (∀ cs d c ms,
     P (cs ++ [d]) ms →
     P (cs ++ [d; c])
       (ms ++ ((λ p, (CUT, p)) <$> sneak d.2 c.1 cake_width cake_len)
           ++ [(CUT, c.2)])) →
  ∀ cuts, cuts ≠ [] →
    P cuts (cuts_to_moves cuts requests cake_len cake_width).
Proof.
  intros Hone Hsnoc cuts. induction cuts as [|c cs IH] using rev_ind; [done|].
  intros _. destruct cs as [|d cs _] using rev_ind.
  - apply Hone.
  - rewrite <- app_assoc. simpl. rewrite cuts_to_moves_snoc.
    apply Hsnoc, IH. by destruct cs.
Qed.

(** X1: the moves of a non-empty cut list start with one INIT at the first
    cut's first end; every later move is a CUT, and the last one goes to
    the last cut's second end. *)
Theorem cuts_to_moves_shape {A} (requests : list A) (c0 : cut)
    (cs : list cut) :
  ∃ rest,
    cuts_to_moves (c0 :: cs) requests cake_len cake_width
    = (INIT, c0.1) :: rest
    ∧ Forall (λ m, m.1 = CUT) rest
    ∧ last rest = (λ d, (CUT, d.2)) <$> last (c0 :: cs).
Proof.
  pose (P := λ (cuts : list cut) (ms : list move),
    ∀ c, head cuts = Some c →
      ∃ rest, ms = (INIT, c.1) :: rest ∧ Forall (λ m, m.1 = CUT) rest
              ∧ last rest = (λ d, (CUT, d.2)) <$> last cuts).
  assert (HP : P (c0 :: cs)
                 (cuts_to_moves (c0 :: cs) requests cake_len cake_width)).
  { apply cuts_to_moves_ind; [| |done]; unfold P.
    - intros c c' [= <-]. eexists. split; [done|]. split; [|done].
      by repeat constructor.
    - intros l d c ms IH c' Hhd.
      destruct (IH c') as (rest & -> & Hall & Hlast).
      { by destruct l. }
      eexists. split; [by rewrite <- app_comm_cons|]. split.
      + rewrite !Forall_app. split_and!; [done| |by repeat constructor].
        apply Forall_fmap, Forall_true. done.
      + replace (l ++ [d; c]) with ((l ++ [d]) ++ [c])
          by by rewrite <- app_assoc.
        by rewrite !app_assoc, !last_snoc. }
  by apply HP.
Qed.

(** X2: every cut of the list is made: its two ends are consecutive
    positions of the knife. *)
Theorem cuts_to_moves_strokes {A} (requests : list A) (cuts : list cut)
    (c : cut) :
  c ∈ cuts →
  ∃ before after,
    (cuts_to_moves cuts requests cake_len cake_width).*2
    = before ++ [c.1; c.2] ++ after.
Proof.
  intros Hc.
  assert (Hne : cuts ≠ []) by (intros ->; by apply elem_of_nil in Hc).
  revert c Hc.
  apply (cuts_to_moves_ind requests (λ cuts ms,
    ∀ c, c ∈ cuts → ∃ before after, ms.*2 = before ++ [c.1; c.2] ++ after)).
  - intros c c' ->%list_elem_of_singleton. by exists [], [].
  - intros l d c ms IH c' Hc'.
    destruct (sneak_last d.2 c.1 cake_width cake_len) as (wp & -> & _).
    replace (l ++ [d; c]) with ((l ++ [d]) ++ [c]) in Hc'
      by by rewrite <- app_assoc.
    rewrite !fmap_app, <- list_fmap_compose. simpl.
    apply elem_of_app in Hc' as [Hc'| ->%list_elem_of_singleton].
    + destruct (IH c' Hc') as (before & after & ->).
      exists before. eexists. rewrite <- !app_assoc. simpl. reflexivity.
    + exists (ms.*2 ++ ((snd ∘ (λ p : point, (CUT, p))) <$> wp)), [].
      rewrite <- !app_assoc. simpl. reflexivity.
  - done.
Qed.

(** X3: a list of [n] cuts takes at least [2 n] moves and, when it is not
    empty, at most [6 n - 4]: a walk between two cuts has at most four
    waypoints. *)
Theorem cuts_to_moves_length {A} (requests : list A) (cuts : list cut) :
  let moves := cuts_to_moves cuts requests cake_len cake_width in
  (2 * length cuts ≤ length moves)%nat
  ∧ (cuts ≠ [] → length moves + 4 ≤ 6 * length cuts)%nat.
Proof.
  destruct (decide (cuts = [])) as [->|Hne]; [by split|].
  enough ((2 * length cuts
           ≤ length (cuts_to_moves cuts requests cake_len cake_width))%nat
          ∧ (length (cuts_to_moves cuts requests cake_len cake_width) + 4
             ≤ 6 * length cuts)%nat) as [? ?] by by split.
  apply (cuts_to_moves_ind requests (λ cuts ms,
    (2 * length cuts ≤ length ms)%nat
    ∧ (length ms + 4 ≤ 6 * length cuts)%nat)); [by simpl; lia| |done].
  intros l d c ms [IH1 IH2].
  destruct (sneak_last d.2 c.1 cake_width cake_len) as (wp & -> & Hwp).
  rewrite !length_app, length_fmap, !length_app in *. simpl in *. lia.
Qed.

End Moves.

Lemma cuts_to_moves_strokes_witness :
  let c1 : cut := ((0, of_int 50), (of_int 100, of_int 50)) in
  let c2 : cut := ((of_int 50, 0), (of_int 50, of_int 100)) in
  ∃ before after,
    (cuts_to_moves [c1; c2] [of_int 2500] (of_int 100) (of_int 100)).*2
    = before ++ [c2.1; c2.2] ++ after.
Proof.
  intros c1 c2.
  apply (cuts_to_moves_strokes (of_int 100) (of_int 100) [of_int 2500]
           [c1; c2] c2).
  right. left.
Defined.

(** ** The walk along the boundary *)

Lemma nearest_edge_x_edge (p : point) (w : num) :
  (nearest_edge_x p w).1 = 0 ∨ (nearest_edge_x p w).1 = w.
Proof. unfold nearest_edge_x. case_decide; auto. Qed.

Lemma nearest_edge_y_edge (p : point) (l : num) :
  (nearest_edge_y p l).1 = 0 ∨ (nearest_edge_y p l).1 = l.
Proof. unfold nearest_edge_y. case_decide; auto. Qed.

(** X4: [sneak] ends at the goal after at most four waypoints, and every
    waypoint lies on the boundary, one hundredth away from a corner. *)
Theorem sneak_waypoints (start_pos end_pos : point) (cake_width cake_len : num) :
  ∃ waypoints,
    sneak start_pos end_pos cake_width cake_len = waypoints ++ [end_pos]
    ∧ (length waypoints ≤ 4)%nat
    ∧ Forall (beside_corner cake_width cake_len) waypoints.
Proof.
  unfold sneak, beside_corner.
  pose proof (nearest_edge_x_edge start_pos cake_width) as Hsx.
  pose proof (nearest_edge_y_edge start_pos cake_len) as Hsy.
  pose proof (nearest_edge_x_edge end_pos cake_width) as Hex.
  pose proof (nearest_edge_y_edge end_pos cake_len) as Hey.
  destruct (nearest_edge_x start_pos cake_width) as [nearest_x x_dist].
  destruct (nearest_edge_y start_pos cake_len) as [nearest_y y_dist].
  destruct (nearest_edge_x end_pos cake_width) as [end_x end_x_dist].
  destruct (nearest_edge_y end_pos cake_len) as [end_y end_y_dist].
  cbn [fst snd] in *.
  generalize bounce. intros away.
  eexists. split; [reflexivity|].
  split; [repeat case_decide; simpl; lia|].
  repeat case_decide; cbn [app];
    repeat (apply Forall_cons; split); try apply Forall_nil; cbn [fst snd];
    destruct Hsx as [->| ->], Hsy as [->| ->], Hex as [->| ->],
      Hey as [->| ->]; auto 6.
Qed.

(** ** Numbers with two decimals *)

Lemma round_half_even_int (q : Q) (j : Z) :
  (q == inject_Z j)%Q → round_half_even q = j.
Proof.
  intros Hq. unfold round_half_even.
  assert (Hf : Qfloor q = j) by (rewrite Hq; apply Qfloor_Z).
  rewrite Hf.
  destruct (Qcompare_spec (q - inject_Z j) (1 # 2)) as [He|Hl|Hg];
    [exfalso; lra|done|exfalso; lra].
Qed.

Lemma round2_of_hundredth (k : Z) : round2 (Q2Qc (k # 100)) = Q2Qc (k # 100).
Proof.
  unfold round2. f_equal. f_equal.
  apply round_half_even_int.
  unfold Qcmult, Q2Qc. cbn [this]. rewrite !Qred_correct.
  unfold Qeq, Qmult, inject_Z. simpl. lia.
Qed.

Lemma round2_rounded (x : num) : rounded (round2 x).
Proof. unfold rounded at 1, round2 at 2. apply round2_of_hundredth. Qed.

Lemma rounded_hundredth (x : num) : rounded x ↔ ∃ k : Z, x = Q2Qc (k # 100).
Proof.
  split.
  - intros <-. by eexists.
  - intros [k ->]. apply round2_of_hundredth.
Qed.

Lemma rounded_sub (x y : num) : rounded x → rounded y → rounded (x - y).
Proof.
  intros [k ->]%rounded_hundredth [j ->]%rounded_hundredth.
  apply rounded_hundredth. exists (k - j)%Z.
  apply Qc_is_canon. unfold Qcminus, Qcplus, Qcopp, Q2Qc. cbn [this].
  rewrite !Qred_correct. unfold Qeq, Qplus, Qopp. simpl. lia.
Qed.

(** X5: on a margin with two decimals, [bounce] is one hundredth away:
    0.01 at the margin 0 and 0.01 less everywhere else, again with two
    decimals. *)
Theorem bounce_two_decimals (margin : num) :
  rounded margin →
  bounce margin = (if decide (margin = 0) then margin + dec 1 100
                   else margin - dec 1 100)
  ∧ rounded (bounce margin).
Proof.
  intros Hm. unfold bounce. case_decide as H0.
  - subst. split; [by_computation|]. apply rounded_hundredth. by exists 1%Z.
  - assert (Hr : rounded (margin - dec 1 100)).
    { apply rounded_sub; [done|]. apply rounded_hundredth. by exists 1%Z. }
    split; [exact Hr|]. apply round2_rounded.
Qed.

Lemma bounce_two_decimals_witness :
  bounce (of_int 40) = dec 3999 100 ∧ rounded (bounce (of_int 40)).
Proof.
  assert (H : rounded (of_int 40)) by by_computation.
  destruct (bounce_two_decimals (of_int 40) H) as [H1 H2].
  split; [|exact H2]. rewrite H1. by_computation.
Defined.

(** ** [combined_cuts] *)

Lemma combine_cut_rounded (c : cut) (g : genome) : rounded_cut (combine_cut c g).
Proof. repeat split; apply round2_rounded. Qed.

Lemma combined_cuts_zip (cuts : list cut) :
  ∀ cand : candidate,
  combined_cuts cuts cand
  = if decide (length cand < length cuts)%nat then Err IndexError
    else Ok (zip_with combine_cut cuts cand).
Proof.
  induction cuts as [|c cuts IH]; intros cand.
  - destruct (decide _) as [Hlt|_]; [simpl in Hlt; lia|done].
  - destruct cand as [|g cand].
    + destruct (decide _) as [_|Hge]; [done|simpl in Hge; lia].
    + cbn [combined_cuts tail]. rewrite IH.
      replace (py_index (g :: cand) 0) with (Ok g) by done.
      cbn [obind length zip_with].
      destruct (decide (length cand < length cuts)%nat),
        (decide (S (length cand) < S (length cuts))%nat); try lia; done.
Qed.

Lemma combined_cuts_shape (cuts : list cut) (cand : candidate)
    (r : list cut) :
  combined_cuts cuts cand = Ok r →
  length r = length cuts ∧ Forall rounded_cut r.
Proof.
  rewrite combined_cuts_zip. case_decide as Hlen; [done|].
  intros [= <-]. split.
  - rewrite length_zip_with. lia.
  - apply Forall_forall. intros x Hx.
    apply elem_of_lookup_zip_with in Hx as (i & c & g & -> & _ & _).
    apply combine_cut_rounded.
Qed.

(** X6: [combined_cuts] raises IndexError exactly when the candidate has
    fewer genomes than there are cuts; otherwise it returns one cut per cut
    of the base, every coordinate with two decimals, and ignores the
    genomes left over. *)
Theorem combined_cuts_spec (cuts : list cut) (cand : candidate) :
  combined_cuts cuts cand
  = (if decide (length cand < length cuts)%nat then Err IndexError
     else Ok (zip_with combine_cut cuts cand))
  ∧ ∀ r, combined_cuts cuts cand = Ok r →
         length r = length cuts ∧ Forall rounded_cut r.
Proof.
  split; [apply combined_cuts_zip|]. apply combined_cuts_shape.
Qed.

(** ** What a child is made of *)

Lemma random_ret (g : rng) : ∃ x, random g = Ret (x, advance 1 g).
Proof. unfold random, bindM, draw, retM. by eexists. Qed.

Lemma random_advance (g g' : rng) (x : num) :
  random g = Ret (x, g') → g' = advance 1 g.
Proof. unfold random, bindM, draw, retM. by intros [= _ <-]. Qed.

Lemma create_offspring_shape (cake_len cake_width : num) (c1 : candidate) :
  ∀ (cuts : list cut) (c2 : candidate) (g g' : rng) (offspring : candidate),
  create_offspring cuts c1 c2 cake_len cake_width g = Ret (offspring, g') →
  length offspring = length c1
  ∧ Forall rounded_genome offspring
  ∧ g' = advance (2 * length c1) g.
Proof.
  induction c1 as [|g1 c1 IH]; intros cuts c2 g g' off Hrun.
  - simpl in Hrun. unfold retM in Hrun. simplify_eq.
    split; [done|]. split; [done|]. symmetry. apply advance_0.
  - simpl in Hrun.
    apply bindM_ret in Hrun as (toss & ga & Hga%random_advance & Hrun).
    apply bindM_ret in Hrun as (ge & gb & Hge & Hrun).
    apply bindM_ret in Hrun as (mut & gc & Hgc%random_advance & Hrun).
    apply bindM_ret in Hrun as (gm & gd & Hgm & Hrun).
    apply bindM_ret in Hrun as (rest & gf & Hrest & Hrun).
    unfold retM in Hrun. simplify_eq.
    assert (gb = advance 1 g) as ->.
    { destruct (decide (toss < dec 1 2)).
      - unfold retM in Hge. by simplify_eq.
      - apply lift_ret in Hge as (x & Hx & ?). by simplify_eq. }
    assert (gd = advance 1 (advance 1 g)) as ->.
    { destruct (decide (mut < MUTATION_PROB)).
      - apply bindM_ret in Hgm as (c & gx & Hc & Hgm).
        unfold retM in Hgm. simplify_eq.
        apply lift_ret in Hc as (x & Hx & ?). by simplify_eq.
      - unfold retM in Hgm. by simplify_eq. }
    apply IH in Hrest as (Hlen & Hall & ->).
    split; [simpl; by rewrite Hlen|]. split.
    + apply Forall_cons. split; [|done].
      repeat split; apply round2_rounded.
    + unfold advance. simpl. f_equal. lia.
Qed.

(** X7: a child of [create_offspring] has one genome per genome of the
    first parent, every offset with two decimals, and the run reads two
    random numbers per genome. *)
Theorem create_offspring_child (cuts : list cut) (c1 c2 : candidate)
    (cake_len cake_width : num) (g g' : rng) (offspring : candidate) :
  create_offspring cuts c1 c2 cake_len cake_width g = Ret (offspring, g') →
  length offspring = length c1
  ∧ Forall rounded_genome offspring
  ∧ g' = advance (2 * length c1) g.
Proof. apply create_offspring_shape. Qed.

Lemma create_offspring_child_witness :
  let cuts := [((0, of_int 50), (dec 9995 100, 0))] in
  let parent := zero_candidate cuts in
  ∃ offspring g',
    create_offspring cuts parent parent (of_int 100) (of_int 100)
      (tape_of [0; 2 ^ 51]%N) = Ret (offspring, g')
    ∧ length offspring = 1%nat
    ∧ Forall rounded_genome offspring
    ∧ g' = advance 2 (tape_of [0; 2 ^ 51]%N).
Proof.
  intros cuts parent.
  destruct (create_offspring_ret (of_int 100) (of_int 100) parent cuts parent
              (tape_of [0; 2 ^ 51]%N)) as (offspring & g' & Hrun);
    [done|done|].
  exists offspring, g'. split; [exact Hrun|].
  exact (create_offspring_child _ _ _ _ _ _ _ _ Hrun).
Defined.

(** ** What [shake] hands back *)

Lemma shake_shape `{Shapely} (assign : assign_func)
    (requests : list num) (cake_len cake_width tolerance : num)
    (fuel : nat) (cuts refined : list cut) (pen : xnum) (g g' : rng) :
  shake assign requests cake_len cake_width tolerance fuel cuts pen g
  = Ret (refined, g') →
  length refined = length cuts ∧ Forall rounded_cut refined.
Proof.
  unfold shake. intros Hrun.
  apply bindM_ret in Hrun as (cands & g1 & _ & Hrun).
  apply bindM_ret in Hrun as (cands' & g2 & _ & Hrun).
  apply bindM_ret in Hrun as (c & g3 & _ & Hrun).
  apply lift_ret in Hrun as (r & Hr & [= <- _]).
  by apply combined_cuts_shape in Hr.
Qed.

(** X8: the refined cut list of [shake] has as many cuts as the base it
    was given, and every coordinate has two decimals. *)
Theorem shake_keeps_count `{Shapely} (assign : assign_func)
    (requests : list num) (cake_len cake_width tolerance : num)
    (fuel : nat) (cuts refined : list cut) (pen : xnum) (g g' : rng) :
  shake assign requests cake_len cake_width tolerance fuel cuts pen g
  = Ret (refined, g') →
  length refined = length cuts ∧ Forall rounded_cut refined.
Proof. apply shake_shape. Qed.

Lemma shake_keeps_count_witness :
  let cuts := [((0, of_int 50), (of_int 100, of_int 50))] in
  let requests := [of_int 5000; of_int 5000] in
  ∃ fuel refined g',
    shake (H := no_split_shapely) assign_in_order requests (of_int 100)
      (of_int 100) 0 fuel cuts (Fin (of_int 200)) (tape_of [])
    = Ret (refined, g')
    ∧ length refined = 1%nat ∧ Forall rounded_cut refined.
Proof.
  intros cuts requests.
  destruct (cuts_box (of_int 100) (of_int 100) cuts) as (K & HK & Hfits).
  destruct (shake_returns (H := no_split_shapely) assign_in_order requests
              (of_int 100) (of_int 100) 0 cuts K Hfits) with
    (pen := Fin (of_int 200)) (g := tape_of []) as (fuel & refined & g' & Hrun);
    [|done|].
  { intros cs. rewrite no_split_penalty. by eexists. }
  exists fuel, refined, g'. split; [exact Hrun|].
  exact (shake_keeps_count _ _ _ _ _ _ _ _ _ _ _ Hrun).
Defined.

(** ** The order [sort_candidates] leaves *)

Lemma insert_by_key_sorted {A} (x : num * A) (l : list (num * A)) :
  StronglySorted (λ a b, a.1 <= b.1) l →
  StronglySorted (λ a b, a.1 <= b.1) (insert_by_key x l).
Proof.
  induction 1 as [|y l Hl IH Hy]; simpl.
  - by repeat constructor.
  - case_decide as Hlt.
    + constructor; [done|].
      rewrite insert_by_key_perm. constructor; [|done].
      by apply Qclt_le_weak.
    + apply Qcnot_lt_le in Hlt.
      constructor; [by constructor|]. constructor; [done|].
      eapply Forall_impl; [exact Hy|]. intros z Hz. simpl in Hz.
      by eapply Qcle_trans.
Qed.

Lemma sort_by_key_sorted {A} (l : list (num * A)) :
  StronglySorted (λ a b, a.1 <= b.1) (sort_by_key l).
Proof.
  induction l as [|x l IH]; simpl; [constructor|].
  by apply insert_by_key_sorted.
Qed.

Lemma strongly_sorted_lookup {A} (R : A → A → Prop) (l : list A) :
  StronglySorted R l →
  ∀ i j a b, (i < j)%nat → l !! i = Some a → l !! j = Some b → R a b.
Proof.
  induction 1 as [|x l Hl IH Hx]; intros i j a b Hij Hi Hj; [done|].
  destruct j as [|j]; [lia|]. simpl in Hj.
  destruct i as [|i]; simpl in Hi.
  - simplify_eq. rewrite Forall_forall in Hx.
    apply Hx. by eapply list_elem_of_lookup_2.
  - apply (IH i j); [lia|done..].
Qed.

Section Sorting.
Context `{Shapely} (assign : assign_func).
Variables (requests : list num) (cake_len cake_width tolerance : num).
Variable cuts : list cut.

Local Abbreviation score :=
  (candidate_penalty assign requests cake_len cake_width tolerance cuts).

(** X9: when [sort_candidates] returns, the population is the same
    candidates in another order, by ascending penalty. *)
Theorem sort_candidates_ascending (candidates sorted : list candidate) :
  sort_candidates assign requests cake_len cake_width tolerance cuts
    candidates = Ok sorted →
  sorted ≡ₚ candidates
  ∧ ∀ (i j : nat) (ci cj : candidate) (pi pj : num),
      (i ≤ j)%nat → sorted !! i = Some ci → sorted !! j = Some cj →
      score ci = Ok pi → score cj = Ok pj → pi <= pj.
Proof.
  unfold sort_candidates. intros Hrun.
  destruct (omapM _ candidates) as [keyed|] eqn:Hk; [|done].
  simpl in Hrun. simplify_eq.
  apply omapM_keyed in Hk as [<- Hkeys].
  split; [by rewrite sort_by_key_perm|].
  intros i j ci cj pi pj Hij Hi Hj Hpi Hpj.
  rewrite list_lookup_fmap in Hi, Hj.
  destruct (sort_by_key keyed !! i) as [[ki ci']|] eqn:Hi'; [|done].
  destruct (sort_by_key keyed !! j) as [[kj cj']|] eqn:Hj'; [|done].
  simpl in *. simplify_eq.
  assert (Hall : Forall (λ kc, score kc.2 = Ok kc.1) (sort_by_key keyed)).
  { by rewrite sort_by_key_perm. }
  rewrite Forall_forall in Hall.
  pose proof (Hall _ (list_elem_of_lookup_2 _ _ _ Hi')) as Hsi.
  pose proof (Hall _ (list_elem_of_lookup_2 _ _ _ Hj')) as Hsj.
  simpl in *. rewrite Hpi in Hsi. rewrite Hpj in Hsj. simplify_eq.
  destruct (decide (i = j)) as [->|Hne].
  - rewrite Hi' in Hj'. simplify_eq. apply Qcle_refl.
  - apply (strongly_sorted_lookup _ _ (sort_by_key_sorted keyed) i j
             (ki, ci) (kj, cj)); [lia|done..].
Qed.

End Sorting.

Lemma sort_candidates_ascending_witness :
  let cuts := [((0, of_int 50), (of_int 100, of_int 50))] in
  let requests := [of_int 5000; of_int 5000] in
  let far := [((0, of_int 1), (0, 0))] in
  let near := [((0, 0), (0, 0))] in
  sort_candidates (H := no_split_shapely) assign_in_order requests
    (of_int 100) (of_int 100) 0 cuts [far; near] = Ok [far; near]
  ∧ [far; near] ≡ₚ [far; near]
  ∧ ∀ (i j : nat) (ci cj : candidate) (pi pj : num),
      (i ≤ j)%nat → [far; near] !! i = Some ci → [far; near] !! j = Some cj →
      candidate_penalty (H := no_split_shapely) assign_in_order requests
        (of_int 100) (of_int 100) 0 cuts ci = Ok pi →
      candidate_penalty (H := no_split_shapely) assign_in_order requests
        (of_int 100) (of_int 100) 0 cuts cj = Ok pj →
      pi <= pj.
Proof.
  intros cuts requests far near.
  assert (Hrun : sort_candidates (H := no_split_shapely) assign_in_order
                   requests (of_int 100) (of_int 100) 0 cuts [far; near]
                 = Ok [far; near]) by by_computation.
  split; [exact Hrun|].
  exact (sort_candidates_ascending (H := no_split_shapely) assign_in_order
           requests (of_int 100) (of_int 100) 0 cuts _ _ Hrun).
Defined.

(** ** One mutation *)

(** X10: a mutation changes at most one of the four offsets of a genome,
    by [MUTATION_DIST] up or down.  An endpoint on the left or right edge
    keeps its x offset, and the x offset of the first endpoint moves only
    when that endpoint is on the top or bottom edge. *)
Theorem mutate_one_offset (c : cut) (g : genome)
    (mut cake_len cake_width : num) :
  let g' := mutate c g mut cake_len cake_width in
  (g' = g
   ∨ ∃ d, (d = MUTATION_DIST ∨ d = - MUTATION_DIST)
          ∧ (g' = ((g.1.1 + d, g.1.2), g.2)
             ∨ g' = ((g.1.1, g.1.2 + d), g.2)
             ∨ g' = (g.1, (g.2.1 + d, g.2.2))
             ∨ g' = (g.1, (g.2.1, g.2.2 + d))))
  ∧ (c.1.1 = 0 ∨ c.1.1 = cake_width → g'.1.1 = g.1.1)
  ∧ (c.2.1 = 0 ∨ c.2.1 = cake_width → g'.2.1 = g.2.1)
  ∧ (g'.1.1 ≠ g.1.1 → c.1.2 = 0 ∨ c.1.2 = cake_len)
  ∧ (g'.2.1 ≠ g.2.1 → c.2.2 = 0 ∨ c.2.2 = cake_len).
Proof.
  destruct c as [[lx ly] [rx ry]], g as [[g00 g01] [g10 g11]].
  unfold mutate. cbn [fst snd].
  repeat case_decide; cbn [fst snd];
    (split; [|by repeat split; intros; try done; try tauto]).
  all: try (by left).
  all: right.
  all: first [ (exists MUTATION_DIST; split; [by left|]; tauto)
             | (exists (- MUTATION_DIST); split; [by right|]; tauto) ].
Qed.

(** ** Cuts that miss, and cuts in sequence *)

Section Pieces.
Context `{Shapely}.

Lemma divide_polygon_miss (poly : polygon) (c : cut) :
  intersects c (convex_hull poly) = Ok false →
  divide_polygon poly c.1 c.2 = Ok [convex_hull poly].
Proof.
  intros Hmiss. unfold divide_polygon. destruct c as [p q]. simpl.
  by rewrite Hmiss.
Qed.

(** X11: a cut whose line meets none of the pieces leaves every piece in
    place, as its convex hull: the number of pieces and their order do not
    change. *)
Theorem cut_polygons_miss (polygons : list polygon) (c : cut) :
  (∀ poly, poly ∈ polygons → intersects c (convex_hull poly) = Ok false) →
  cut_polygons polygons c = Ok (convex_hull <$> polygons).
Proof.
  intros Hmiss. unfold cut_polygons.
  assert (omapM (λ poly, divide_polygon poly c.1 c.2) polygons
          = Ok ((λ poly, [convex_hull poly]) <$> polygons)) as ->.
  { induction polygons as [|poly polygons IH]; [done|].
    simpl. rewrite divide_polygon_miss by (apply Hmiss; left).
    simpl. rewrite IH; [done|]. intros p Hp. apply Hmiss. by right. }
  simpl. f_equal. induction polygons as [|poly polygons IH]; [done|].
  simpl. f_equal. apply IH. intros p Hp. apply Hmiss. by right.
Qed.

Lemma apply_cuts_app (cuts1 cuts2 : list cut) :
  ∀ polygons,
  apply_cuts (cuts1 ++ cuts2) polygons
  = obind (apply_cuts cuts1 polygons) (apply_cuts cuts2).
Proof.
  induction cuts1 as [|c cuts1 IH]; intros polygons; [done|].
  simpl. destruct (cut_polygons polygons c) as [new|e]; [|done].
  simpl. apply IH.
Qed.

(** X12: cutting with one list of cuts and then another is cutting with
    the two lists in a row: the pieces of the first list are what the
    second list cuts, and an exception of the first list is the exception
    of the whole. *)
Theorem cuts_to_polygons_app (cuts1 cuts2 : list cut)
    (cake_len cake_width : num) :
  cuts_to_polygons (cuts1 ++ cuts2) cake_len cake_width
  = obind (cuts_to_polygons cuts1 cake_len cake_width) (apply_cuts cuts2).
Proof. apply apply_cuts_app. Qed.

(** ** A floor under the penalty *)

Lemma penalty_of_request_floor (requests : list num)
    (polygons : list polygon) (tolerance : num) (idx : nat) (a : Z)
    (p : num) :
  0 <= tolerance →
  penalty_of_request requests polygons tolerance idx a = Ok p →
  0 <= p ∧ (a = (-1)%Z → p = of_int 100).
Proof.
  intros Htol. unfold penalty_of_request.
  destruct (decide (a = (-1)%Z)) as [Ha|Ha].
  { intros [= <-]. split; [by_computation|done]. }
  intros Hp. split; [|done].
  destruct (py_index polygons a) as [piece|]; [|done]. simpl in Hp.
  destruct (can_cake_fit_in_plate piece plate_radius) as [fits|]; [|done].
  simpl in Hp. destruct fits; simpl in Hp.
  - destruct (py_index requests (Z.of_nat idx)) as [request|]; [|done].
    simpl in Hp.
    destruct (py_div _ request) as [pct|]; [|done]. simpl in Hp.
    destruct (decide (tolerance < pct)) as [Hlt|Hge]; simplify_eq.
    + apply Qclt_le_weak. by eapply Qcle_lt_trans.
    + apply Qcle_refl.
  - simplify_eq. by_computation.
Qed.

Lemma of_int_succ (n : nat) :
  of_int (100 * Z.of_nat (S n)) = of_int (100 * Z.of_nat n) + of_int 100.
Proof.
  apply Qc_is_canon. unfold of_int, Qcplus, Q2Qc. cbn [this].
  rewrite !Qred_correct. rewrite <- inject_Z_plus. f_equiv. lia.
Qed.

Lemma calculate_penalty_loop_floor (requests : list num)
    (polygons : list polygon) (tolerance : num) (assignments : list Z) :
  0 <= tolerance →
  ∀ (idx : nat) (acc p : num),
  calculate_penalty_loop requests polygons tolerance idx assignments acc
  = Ok p →
  acc + of_int (100 * Z.of_nat (unassigned assignments)) <= p.
Proof.
  intros Htol. induction assignments as [|a rest IH]; intros idx acc p Hp.
  - simpl in Hp. simplify_eq. unfold unassigned. simpl.
    replace (of_int (100 * Z.of_nat 0)) with 0 by by_computation.
    rewrite Qcplus_0_r. apply Qcle_refl.
  - simpl in Hp.
    destruct (penalty_of_request requests polygons tolerance idx a)
      as [t|] eqn:Ht; [|done].
    simpl in Hp. apply IH in Hp.
    apply penalty_of_request_floor in Ht as [Ht0 Ht100]; [|done].
    eapply Qcle_trans; [|exact Hp].
    unfold unassigned. rewrite filter_cons.
    destruct (decide (a = (-1)%Z)) as [Ha|Ha].
    + rewrite (Ht100 Ha). simpl length. rewrite of_int_succ.
      rewrite <- Qcplus_assoc.
      rewrite (Qcplus_comm (of_int 100)). apply Qcle_refl.
    + rewrite <- (Qcplus_0_r (acc + of_int _)).
      rewrite <- !Qcplus_assoc. apply Qcplus_le_compat; [apply Qcle_refl|].
      rewrite Qcplus_comm. apply Qcplus_le_compat; [done|apply Qcle_refl].
Qed.

(** X13: with a tolerance that is not negative the penalty is never
    negative, and it is at least 100 for every request the matching leaves
    unassigned. *)
Theorem calculate_penalty_floor (assign : assign_func) (requests : list num)
    (polygons : list polygon) (tolerance : num) (assignments : list Z)
    (p : num) :
  0 <= tolerance →
  assign polygons requests tolerance = Ok assignments →
  __calculate_penalty assign requests polygons tolerance = Ok p →
  0 <= p ∧ of_int (100 * Z.of_nat (unassigned assignments)) <= p.
Proof.
  intros Htol Ha. unfold __calculate_penalty. rewrite Ha. simpl.
  intros Hp%calculate_penalty_loop_floor; [|done].
  rewrite Qcplus_0_l in Hp. split; [|done].
  eapply Qcle_trans; [|exact Hp].
  clear. qc_to_q. rewrite <- (Zle_Qle 0). lia.
Qed.

End Pieces.

Lemma cut_polygons_miss_witness :
  let cake := [(0, 0); (0, of_int 10); (of_int 10, of_int 10); (of_int 10, 0)] in
  cut_polygons (H := no_split_shapely) [cake]
    ((0, of_int 5), (of_int 10, of_int 5))
  = Ok [cake].
Proof.
  intros cake.
  apply (cut_polygons_miss (H := no_split_shapely) [cake]
           ((0, of_int 5), (of_int 10, of_int 5))).
  done.
Defined.

Lemma calculate_penalty_floor_witness :
  let polygons :=
    [[(0, 0); (0, of_int 10); (of_int 10, of_int 10); (of_int 10, 0)];
     [(0, 0); (0, of_int 40); (of_int 40, of_int 40); (of_int 40, 0)]] in
  let requests := [of_int 80; of_int 1600; of_int 5] in
  0 <= of_int 225
  ∧ of_int (100 * Z.of_nat (unassigned [0; 1; -1]%Z)) <= of_int 225.
Proof.
  intros polygons requests.
  apply (calculate_penalty_floor (H := no_split_shapely) assign_in_order
           requests polygons (of_int 10) [0; 1; -1]%Z (of_int 225));
    by_computation.
Defined.

(** ** Where the sampled cuts end *)

Lemma sample_grid_edges (cake_len cake_width : num) (jumps : Z) (gr : grid) :
  sample_grid cake_len cake_width jumps = Ok gr →
  (∀ p, p ∈ points gr ↔ p ∈ LEFT gr ∨ p ∈ RIGHT gr ∨ p ∈ UP gr ∨ p ∈ DOWN gr)
  ∧ (∀ p, p ∈ LEFT gr → p.1 = 0)
  ∧ (∀ p, p ∈ RIGHT gr → p.1 = cake_width)
  ∧ (∀ p, p ∈ UP gr → p.2 = 0)
  ∧ (∀ p, p ∈ DOWN gr → p.2 = cake_len).
Proof.
  unfold sample_grid.
  destruct (edge_coords cake_len jumps) as [ys|]; [|done].
  destruct (edge_coords cake_width jumps) as [xs|]; [|done].
  simpl. intros [= <-]. cbn [points LEFT RIGHT UP DOWN].
  split_and!.
  - intros p. rewrite elem_of_remove_dups, !elem_of_app. tauto.
  - by intros p (y & -> & _)%list_elem_of_fmap.
  - by intros p (y & -> & _)%list_elem_of_fmap.
  - by intros p (y & -> & _)%list_elem_of_fmap.
  - by intros p (y & -> & _)%list_elem_of_fmap.
Qed.

Lemma first_edge_holds (gr : grid) (p : point) :
  p ∈ LEFT gr ∨ p ∈ RIGHT gr ∨ p ∈ UP gr ∨ p ∈ DOWN gr →
  p ∈ first_edge gr p.
Proof. unfold first_edge. repeat case_decide; tauto. Qed.

(** X14: every cut [generate_cuts] returns has both ends on the boundary
    of the cake, and the two ends are different points. *)
Theorem generate_cuts_ends (fuel : nat) (cuts : Z)
    (cake_len cake_width : num) (jumps : Z) (g g' : rng)
    (selected : list cut) (c : cut) :
  generate_cuts fuel cuts cake_len cake_width jumps g = Ret (selected, g') →
  c ∈ selected →
  on_boundary cake_width cake_len c.1 ∧ on_boundary cake_width cake_len c.2
  ∧ c.1 ≠ c.2.
Proof.
  intros Hrun Hc.
  destruct (sample_grid cake_len cake_width jumps) as [gr|e] eqn:Hgr.
  - destruct (generate_cuts_off_first_edge _ _ _ _ _ _ _ _ _ _ Hgr Hrun Hc)
      as (H1 & H2 & Hoff).
    destruct (sample_grid_edges _ _ _ _ Hgr) as (Hpts & HL & HR & HU & HD).
    unfold on_boundary. split_and!.
    + apply Hpts in H1 as [?%HL|[?%HR|[?%HU|?%HD]]]; tauto.
    + apply Hpts in H2 as [?%HL|[?%HR|[?%HU|?%HD]]]; tauto.
    + intros Heq. apply Hoff. rewrite <- Heq.
      by apply first_edge_holds, Hpts.
  - unfold generate_cuts, bindM, lift in Hrun. by rewrite Hgr in Hrun.
Qed.

Lemma generate_cuts_ends_witness :
  let c := ((0, 0), (of_int 50, 0)) in
  on_boundary (of_int 100) (of_int 100) c.1
  ∧ on_boundary (of_int 100) (of_int 100) c.2
  ∧ c.1 ≠ c.2.
Proof.
  intros c.
  assert (Hres : result (generate_cuts 2 1 (of_int 100) (of_int 100) 3
                           (tape_of [2; 1]%N)) = Ret [c]) by by_computation.
  destruct (generate_cuts 2 1 (of_int 100) (of_int 100) 3 (tape_of [2; 1]%N))
    as [[selected g']| |] eqn:Hrun; [|done..].
  injection Hres as ->.
  apply (generate_cuts_ends _ _ _ _ _ _ _ _ _ Hrun). by left.
Defined.

(** ** [generate_cuts] on counts at the edge of its domain *)

(** X15: with [jumps = 1] the gap between sample points is 0 and
    [generate_cuts] raises ZeroDivisionError, whatever the other arguments
    are. *)
Theorem generate_cuts_one_jump (fuel : nat) (cuts : Z)
    (cake_len cake_width : num) (g : rng) :
  generate_cuts fuel cuts cake_len cake_width 1 g = Raise ZeroDivisionError.
Proof. reflexivity. Qed.

Lemma edge_coords_none (extent : num) (jumps : Z) :
  (jumps ≤ 0)%Z → edge_coords extent jumps = Ok [].
Proof.
  intros Hj. unfold edge_coords.
  replace (seqZ 0 jumps) with (@nil Z); [done|].
  unfold seqZ. by replace (Z.to_nat jumps) with 0%nat by lia.
Qed.

(** X16: with no sample point ([jumps ≤ 0]) a request for at least one
    cut raises ValueError at the first turn of the loop: there is nothing
    to sample from. *)
Theorem generate_cuts_no_points (fuel : nat) (cuts : Z)
    (cake_len cake_width : num) (jumps : Z) (g : rng) :
  (jumps ≤ 0)%Z → (0 < cuts)%Z →
  generate_cuts (S fuel) cuts cake_len cake_width jumps g = Raise ValueError.
Proof.
  intros Hj Hc. unfold generate_cuts, sample_grid.
  rewrite !edge_coords_none by done. simpl.
  unfold bindM, lift. simpl.
  by rewrite decide_True by (simpl; lia).
Qed.

Lemma generate_cuts_no_points_witness :
  generate_cuts 1 1 (of_int 100) (of_int 100) 0 (tape_of [])
  = Raise ValueError.
Proof. apply generate_cuts_no_points; lia. Defined.

(** X17: asked for no cut ([cuts ≤ 0]) on a grid it can build
    ([jumps ≠ 1]), [generate_cuts] returns the empty list and reads no
    random number. *)
Theorem generate_cuts_no_cuts (fuel : nat) (cuts : Z)
    (cake_len cake_width : num) (jumps : Z) (g : rng) :
  (cuts ≤ 0)%Z → jumps ≠ 1%Z →
  generate_cuts (S fuel) cuts cake_len cake_width jumps g = Ret ([], g).
Proof.
  intros Hc Hj. unfold generate_cuts, sample_grid.
  destruct (edge_coords_ret cake_len jumps Hj) as (ys & -> & _).
  destruct (edge_coords_ret cake_width jumps Hj) as (xs & -> & _).
  simpl. unfold bindM, lift. simpl.
  by rewrite decide_False by (simpl; lia).
Qed.

Lemma generate_cuts_no_cuts_witness :
  generate_cuts 1 0 (of_int 100) (of_int 100) 6 (tape_of [])
  = Ret ([], tape_of []).
Proof. apply generate_cuts_no_cuts; lia. Defined.

(** ** The search and the spam pass *)

Lemma generate_cuts_length (fuel : nat) (cuts : Z) (cake_len cake_width : num)
    (jumps : Z) (g g' : rng) (selected : list cut) :
  generate_cuts fuel cuts cake_len cake_width jumps g = Ret (selected, g') →
  length selected = Z.to_nat cuts.
Proof.
  intros Hrun. unfold generate_cuts, bindM, lift in Hrun.
  destruct (sample_grid cake_len cake_width jumps) as [gr|]; [|done].
  apply generate_cuts_loop_result in Hrun as [_ Hlen]; [done| |simpl; lia].
  split; [apply NoDup_nil_2|]. by intros ? ?%not_elem_of_nil.
Qed.

Lemma xlt_trans (p q : num) (m : xnum) :
  p < q → xlt (Fin q) m → xlt (Fin p) m.
Proof. destruct m; simpl; [|done]. apply Qclt_trans. Qed.

Section SearchMore.
Context `{Shapely} (assign : assign_func).
Variables (requests : list num) (cake_len cake_width tolerance : num).

Local Abbreviation pen :=
  (penalty_of assign requests cake_len cake_width tolerance).

(** X18: the 200 trials of the search keep the contender of the last
    trial with its penalty, whatever the penalties before were:
    [curr_best_cuts] stays empty, so every contender replaces the one
    before. *)
Theorem search_trials_keeps_last (n fuel : nat) (cuts : Z)
    (best_contender : option (list cut)) (best_curr_penalty : xnum)
    (g g' : rng) (r : option (list cut) * xnum) :
  search_trials assign requests cake_len cake_width tolerance (S n) fuel
    cuts best_contender best_curr_penalty g = Ret (r, g') →
  ∃ g1 contender p,
    generate_cuts fuel cuts cake_len cake_width 6 g1 = Ret (contender, g')
    ∧ pen contender = Ok p
    ∧ r = (Some contender, Fin p).
Proof.
  revert best_contender best_curr_penalty g.
  induction n as [|n IH]; intros bc bp g Hrun.
  - cbn [search_trials] in Hrun.
    apply bindM_ret in Hrun as (c & g1 & Hgen & Hrun).
    apply bindM_ret in Hrun as (p & g2 & Hp & Hrun).
    apply lift_ret in Hp as (p' & Hp & [= <- <-]).
    rewrite decide_True in Hrun by by left.
    unfold retM in Hrun. simplify_eq. by exists g, c, p.
  - change (search_trials assign requests cake_len cake_width tolerance
              (S (S n)) fuel cuts bc bp g)
      with ((cuts_contender ← generate_cuts fuel cuts cake_len cake_width 6;
             curr_penalty ← lift (pen cuts_contender);
             if decide (@nil cut = [] ∨ xlt (Fin curr_penalty) bp) then
               search_trials assign requests cake_len cake_width tolerance
                 (S n) fuel cuts (Some cuts_contender) (Fin curr_penalty)
             else
               search_trials assign requests cake_len cake_width tolerance
                 (S n) fuel cuts bc bp) g) in Hrun.
    apply bindM_ret in Hrun as (c & g1 & Hgen & Hrun).
    apply bindM_ret in Hrun as (p & g2 & Hp & Hrun).
    case_decide; by apply IH in Hrun.
Qed.

Lemma spam_result (n fuel : nat) (cuts : Z) (best_cuts : list cut)
    (min_penalty : xnum) (g g' : rng) (r : list cut * xnum) :
  spam assign requests cake_len cake_width tolerance n fuel cuts best_cuts
    min_penalty g = Ret (r, g') →
  r = (best_cuts, min_penalty)
  ∨ ∃ p, r.2 = Fin p ∧ pen r.1 = Ok p ∧ xlt (Fin p) min_penalty
         ∧ length r.1 = Z.to_nat cuts.
Proof.
  revert best_cuts min_penalty g.
  induction n as [|n IH]; intros bc mp g Hrun.
  - unfold spam, retM in Hrun. simplify_eq. by left.
  - cbn [spam] in Hrun.
    apply bindM_ret in Hrun as (c & g1 & Hgen & Hrun).
    apply bindM_ret in Hrun as (p & g2 & Hp & Hrun).
    apply lift_ret in Hp as (p' & Hp & [= <- <-]).
    apply generate_cuts_length in Hgen.
    destruct (decide (xlt (Fin p) mp)) as [Hlt|Hge].
    + apply IH in Hrun as [->|(q & Hq & Hpq & Hlt' & Hlen)].
      * right. by exists p.
      * right. exists q. split_and!; try done.
        simpl in Hlt'. by eapply xlt_trans.
    + by apply IH in Hrun.
Qed.

(** X19: the spam pass hands back the cuts and the penalty it was given,
    or a contender with a strictly lower penalty, which is that
    contender's own penalty; such a contender has as many cuts as the
    count the pass was called with. *)
Theorem spam_improves (n fuel : nat) (cuts : Z) (best_cuts : list cut)
    (min_penalty : xnum) (g g' : rng) (r : list cut * xnum) :
  spam assign requests cake_len cake_width tolerance n fuel cuts best_cuts
    min_penalty g = Ret (r, g') →
  r = (best_cuts, min_penalty)
  ∨ ∃ p, r.2 = Fin p ∧ pen r.1 = Ok p ∧ xlt (Fin p) min_penalty
         ∧ length r.1 = Z.to_nat cuts.
Proof. apply spam_result. Qed.

(** X20: the cut list [best_combo] returns has the length of the best
    cut list of the search, or as many cuts as the count the spam pass
    was called with; its coordinates have two decimals. *)
Theorem best_combo_count (fuel : nat) (g g' : rng) (cuts : list cut) :
  best_combo assign requests cake_len cake_width tolerance fuel g
  = Ret (cuts, g') →
  ∃ st g1 k,
    search assign requests cake_len cake_width tolerance fuel g
    = Ret (st, g1)
    ∧ spam_cut_count st = Ok k
    ∧ (length cuts = length (best_cuts st) ∨ length cuts = Z.to_nat k)
    ∧ Forall rounded_cut cuts.
Proof.
  unfold best_combo. intros Hrun.
  apply bindM_ret in Hrun as (st & g1 & Hsearch & Hrun).
  apply bindM_ret in Hrun as (k & g2 & Hk & Hrun).
  apply lift_ret in Hk as (k' & Hk & [= <- <-]).
  apply bindM_ret in Hrun as (r & g3 & Hspam & Hrun).
  apply shake_shape in Hrun as [Hlen Hround].
  do 3 eexists. split; [exact Hsearch|]. split; [exact Hk|].
  split; [|done]. rewrite Hlen.
  apply spam_result in Hspam as [->|(p & _ & _ & _ & Hl)]; [by left|by right].
Qed.

End SearchMore.

Lemma returns_ret {A} (o : outcome A) : returns o = true → ∃ a, o = Ret a.
Proof. destruct o; [by eexists|done..]. Qed.

Lemma search_trials_keeps_last_witness :
  ∃ r g' g1 contender p,
    search_trials (H := no_split_shapely) leave_unassigned
      [of_int 10; of_int 10] (of_int 100) (of_int 100) 0 2 5 1 None Inf
      (tape_of []) = Ret (r, g')
    ∧ generate_cuts 5 1 (of_int 100) (of_int 100) 6 g1 = Ret (contender, g')
    ∧ penalty_of (H := no_split_shapely) leave_unassigned
        [of_int 10; of_int 10] (of_int 100) (of_int 100) 0 contender = Ok p
    ∧ r = (Some contender, Fin p).
Proof.
  assert (Hret : returns
            (search_trials (H := no_split_shapely) leave_unassigned
               [of_int 10; of_int 10] (of_int 100) (of_int 100) 0 2 5 1 None
               Inf (tape_of [])) = true) by (vm_compute; reflexivity).
  destruct (returns_ret _ Hret) as [[r g'] Hrun].
  destruct (search_trials_keeps_last (H := no_split_shapely)
              leave_unassigned _ _ _ _ _ _ _ _ _ _ _ _ Hrun)
    as (g1 & contender & p & H1 & H2 & H3).
  exists r, g', g1, contender, p.
  split; [exact Hrun|]. split; [exact H1|]. split; [exact H2|exact H3].
Defined.

Lemma spam_improves_witness :
  ∃ r g',
    spam (H := no_split_shapely) assign_in_order [of_int 5000; of_int 5000]
      (of_int 100) (of_int 100) 0 3 10 1 [] Inf (tape_of []) = Ret (r, g')
    ∧ (r = ([], Inf)
       ∨ ∃ p, r.2 = Fin p
              ∧ penalty_of (H := no_split_shapely) assign_in_order
                  [of_int 5000; of_int 5000] (of_int 100) (of_int 100) 0 r.1
                = Ok p
              ∧ xlt (Fin p) Inf ∧ length r.1 = Z.to_nat 1).
Proof.
  assert (Hret : returns
            (spam (H := no_split_shapely) assign_in_order
               [of_int 5000; of_int 5000] (of_int 100) (of_int 100) 0 3 10 1
               [] Inf (tape_of [])) = true) by (vm_compute; reflexivity).
  destruct (returns_ret _ Hret) as [[r g'] Hrun].
  exists r, g'. split; [exact Hrun|].
  exact (spam_improves (H := no_split_shapely) assign_in_order _ _ _ _ _ _ _
           _ _ _ _ _ Hrun).
Defined.

Lemma best_combo_count_witness :
  ∃ cuts g' st g1 k,
    best_combo (H := no_split_shapely) assign_in_order [of_int 10000]
      (of_int 100) (of_int 100) 0 50 (tape_of []) = Ret (cuts, g')
    ∧ search (H := no_split_shapely) assign_in_order [of_int 10000]
        (of_int 100) (of_int 100) 0 50 (tape_of []) = Ret (st, g1)
    ∧ spam_cut_count st = Ok k
    ∧ (length cuts = length (best_cuts st) ∨ length cuts = Z.to_nat k)
    ∧ Forall rounded_cut cuts.
Proof.
  assert (Hret : returns
            (best_combo (H := no_split_shapely) assign_in_order
               [of_int 10000] (of_int 100) (of_int 100) 0 50 (tape_of []))
            = true) by (vm_compute; reflexivity).
  destruct (returns_ret _ Hret) as [[cuts g'] Hrun].
  destruct (best_combo_count (H := no_split_shapely) assign_in_order _ _ _ _
              _ _ _ _ Hrun) as (st & g1 & k & H1 & H2 & H3 & H4).
  exists cuts, g', st, g1, k.
  split; [exact Hrun|]. split; [exact H1|]. split; [exact H2|].
  split; [exact H3|exact H4].
Defined.

(** ** The counts the search goes through *)

Section SearchRange.
Context `{Shapely} (assign : assign_func).
Variables (requests : list num) (cake_len cake_width tolerance : num).

Lemma search_loop_range (fuel : nat) (range : list Z) :
  ∀ (st st' : search_state) (g g' : rng),
  search_loop assign requests cake_len cake_width tolerance fuel range st g
  = Ret (st', g') →
  (best_cut_no st' = best_cut_no st ∨ best_cut_no st' ∈ range)
  ∧ (loop_cuts st' = loop_cuts st
     ∨ ∃ k, loop_cuts st' = Some k ∧ k ∈ range).
Proof.
  induction range as [|cuts range IH]; intros st st' g g' Hrun.
  - unfold search_loop, retM in Hrun. simplify_eq. by split; left.
  - cbn [search_loop best_cut_no] in Hrun.
    destruct (decide (best_cut_no st + 5 < cuts)%Z).
    + unfold retM in Hrun. simplify_eq. simpl. split; [by left|].
      right. exists cuts. split; [done|by left].
    + apply bindM_ret in Hrun as (r & g1 & _ & Hrun).
      destruct (decide _) in Hrun; apply IH in Hrun as [Hb Hl];
        cbn [best_cut_no loop_cuts] in *.
      * split.
        -- right. destruct Hb as [->|?]; [by left|by right].
        -- right. destruct Hl as [->|(k & -> & ?)];
             [exists cuts; split; [done|by left]
             |exists k; split; [done|by right]].
      * split.
        -- destruct Hb as [->|?]; [by left|right; by right].
        -- right. destruct Hl as [Hl|(k & -> & ?)];
             [exists cuts; split; [done|by left]
             |exists k; split; [done|by right]].
Qed.

(** X21: when the search returns, its best count lies between the least
    and the greatest count of [get_cuts_spread], and the loop variable it
    leaves behind, which the spam pass reads, is not below the best count
    and not above the greatest: it is the greatest count, or the best
    count plus 6 when the search broke off. *)
Theorem search_counts (fuel : nat) (st : search_state) (g g' : rng) :
  search assign requests cake_len cake_width tolerance fuel g = Ret (st, g') →
  let min_cuts := (get_cuts_spread requests).1 in
  let max_cuts := (get_cuts_spread requests).2 in
  ∃ k, spam_cut_count st = Ok k
       ∧ (min_cuts ≤ best_cut_no st ≤ k)%Z ∧ (k ≤ max_cuts)%Z
       ∧ (k = max_cuts ∨ k = best_cut_no st + 6)%Z.
Proof.
  intros Hrun.
  destruct (search_leaves_last_count assign requests cake_len cake_width
              tolerance fuel st g g' Hrun) as (k & Hk & Hle & Hor).
  unfold search in Hrun.
  assert (Hlt : ((get_cuts_spread requests).1
                 < (get_cuts_spread requests).2)%Z)
    by (unfold get_cuts_spread; simpl; lia).
  destruct (get_cuts_spread requests) as [min_cuts max_cuts]. simpl in *.
  apply search_loop_range in Hrun as [Hb Hl]. simpl in *.
  exists k. split; [done|].
  unfold spam_cut_count in Hk.
  destruct (loop_cuts st) as [k'|] eqn:Hk'; [|done]. simplify_eq.
  destruct Hl as [?|(k' & ? & Hin%elem_of_seqZ)]; [done|]. simplify_eq.
  split_and!; try done; try lia.
  destruct Hb as [->|Hin'%elem_of_seqZ]; lia.
Qed.

End SearchRange.

Lemma search_counts_witness :
  let requests := [of_int 10; of_int 10; of_int 10; of_int 10] in
  ∃ st g' k,
    search (H := no_split_shapely) leave_unassigned requests (of_int 100)
      (of_int 100) 0 50 (tape_of []) = Ret (st, g')
    ∧ spam_cut_count st = Ok k
    ∧ ((get_cuts_spread requests).1 ≤ best_cut_no st ≤ k)%Z
    ∧ (k ≤ (get_cuts_spread requests).2)%Z
    ∧ (k = (get_cuts_spread requests).2 ∨ k = best_cut_no st + 6)%Z.
Proof.
  intros requests.
  assert (Hret : returns
            (search (H := no_split_shapely) leave_unassigned requests
               (of_int 100) (of_int 100) 0 50 (tape_of [])) = true)
    by (vm_compute; reflexivity).
  destruct (returns_ret _ Hret) as [[st g'] Hrun].
  destruct (search_counts (H := no_split_shapely) leave_unassigned _ _ _ _ _
              _ _ _ Hrun) as (k & H1 & H2 & H3 & H4).
  exists st, g', k.
  split; [exact Hrun|]. split; [exact H1|]. split; [exact H2|].
  split; [exact H3|exact H4].
Defined.

(** ** The first endpoint under mutation *)

Lemma rounded_add (x y : num) : rounded x → rounded y → rounded (x + y).
Proof.
  intros Hx Hy. replace (x + y) with (x - (0 - y)) by ring.
  apply rounded_sub; [done|]. apply rounded_sub; [by_computation|done].
Qed.

(** A mutation of the first endpoint moves one of its two offsets, by
    [MUTATION_DIST] up or down, or none. *)
Lemma mutate_one_offset_first (c : cut) (g : genome)
    (mut cake_len cake_width : num) :
  mut < MUTATION_PROB / dec 2 1 →
  let g' := mutate c g mut cake_len cake_width in
  g'.1 = g.1
  ∨ (g'.1.1 = g.1.1
     ∧ (g'.1.2 = g.1.2 + MUTATION_DIST ∨ g'.1.2 = g.1.2 - MUTATION_DIST))
  ∨ (g'.1.2 = g.1.2
     ∧ (g'.1.1 = g.1.1 + MUTATION_DIST ∨ g'.1.1 = g.1.1 - MUTATION_DIST)).
Proof.
  destruct c as [[lx ly] [rx ry]], g as [[g00 g01] [g10 g11]].
  intros Hmut. unfold mutate. rewrite decide_True by done.
  repeat case_decide; cbn [fst snd]; auto.
Qed.

(** X22: for a cut, offsets and cake extents with two decimals, and a
    first endpoint that its offsets leave in the cake: when the draw
    selects the first endpoint, the genome the offspring gets, rounded as
    [create_offspring] rounds it, keeps the offsets of the second
    endpoint and changes at most one offset of the first, and the first
    endpoint that [combined_cuts] makes of it is in the cake, from 0 to
    the extent on both axes.  The bounds are included: the program's
    guards compare float sums, and a sum equal to the extent can pass
    as less. *)
Theorem mutate_first_endpoint_stays (c : cut) (g : genome)
    (mut cake_len cake_width : num) :
  rounded_cut c → rounded_genome g →
  rounded cake_len → rounded cake_width →
  mut < MUTATION_PROB / dec 2 1 →
  0 <= c.1.1 + g.1.1 ∧ c.1.1 + g.1.1 <= cake_width →
  0 <= c.1.2 + g.1.2 ∧ c.1.2 + g.1.2 <= cake_len →
  let g' := round_genome (mutate c g mut cake_len cake_width) in
  let p := (combine_cut c g').1 in
  g'.2 = g.2
  ∧ (g'.1.1 = g.1.1 ∨ g'.1.2 = g.1.2)
  ∧ (0 <= p.1 ∧ p.1 <= cake_width)
  ∧ (0 <= p.2 ∧ p.2 <= cake_len).
Proof.
  intros (Hc1 & Hc2 & _ & _) (Hg1 & Hg2 & Hg3 & Hg4) _ _ Hmut Hx Hy.
  pose proof (mutate_first_endpoint_inside c g mut cake_len cake_width Hmut
                Hx Hy) as Hin.
  pose proof (mutate_one_offset_first c g mut cake_len cake_width Hmut)
    as Hone.
  cbv zeta in *.
  destruct (mutate c g mut cake_len cake_width) as [[m00 m01] [m10 m11]].
  destruct c as [[lx ly] [rx ry]], g as [[g00 g01] [g10 g11]].
  unfold combine_cut, round_genome. cbn [fst snd] in *.
  destruct Hin as [Hsnd Hin]. injection Hsnd as -> ->.
  assert (Htenth : rounded MUTATION_DIST) by by_computation.
  assert (Hm : rounded m00 ∧ rounded m01).
  { destruct Hone as [[= -> ->]|[[-> [-> | ->]]|[-> [-> | ->]]]];
      split; try done; first [by apply rounded_add|by apply rounded_sub]. }
  destruct Hm as [Hm0 Hm1].
  rewrite Hm0, Hm1, Hg3, Hg4.
  rewrite (rounded_add lx m00 Hc1 Hm0), (rounded_add ly m01 Hc2 Hm1).
  split; [done|].
  destruct Hin as [[= -> ->]|[(-> & H1 & H2)|(-> & H1 & H2)]].
  - split; [by left|]. done.
  - split; [by left|]. split; [done|]. split; by apply Qclt_le_weak.
  - split; [by right|]. split; [|done]. split; by apply Qclt_le_weak.
Qed.

Lemma mutate_first_endpoint_stays_witness :
  let c : cut := ((0, of_int 50), (of_int 100, of_int 50)) in
  let g : genome := ((0, 0), (0, 0)) in
  let g' := round_genome (mutate c g (dec 5 100) (of_int 100) (of_int 100)) in
  let p := (combine_cut c g').1 in
  g'.2 = g.2
  ∧ (g'.1.1 = g.1.1 ∨ g'.1.2 = g.1.2)
  ∧ (0 <= p.1 ∧ p.1 <= of_int 100)
  ∧ (0 <= p.2 ∧ p.2 <= of_int 100).
Proof.
  intros c g.
  apply (mutate_first_endpoint_stays c g (dec 5 100) (of_int 100)
           (of_int 100)).
  - repeat split; by_computation.
  - repeat split; by_computation.
  - by_computation.
  - by_computation.
  - by_computation.
  - split; by_computation.
  - split; by_computation.
Defined.

(** ** The size of a generation *)

Section GenerationSize.
Context `{Shapely} (assign : assign_func).
Variables (requests : list num) (cake_len cake_width tolerance : num).

Lemma breed_length (n : nat) (cuts : list cut) :
  ∀ (candidates candidates' : list candidate) (g g' : rng),
  breed cake_len cake_width n cuts candidates g = Ret (candidates', g') →
  length candidates' = (length candidates + n)%nat.
Proof.
  induction n as [|n IH]; intros cands cands' g g' Hrun.
  - unfold breed, retM in Hrun. simplify_eq. lia.
  - cbn [breed] in Hrun.
    apply bindM_ret in Hrun as (parents & g1 & _ & Hrun).
    apply bindM_ret in Hrun as (offspring & g2 & _ & Hrun).
    apply IH in Hrun. rewrite length_app in Hrun. simpl in Hrun. lia.
Qed.

(** X23: a generation fills the population up to [NUM_CANDIDATES] and
    drops the [CUTOFF] worst: started with at most 20 candidates it
    returns 14, and started with more it returns 6 fewer than it was
    given. *)
Theorem next_generation_size (cuts : list cut)
    (candidates candidates' : list candidate) (g g' : rng) :
  next_generation assign requests cake_len cake_width tolerance cuts
    candidates g = Ret (candidates', g') →
  length candidates'
  = (Nat.max (length candidates) NUM_CANDIDATES - CUTOFF)%nat.
Proof.
  unfold next_generation, fill_population. intros Hrun.
  apply bindM_ret in Hrun as (filled & g1 & Hfill%breed_length & Hrun).
  apply bindM_ret in Hrun as (sorted & g2 & Hsort & Hrun).
  apply lift_ret in Hsort as (sorted' & Hsort & [= <- <-]).
  unfold retM in Hrun. simplify_eq.
  unfold sort_candidates in Hsort.
  destruct (omapM _ filled) as [keyed|] eqn:Hk; [|done].
  simpl in Hsort. simplify_eq.
  apply omapM_keyed in Hk as [Hk _].
  unfold cut_worst. rewrite length_take, length_fmap.
  rewrite (Permutation_length (sort_by_key_perm keyed)).
  rewrite <- (length_fmap snd keyed), Hk, Hfill.
  unfold NUM_CANDIDATES, CUTOFF. lia.
Qed.

End GenerationSize.

Lemma next_generation_size_witness :
  let cuts := [((0, of_int 50), (of_int 100, of_int 50))] in
  let requests := [of_int 5000; of_int 5000] in
  let candidates := [zero_candidate cuts; zero_candidate cuts] in
  ∃ candidates' g',
    next_generation (H := no_split_shapely) assign_in_order requests
      (of_int 100) (of_int 100) 0 cuts candidates (tape_of [])
    = Ret (candidates', g')
    ∧ length candidates' = 14%nat.
Proof.
  intros cuts requests candidates.
  assert (Hret : returns
            (next_generation (H := no_split_shapely) assign_in_order requests
               (of_int 100) (of_int 100) 0 cuts candidates (tape_of []))
            = true) by (vm_compute; reflexivity).
  destruct (returns_ret _ Hret) as [[candidates' g'] Hrun].
  exists candidates', g'. split; [exact Hrun|].
  exact (next_generation_size (H := no_split_shapely) assign_in_order _ _ _
           _ _ _ _ _ _ Hrun).
Defined.

(** ** Greatest and least *)

Lemma Qcmax_spec (x y : num) :
  x <= Qcmax x y ∧ y <= Qcmax x y ∧ (Qcmax x y = x ∨ Qcmax x y = y).
Proof.
  unfold Qcmax. case_decide as Hlt.
  - split_and!; [by apply Qclt_le_weak|apply Qcle_refl|by right].
  - apply Qcnot_lt_le in Hlt. split_and!; [apply Qcle_refl|done|by left].
Qed.

Lemma Qcmin_spec (x y : num) :
  Qcmin x y <= x ∧ Qcmin x y <= y ∧ (Qcmin x y = x ∨ Qcmin x y = y).
Proof.
  unfold Qcmin. case_decide as Hlt.
  - split_and!; [by apply Qclt_le_weak|apply Qcle_refl|by right].
  - apply Qcnot_lt_le in Hlt. split_and!; [apply Qcle_refl|done|by left].
Qed.

Lemma foldl_Qcmax (l : list num) :
  ∀ x, let m := foldl Qcmax x l in
       m ∈ x :: l ∧ Forall (λ y, y <= m) (x :: l).
Proof.
  induction l as [|y l IH]; intros x; simpl.
  - split; [by left|]. repeat constructor. apply Qcle_refl.
  - destruct (IH (Qcmax x y)) as [Hin Hall].
    destruct (Qcmax_spec x y) as (Hx & Hy & Hor).
    apply Forall_cons in Hall as [Hm Hall].
    split.
    + apply elem_of_cons in Hin as [->|Hin]; [|by do 2 right].
      destruct Hor as [-> | ->]; [by left|right; by left].
    + repeat constructor; [by eapply Qcle_trans..|done].
Qed.

Lemma foldl_Qcmin (l : list num) :
  ∀ x, let m := foldl Qcmin x l in
       m ∈ x :: l ∧ Forall (λ y, m <= y) (x :: l).
Proof.
  induction l as [|y l IH]; intros x; simpl.
  - split; [by left|]. repeat constructor. apply Qcle_refl.
  - destruct (IH (Qcmin x y)) as [Hin Hall].
    destruct (Qcmin_spec x y) as (Hx & Hy & Hor).
    apply Forall_cons in Hall as [Hm Hall].
    split.
    + apply elem_of_cons in Hin as [->|Hin]; [|by do 2 right].
      destruct Hor as [-> | ->]; [by left|right; by left].
    + repeat constructor; [by eapply Qcle_trans..|done].
Qed.

Lemma py_max_spec (l : list num) :
  l ≠ [] → ∃ m, py_max l = Ok m ∧ m ∈ l ∧ Forall (λ y, y <= m) l.
Proof.
  destruct l as [|x l]; [done|]. intros _. eexists. split; [done|].
  apply foldl_Qcmax.
Qed.

Lemma py_min_spec (l : list num) :
  l ≠ [] → ∃ m, py_min l = Ok m ∧ m ∈ l ∧ Forall (λ y, m <= y) l.
Proof.
  destruct l as [|x l]; [done|]. intros _. eexists. split; [done|].
  apply foldl_Qcmin.
Qed.

(** ** [is_uniform] *)

(** X24: [is_uniform] never raises.  On the empty list it answers True;
    on any other list it answers whether the float difference of the
    greatest and the least request is at most twice the tolerance.  When
    the float difference of a number and itself is 0, equal requests are
    uniform under every tolerance from 0 on. *)
Theorem is_uniform_spec (fsub : num → num → num) (requests : list num)
    (tolerance : num) :
  ∃ b, is_uniform fsub requests tolerance = Ok b
       ∧ (requests = [] → b = true)
       ∧ (∀ hi lo, hi ∈ requests → lo ∈ requests →
            (∀ x, x ∈ requests → lo <= x ∧ x <= hi) →
            b = bool_decide (fsub hi lo <= of_int 2 * tolerance))
       ∧ ((∀ x, fsub x x = 0) → 0 <= tolerance →
          (∀ x y, x ∈ requests → y ∈ requests → x = y) → b = true).
Proof.
  unfold is_uniform. case_decide as Hlen.
  - destruct requests; [|simpl in Hlen; lia].
    exists true. split; [done|]. split; [done|]. split; [|done].
    by intros hi lo ?%not_elem_of_nil.
  - assert (Hne : requests ≠ []) by (intros ->; simpl in Hlen; lia).
    destruct (py_max_spec _ Hne) as (hi & -> & Hhi & Hmax).
    destruct (py_min_spec _ Hne) as (lo & -> & Hlo & Hmin).
    rewrite Forall_forall in Hmax, Hmin.
    simpl. eexists. split; [done|]. split; [done|]. split.
    + intros hi' lo' Hhi' Hlo' Hext.
      assert (hi' = hi) as ->.
      { apply Qcle_antisym; [by apply Hmax|by apply Hext]. }
      assert (lo' = lo) as ->.
      { apply Qcle_antisym; [by apply Hext|by apply Hmin]. }
      done.
    + intros Hsub Htol Heq. rewrite (Heq hi lo Hhi Hlo), Hsub.
      apply bool_decide_eq_true.
      rewrite <- (Qcmult_0_l tolerance).
      apply Qcmult_le_compat_r; [by_computation|done].
Qed.

(** ** Sums *)

Lemma sum_num_app (l k : list num) : sum_num (l ++ k) = sum_num l + sum_num k.
Proof.
  induction l as [|x l IH]; simpl.
  - by rewrite Qcplus_0_l.
  - unfold sum_num in *. simpl. rewrite IH. by rewrite Qcplus_assoc.
Qed.

Lemma sum_num_snoc (l : list num) (x : num) : sum_num (l ++ [x]) = sum_num l + x.
Proof. rewrite sum_num_app. unfold sum_num. simpl. by rewrite Qcplus_0_r. Qed.

Lemma sum_num_insert (l : list num) (j : nat) (x val : num) :
  l !! j = Some x → sum_num (<[j := x + val]> l) = sum_num l + val.
Proof.
  revert j. induction l as [|y l IH]; intros j Hj; [done|].
  destruct j as [|j]; simpl in *.
  - simplify_eq. unfold sum_num. simpl. ring.
  - unfold sum_num in *. simpl. rewrite (IH j Hj). ring.
Qed.

Lemma of_int_plus (a b : Z) : of_int (a + b) = of_int a + of_int b.
Proof.
  apply Qc_is_canon. unfold of_int, Qcplus, Q2Qc. cbn [this].
  rewrite !Qred_correct. by rewrite inject_Z_plus.
Qed.

Lemma of_int_mult (a b : Z) : of_int (a * b) = of_int a * of_int b.
Proof.
  apply Qc_is_canon. unfold of_int, Qcmult, Q2Qc. cbn [this].
  rewrite !Qred_correct. by rewrite inject_Z_mult.
Qed.

Lemma sum_num_replicate (k : nat) (x : num) :
  sum_num (replicate k x) = of_int (Z.of_nat k) * x.
Proof.
  induction k as [|k IH].
  - simpl. replace (of_int (Z.of_nat 0)) with 0 by by_computation. ring.
  - unfold sum_num in *. simpl. rewrite IH.
    replace (Z.of_nat (S k)) with (Z.of_nat k + 1)%Z by lia.
    rewrite of_int_plus. replace (of_int 1) with 1 by by_computation. ring.
Qed.

Lemma sum_num_nonneg (l : list num) : Forall (λ x, 0 <= x) l → 0 <= sum_num l.
Proof.
  induction 1 as [|x l Hx Hl IH]; [apply Qcle_refl|].
  unfold sum_num in *. simpl.
  rewrite <- (Qcplus_0_l 0). by apply Qcplus_le_compat.
Qed.

Lemma sum_num_pos (l : list num) :
  l ≠ [] → Forall (λ x, 0 < x) l → 0 < sum_num l.
Proof.
  intros Hne Hall. destruct Hall as [|x l Hx Hl]; [done|].
  unfold sum_num. simpl.
  assert (0 <= foldr Qcplus 0 l).
  { apply sum_num_nonneg. eapply Forall_impl; [exact Hl|].
    intros. by apply Qclt_le_weak. }
  apply Qclt_le_trans with x; [done|].
  rewrite <- (Qcplus_0_r x) at 1.
  apply Qcplus_le_compat; [apply Qcle_refl|done].
Qed.

(** ** Rows and columns of [divide_requests] *)

Lemma ceil_div_step (s i : Z) :
  (1 ≤ s)%Z → (0 ≤ i)%Z →
  ((i + s - 1) `div` s
   = if decide (i `mod` s = 0) then i `div` s else i `div` s + 1)%Z
  ∧ ((i + 1 + s - 1) `div` s = i `div` s + 1)%Z.
Proof.
  intros Hs Hi.
  pose proof (Z.div_mod i s ltac:(lia)) as Hdm.
  pose proof (Z.mod_pos_bound i s ltac:(lia)) as Hm.
  split.
  - case_decide as H0.
    + symmetry. apply (Z.div_unique _ _ _ (s - 1)); lia.
    + symmetry. apply (Z.div_unique _ _ _ (i `mod` s - 1)); lia.
  - symmetry. apply (Z.div_unique _ _ _ (i `mod` s)); lia.
Qed.

Lemma add_at_ok (l : list num) (j : Z) (val : num) :
  (0 ≤ j < Z.of_nat (length l))%Z →
  ∃ l', add_at l j val = Ok l'
        ∧ length l' = length l
        ∧ sum_num l' = sum_num l + val
        ∧ (0 <= val → Forall (λ x, 0 <= x) l → Forall (λ x, 0 <= x) l').
Proof.
  intros Hj. unfold add_at.
  destruct (lookup_lt_is_Some_2 l (Z.to_nat j)) as [x Hx]; [lia|].
  rewrite (py_index_nonneg l j x) by (lia || done). simpl.
  rewrite decide_False by lia.
  eexists. split; [done|]. split; [by rewrite length_insert|].
  split; [by apply sum_num_insert|].
  intros Hval Hall. apply Forall_insert; [done|].
  rewrite Forall_forall in Hall.
  rewrite <- (Qcplus_0_l 0). apply Qcplus_le_compat; [|done].
  apply Hall. by eapply list_elem_of_lookup_2.
Qed.

Lemma divide_requests_loop_inv (s : Z) (vals : list num) :
  (1 ≤ s)%Z →
  ∀ (i : Z) (total : num) (h v : list num),
  (0 ≤ i)%Z →
  Z.of_nat (length v) = Z.min i s →
  Z.of_nat (length h) = ((i + s - 1) `div` s)%Z →
  sum_num h = total → sum_num v = total →
  ∃ total' h' v',
    divide_requests_loop s i vals total h v = Ok (total', h', v')
    ∧ Z.of_nat (length v') = Z.min (i + Z.of_nat (length vals)) s
    ∧ Z.of_nat (length h')
      = ((i + Z.of_nat (length vals) + s - 1) `div` s)%Z
    ∧ sum_num h' = total' ∧ sum_num v' = total'
    ∧ total' = total + sum_num vals
    ∧ (Forall (λ x, 0 <= x) vals → Forall (λ x, 0 <= x) h →
       Forall (λ x, 0 <= x) v →
       Forall (λ x, 0 <= x) h' ∧ Forall (λ x, 0 <= x) v').
Proof.
  intros Hs. induction vals as [|val vals IH]; intros i total h v Hi Hv Hh Sh Sv.
  - exists total, h, v. simpl. rewrite !Z.add_0_r.
    split_and!; try done.
    unfold sum_num. simpl. by rewrite Qcplus_0_r.
  - cbn [divide_requests_loop].
    pose proof (Z.mod_pos_bound i s ltac:(lia)) as Hm.
    destruct (ceil_div_step s i Hs Hi) as [Hc1 Hc2].
    (* the column *)
    assert (∃ v1,
      (if decide (i < s)%Z then Ok (v ++ [val])
       else col ←! py_mod i s; add_at v col val) = Ok v1
      ∧ Z.of_nat (length v1) = Z.min (i + 1) s
      ∧ sum_num v1 = total + val
      ∧ (0 <= val → Forall (λ x, 0 <= x) v → Forall (λ x, 0 <= x) v1))
      as (v1 & -> & Hv1 & Sv1 & Pv1).
    { destruct (decide (i < s)%Z) as [Hlt|Hlt].
      - eexists. split; [done|]. rewrite length_app, sum_num_snoc, Sv.
        simpl. split; [lia|]. split; [done|].
        intros ? ?. apply Forall_app. by repeat constructor.
      - unfold py_mod. rewrite decide_False by lia. simpl.
        destruct (add_at_ok v (i `mod` s) val) as (v1 & -> & L1 & S1 & P1);
          [lia|].
        exists v1. split; [done|]. rewrite L1, S1, Sv.
        split; [lia|]. done. }
    cbn [obind].
    unfold py_int_div. rewrite decide_False by lia. cbn [obind].
    rewrite Z.quot_div_nonneg by lia.
    (* the row *)
    assert (∃ h1,
      (if decide (Z.of_nat (length h) ≤ i `div` s)%Z then Ok (h ++ [val])
       else add_at h (i `div` s) val) = Ok h1
      ∧ Z.of_nat (length h1) = ((i + 1 + s - 1) `div` s)%Z
      ∧ sum_num h1 = total + val
      ∧ (0 <= val → Forall (λ x, 0 <= x) h → Forall (λ x, 0 <= x) h1))
      as (h1 & -> & Hh1 & Sh1 & Ph1).
    { pose proof (Z.div_pos i s ltac:(lia) ltac:(lia)) as Hq.
      destruct (decide (Z.of_nat (length h) ≤ i `div` s)%Z) as [Hle|Hle].
      - eexists. split; [done|]. rewrite length_app, sum_num_snoc, Sh.
        simpl. split; [|split; [done|]].
        + rewrite Hc2. case_decide; lia.
        + intros ? ?. apply Forall_app. by repeat constructor.
      - destruct (add_at_ok h (i `div` s) val) as (h1 & -> & L1 & S1 & P1);
          [lia|].
        exists h1. split; [done|]. rewrite L1, S1, Sh.
        split; [|done].
        rewrite Hc2. case_decide; lia. }
    cbn [obind].
    destruct (IH (i + 1)%Z (total + val) h1 v1) as
      (total' & h' & v' & -> & Lv & Lh & Sh' & Sv' & St & Pos);
      [lia|done..|].
    exists total', h', v'. split; [done|].
    replace (i + Z.of_nat (length (val :: vals)))%Z
      with (i + 1 + Z.of_nat (length vals))%Z by (simpl; lia).
    split_and!; try done.
    + rewrite St. unfold sum_num. simpl. ring.
    + intros [Hval Hvals]%Forall_cons Hh0 Hv0. apply Pos; auto.
Qed.

Lemma py_ceil_div_pos (n s : Z) :
  (1 ≤ s)%Z → py_ceil_div n s = Ok ((n + s - 1) `div` s)%Z.
Proof.
  intros Hs. unfold py_ceil_div. rewrite decide_False by lia. f_equal.
  destruct s as [|p|p]; [lia| |lia].
  unfold Qceiling, Qdiv, Qinv, Qmult, Qopp, Qfloor, inject_Z. cbn [Qnum Qden].
  rewrite Z.mul_1_r, Pos.mul_1_l.
  pose proof (Z.div_mod n (Z.pos p) ltac:(lia)) as Hdm.
  pose proof (Z.mod_pos_bound n (Z.pos p) ltac:(lia)) as Hm.
  destruct (decide (n `mod` Z.pos p = 0)%Z) as [H0|H0].
  - rewrite <- (Z.div_unique (- n) (Z.pos p) (- (n `div` Z.pos p)) 0)
      by lia.
    rewrite <- (Z.div_unique (n + Z.pos p - 1) (Z.pos p) (n `div` Z.pos p)
                  (Z.pos p - 1)) by lia.
    lia.
  - rewrite <- (Z.div_unique (- n) (Z.pos p) (- (n `div` Z.pos p) - 1)
                  (Z.pos p - n `mod` Z.pos p)) by lia.
    rewrite <- (Z.div_unique (n + Z.pos p - 1) (Z.pos p)
                  (n `div` Z.pos p + 1) (n `mod` Z.pos p - 1)) by lia.
    lia.
Qed.

Lemma grid_padding_nonneg (n : nat) : (0 ≤ grid_padding n)%Z.
Proof.
  unfold grid_padding, grid_rows, grid_side.
  destruct (decide (n = 0)%nat) as [->|Hn]; [done|].
  pose proof (Z.sqrt_pos (Z.of_nat n)) as Hs.
  set (s := Z.sqrt (Z.of_nat n)) in *.
  assert (1 ≤ s)%Z by lia.
  pose proof (Z.div_mod (Z.of_nat n + s - 1) s ltac:(lia)).
  pose proof (Z.mod_pos_bound (Z.of_nat n + s - 1) s ltac:(lia)).
  lia.
Qed.

Lemma Qc_half_pos (x : num) : 0 < x → 0 < x / of_int 2.
Proof.
  intros Hx. unfold Qcdiv.
  rewrite <- (Qcmult_0_l (/ of_int 2)).
  apply Qcmult_lt_compat_r; [by_computation|done].
Qed.

Lemma Qc_add_pos (x y : num) : 0 < x → 0 < y → 0 < x + y.
Proof.
  intros Hx Hy. qc_lra.
Qed.

Lemma divide_requests_ok (requests : list num) :
  requests ≠ [] →
  ∃ hi lo total h_sums v_sums,
    py_max requests = Ok hi ∧ py_min requests = Ok lo
    ∧ divide_requests requests = Ok (total, h_sums, v_sums)
    ∧ Z.of_nat (length v_sums) = grid_side (length requests)
    ∧ Z.of_nat (length h_sums) = grid_rows (length requests)
    ∧ sum_num h_sums = total ∧ sum_num v_sums = total
    ∧ total = sum_num requests
              + of_int (grid_padding (length requests))
                * ((hi + lo) / of_int 2)
    ∧ (1 ≤ grid_side (length requests))%Z
    ∧ (1 ≤ grid_rows (length requests))%Z
    ∧ (Forall (λ x, 0 < x) requests →
       0 < total ∧ Forall (λ x, 0 <= x) h_sums
       ∧ Forall (λ x, 0 <= x) v_sums).
Proof.
  intros Hne.
  destruct (py_max_spec _ Hne) as (hi & Hhi & Hhi_in & _).
  destruct (py_min_spec _ Hne) as (lo & Hlo & Hlo_in & _).
  exists hi, lo.
  unfold divide_requests, grid_padding, grid_rows, grid_side.
  rewrite Hhi, Hlo. cbn [obind].
  assert (Hn : (1 ≤ Z.of_nat (length requests))%Z)
    by (destruct requests; [done|simpl; lia]).
  set (n := Z.of_nat (length requests)) in *.
  pose proof (Z.sqrt_pos n) as Hs0.
  pose proof (Z.sqrt_le_lin n ltac:(lia)) as Hsn.
  set (s := Z.sqrt n) in *.
  assert (Hs : (1 ≤ s)%Z) by lia.
  set (median := (hi + lo) / of_int 2).
  destruct (ceil_div_step s n Hs ltac:(lia)) as [Hceil _].
  pose proof (Z.div_mod n s ltac:(lia)) as Hdm.
  pose proof (Z.mod_pos_bound n s ltac:(lia)) as Hm.
  set (C := ((n + s - 1) `div` s)%Z) in *.
  assert (HnC : (n ≤ s * C)%Z) by (case_decide; nia).
  assert (HC : (1 ≤ C)%Z) by nia.
  unfold py_mod. rewrite decide_False by lia. cbn [obind].
  assert ((if decide (n `mod` s ≠ 0)%Z then
             c ←! py_ceil_div n s; Ok (s * c)%Z
           else Ok n) = Ok (s * C)%Z) as ->.
  { destruct (decide (n `mod` s ≠ 0)%Z) as [Hr|Hr].
    - rewrite py_ceil_div_pos by done. done.
    - f_equal. rewrite decide_True in Hceil by lia. nia. }
  cbn [obind].
  set (copy := requests ++ replicate (Z.to_nat (s * C - n)) median).
  assert (Hcopy : Z.of_nat (length copy) = (s * C)%Z).
  { unfold copy. rewrite length_app, length_replicate. lia. }
  destruct (divide_requests_loop_inv s copy Hs 0 0 [] [])
    as (total & h & v & Hrun & Lv & Lh & Sh & Sv & St & Pos);
    [lia|simpl; lia|simpl; by rewrite Z.div_small by lia|done..|].
  exists total, h, v. rewrite Hrun.
  split_and!; try done.
  - rewrite Lv, Hcopy. nia.
  - rewrite Lh, Hcopy. symmetry.
    apply (Z.div_unique _ _ _ (s - 1)); lia.
  - rewrite St, Qcplus_0_l. unfold copy.
    rewrite sum_num_app, sum_num_replicate.
    by rewrite Z2Nat.id by lia.
  - intros Hpos.
    assert (Hmed : 0 < median).
    { rewrite Forall_forall in Hpos.
      apply Qc_half_pos, Qc_add_pos; by apply Hpos. }
    assert (Hall : Forall (λ x, 0 < x) copy).
    { apply Forall_app. split; [done|]. by apply Forall_replicate. }
    split.
    + rewrite St, Qcplus_0_l. apply sum_num_pos; [|done].
      unfold copy. by destruct requests.
    + apply Pos; [|done..].
      eapply Forall_impl; [exact Hall|]. intros. by apply Qclt_le_weak.
Qed.

(** X25: [divide_requests] raises ValueError on the empty list.  On [n]
    requests it lays them out in rows of [s], the integer square root of
    [n], topped up with the mean of the greatest and the least request: it
    returns [s] column sums and as many row sums as there are rows, the
    row sums and the column sums both add up to the total, and the total
    is the sum of the requests plus the top-up. *)
Theorem divide_requests_spec (requests : list num) :
  (requests = [] → divide_requests requests = Err ValueError)
  ∧ (requests ≠ [] →
     ∃ hi lo total h_sums v_sums,
       py_max requests = Ok hi ∧ py_min requests = Ok lo
       ∧ divide_requests requests = Ok (total, h_sums, v_sums)
       ∧ Z.of_nat (length v_sums) = grid_side (length requests)
       ∧ Z.of_nat (length h_sums) = grid_rows (length requests)
       ∧ sum_num h_sums = total ∧ sum_num v_sums = total
       ∧ total = sum_num requests
                 + of_int (grid_padding (length requests))
                   * ((hi + lo) / of_int 2)).
Proof.
  split; [by intros ->|]. intros Hne.
  destruct (divide_requests_ok requests Hne)
    as (hi & lo & total & h & v & ? & ? & ? & ? & ? & ? & ? & ? & _).
  by exists hi, lo, total, h, v.
Qed.

(** ** [grid_enough] *)

(** X26: [grid_enough] raises ValueError on the empty list, and on
    requests that are all positive it returns an answer: the sums it
    divides by and takes the extremes of are there and not zero. *)
Theorem grid_enough_returns (requests : list num)
    (width length tolerance : num) :
  (requests = [] →
   grid_enough requests width length tolerance = Err ValueError)
  ∧ (requests ≠ [] → Forall (λ x, 0 < x) requests →
     ∃ b, grid_enough requests width length tolerance = Ok b).
Proof.
  split; [by intros ->|]. intros Hne Hpos.
  destruct (divide_requests_ok requests Hne)
    as (hi & lo & total & h & v & _ & _ & Hrun & Lv & Lh & _ & _ & _
        & Hs & Hr & Htot).
  destruct (Htot Hpos) as (Htotal & _ & _).
  unfold grid_enough. rewrite Hrun. cbn [obind].
  assert (Hh : h ≠ []) by (intros ->; simpl in Lh; lia).
  assert (Hv : v ≠ []) by (intros ->; simpl in Lv; lia).
  destruct (py_max_spec _ Hh) as (? & -> & _).
  destruct (py_min_spec _ Hh) as (? & -> & _).
  destruct (py_max_spec _ Hv) as (? & -> & _).
  destruct (py_min_spec _ Hv) as (? & -> & _).
  cbn [obind]. unfold py_div.
  destruct (decide (total = 0)) as [->|_];
    [by apply Qc_lt_irrefl in Htotal|].
  cbn [obind]. by eexists.
Qed.

(** ** The rectangles of [estimate_uneven_penalty] *)

Lemma Qcabs_nonneg (x : num) : 0 <= x → Qcabs x = x.
Proof.
  intros Hx. unfold Qcabs. apply Qc_is_canon. cbn [this Q2Qc].
  rewrite Qred_correct. apply Qabs_pos. exact Hx.
Qed.

Lemma Qc_mul_nonneg (x y : num) : 0 <= x → 0 <= y → 0 <= x * y.
Proof.
  intros Hx Hy. rewrite <- (Qcmult_0_l y).
  by apply Qcmult_le_compat_r.
Qed.

Lemma create_polygon_area (width height : num) :
  0 <= width → 0 <= height →
  polygon_area (create_polygon width height) = width * height.
Proof.
  intros Hw Hh. unfold polygon_area, create_polygon.
  assert (shoelace (0, 0)
            [(0, 0); (width, 0); (width, height); (0, height); (0, 0)]
          = (1 + 1) * (width * height)) as ->.
  { cbn [shoelace hd fst snd]. ring. }
  replace (dec 2 1) with (1 + 1) by by_computation.
  rewrite Qcabs_nonneg.
  - field. by_computation.
  - apply Qc_mul_nonneg; [by_computation|]. by apply Qc_mul_nonneg.
Qed.

Lemma sum_num_scale (c : num) (l : list num) :
  sum_num ((λ x, c * x) <$> l) = c * sum_num l.
Proof.
  induction l as [|x l IH]; [unfold sum_num; simpl; ring|].
  rewrite fmap_cons. change (sum_num (c * x :: ((λ x, c * x) <$> l)))
    with (c * x + sum_num ((λ x, c * x) <$> l)).
  rewrite IH. change (sum_num (x :: l)) with (x + sum_num l). ring.
Qed.

Lemma sum_num_concat (ls : list (list num)) :
  sum_num (concat ls) = sum_num (sum_num <$> ls).
Proof.
  induction ls as [|l ls IH]; [done|].
  rewrite fmap_cons. cbn [concat]. rewrite sum_num_app, IH. done.
Qed.

Lemma omapM_fmap {A B} (f : A → checked B) (g : A → B) (l : list A) :
  (∀ a, a ∈ l → f a = Ok (g a)) → omapM f l = Ok (g <$> l).
Proof.
  induction l as [|a l IH]; intros Hf; [done|].
  simpl. rewrite Hf by by left. simpl. rewrite IH; [done|].
  intros. apply Hf. by right.
Qed.

Lemma Qc_div_nonneg (x y : num) : 0 <= x → 0 < y → 0 <= x / y.
Proof.
  intros Hx Hy. unfold Qcdiv. apply Qc_mul_nonneg; [done|].
  apply Qclt_le_weak. change (0 < Qred (/ y))%Q.
  rewrite Qred_correct. by apply Qinv_lt_0_compat.
Qed.

Lemma row_area (a k total : num) (v : list num) :
  0 <= a → 0 <= k → 0 < total → Forall (λ x, 0 <= x) v →
  sum_num (polygon_area
             <$> ((λ v0, create_polygon a (k * v0 / total)) <$> v))
  = a * (k * sum_num v / total).
Proof.
  intros Ha Hk Htotal Hv.
  assert (total ≠ 0) by (intros ->; by apply Qc_lt_irrefl in Htotal).
  induction Hv as [|x v Hx Hv IH].
  - unfold sum_num. simpl. by field.
  - rewrite !fmap_cons.
    change (sum_num (?y :: ?l)) with (y + sum_num l).
    rewrite IH, create_polygon_area;
      [|done|apply Qc_div_nonneg; [by apply Qc_mul_nonneg|done]].
    change (sum_num (x :: v)) with (x + sum_num v). by field.
Qed.

Lemma grid_area (l w total : num) (h v : list num) :
  0 <= l → 0 <= w → 0 < total →
  Forall (λ x, 0 <= x) h → Forall (λ x, 0 <= x) v →
  sum_num (polygon_area
             <$> concat ((λ h0, (λ v0, create_polygon (l * h0 / total)
                                          (w * v0 / total)) <$> v) <$> h))
  = (l * sum_num h / total) * (w * sum_num v / total).
Proof.
  intros Hl Hw Htotal Hh Hv.
  assert (total ≠ 0) by (intros ->; by apply Qc_lt_irrefl in Htotal).
  induction Hh as [|x h Hx Hh IH].
  - unfold sum_num. simpl. by field.
  - rewrite fmap_cons. cbn [concat]. rewrite fmap_app, sum_num_app, IH.
    rewrite row_area;
      [|apply Qc_div_nonneg; [by apply Qc_mul_nonneg|done]|done..].
    change (sum_num (x :: h)) with (x + sum_num h). by field.
Qed.

Section UnevenProps.
Context (hungarian_min_penalty : assign_func).
Context (calculate_total_penalty :
           list Z → list polygon → list num → num → checked num).

(** X27: when [estimate_uneven_penalty] returns for positive requests on
    a cake with sides that are not negative, its rectangles are one per
    cell of the grid of [divide_requests], at least as many as the
    requests, and their areas add up to the area of the cake. *)
Theorem estimate_uneven_penalty_tiles (requests : list num)
    (cake_width cake_len tolerance p : num) (polygons : list polygon) :
  Forall (λ x, 0 < x) requests → 0 <= cake_width → 0 <= cake_len →
  estimate_uneven_penalty hungarian_min_penalty calculate_total_penalty
    requests cake_width cake_len tolerance = Ok (p, polygons) →
  Z.of_nat (length polygons)
  = (grid_side (length requests) * grid_rows (length requests))%Z
  ∧ (length requests ≤ length polygons)%nat
  ∧ sum_num (polygon_area <$> polygons) = cake_len * cake_width.
Proof.
  intros Hpos Hw Hl Hrun.
  destruct (decide (requests = [])) as [->|Hne]; [done|].
  destruct (divide_requests_ok requests Hne)
    as (hi & lo & total & h & v & _ & _ & Hdiv & Lv & Lh & Sh & Sv & _
        & Hs & Hr & Htot).
  destruct (Htot Hpos) as (Htotal & Hh & Hv).
  assert (Htotal0 : total ≠ 0) by (intros ->; by apply Qc_lt_irrefl in Htotal).
  unfold estimate_uneven_penalty in Hrun. rewrite Hdiv in Hrun.
  cbn [obind] in Hrun.
  rewrite (omapM_fmap _
    (λ h0, (λ v0, create_polygon (cake_len * h0 / total)
                    (cake_width * v0 / total)) <$> v)) in Hrun.
  2:{ intros h0 _. unfold py_div. rewrite decide_False by done. cbn [obind].
      apply omapM_fmap. intros v0 _. by rewrite decide_False by done. }
  cbn [obind] in Hrun.
  destruct (hungarian_min_penalty _ requests tolerance) as [assignment|];
    [|done].
  cbn [obind] in Hrun.
  destruct (calculate_total_penalty assignment _ requests tolerance);
    [|done].
  cbn [obind] in Hrun. injection Hrun as _ <-.
  assert (Hlen : Z.of_nat (length (concat
            ((λ h0, (λ v0, create_polygon (cake_len * h0 / total)
                             (cake_width * v0 / total)) <$> v) <$> h)))
          = (grid_side (length requests) * grid_rows (length requests))%Z).
  { rewrite <- Lv, <- Lh. clear. induction h as [|h0 h IH]; [simpl; lia|].
    rewrite fmap_cons. cbn [concat].
    rewrite length_app, length_fmap, length_cons. lia. }
  split; [exact Hlen|]. split.
  { pose proof (grid_padding_nonneg (length requests)) as Hpad.
    unfold grid_padding in Hpad. lia. }
  rewrite grid_area by done. rewrite Sh, Sv. by field.
Qed.

End UnevenProps.

Lemma estimate_uneven_penalty_tiles_witness :
  let requests := [of_int 1; of_int 2; of_int 3; of_int 4; of_int 5] in
  let total_penalty : list Z → list polygon → list num → num → checked num :=
    λ _ _ _ _, Ok 0 in
  ∃ p polygons,
    estimate_uneven_penalty leave_unassigned total_penalty requests
      (of_int 12) (of_int 6) 0 = Ok (p, polygons)
    ∧ Z.of_nat (length polygons) = (grid_side 5 * grid_rows 5)%Z
    ∧ (5 ≤ length polygons)%nat
    ∧ sum_num (polygon_area <$> polygons) = of_int 6 * of_int 12.
Proof.
  intros requests total_penalty.
  destruct (estimate_uneven_penalty leave_unassigned total_penalty requests
              (of_int 12) (of_int 6) 0) as [[p polygons]|e] eqn:Hrun.
  - exists p, polygons. split; [reflexivity|].
    apply (estimate_uneven_penalty_tiles leave_unassigned total_penalty
             requests (of_int 12) (of_int 6) 0 p polygons);
      [repeat constructor; by_computation|by_computation..|exact Hrun].
  - exfalso. revert Hrun. by_computation.
Defined.

(** ** Factor pairs *)

Lemma find_factor_pairs_foldl (n : Z) (l : list Z) (acc : list (Z * Z)) :
  foldl (λ factor_pairs i,
           if decide (n `mod` i = 0)%Z then
             factor_pairs ++ [(i, n `div` i)%Z]
           else factor_pairs) acc l
  = acc ++ ((λ i, (i, n `div` i)%Z) <$> filter (λ i, n `mod` i = 0)%Z l).
Proof.
  revert acc. induction l as [|i l IH]; intros acc; simpl.
  - by rewrite app_nil_r.
  - rewrite IH, filter_cons. case_decide; [|done].
    by rewrite fmap_cons, <- app_assoc.
Qed.

Lemma find_factor_pairs_elem_of (n a b : Z) :
  (0 ≤ n)%Z →
  (a, b) ∈ find_factor_pairs n ↔ (1 ≤ a ≤ b)%Z ∧ (a * b = n)%Z.
Proof.
  intros Hn. unfold find_factor_pairs.
  rewrite find_factor_pairs_foldl, app_nil_l, list_elem_of_fmap.
  pose proof (Z.sqrt_nonneg n) as Hs.
  split.
  - intros (i & [= -> ->] & [Hmod Hi]%list_elem_of_filter).
    apply elem_of_seqZ in Hi.
    pose proof (Z.div_mod n i ltac:(lia)) as Hdm.
    assert (Hsq : (i * i ≤ n)%Z).
    { apply Z.sqrt_le_square; lia. }
    split; [|lia]. split; [lia|]. nia.
  - intros [[Ha Hab] <-].
    exists a. split.
    + f_equal. rewrite Z.mul_comm. by rewrite Z.div_mul by lia.
    + apply list_elem_of_filter. split.
      * rewrite Z.mul_comm. apply Z.mod_mul. lia.
      * apply elem_of_seqZ. split; [lia|].
        cut (a ≤ Z.sqrt (a * b))%Z; [lia|].
        apply Z.sqrt_le_square; nia.
Qed.

(** X28: the factor pairs of a count [n] are exactly the pairs [(a, b)]
    of positive integers with [a * b = n] and [a ≤ b]; the count 0 has
    none. *)
Theorem find_factor_pairs_spec (n a b : Z) :
  (0 ≤ n)%Z →
  (a, b) ∈ find_factor_pairs n ↔ (1 ≤ a ≤ b)%Z ∧ (a * b = n)%Z.
Proof. apply find_factor_pairs_elem_of. Qed.

Lemma find_factor_pairs_spec_witness :
  (3, 4)%Z ∈ find_factor_pairs 12 ↔ (1 ≤ 3 ≤ 4)%Z ∧ (3 * 4 = 12)%Z.
Proof. apply find_factor_pairs_spec. lia. Defined.

(** ** The layouts of [init_cuts] *)

Lemma fitting_pairs_elem_of (cake_len cake_width : num)
    (factor_pairs working_pairs : list (Z * Z)) :
  fitting_pairs cake_len cake_width factor_pairs = Ok working_pairs →
  ∀ pair, pair ∈ working_pairs ↔
          pair ∈ factor_pairs ∧ fits_plate cake_len cake_width pair = Ok true.
Proof.
  revert working_pairs.
  induction factor_pairs as [|fp rest IH]; intros wp Hrun pair.
  - simpl in Hrun. simplify_eq. split; [by intros ?%not_elem_of_nil|].
    by intros [?%not_elem_of_nil _].
  - simpl in Hrun.
    destruct (fits_plate cake_len cake_width fp) as [fits|] eqn:Hfits;
      [|done].
    destruct (fitting_pairs cake_len cake_width rest) as [wp'|]; [|done].
    simpl in Hrun. simplify_eq. specialize (IH wp' eq_refl pair).
    destruct fits; rewrite ?elem_of_cons, IH.
    + split.
      * intros [->|[? ?]]; [split; [by left|done]|split; [by right|done]].
      * intros [[->|?] ?]; [by left|by right].
    + split.
      * intros [? ?]. split; [by right|done].
      * intros [[->|?] Hf]; [by rewrite Hfits in Hf|done].
Qed.

Lemma init_cuts_loop_ret (cake_len cake_width extra_area : num) (fuel : nat) :
  ∀ (requests : list num) (k : Z) (working_pairs : list (Z * Z))
    (requests' : list num),
  (0 ≤ k)%Z →
  init_cuts_loop fuel cake_len cake_width extra_area requests k
  = Ret (working_pairs, requests') →
  ∃ (j : Z) (extras : list num),
    (k ≤ j)%Z
    ∧ requests' = requests ++ extras
    ∧ (2 * Z.of_nat (length extras) = j * (j + 1) - k * (k - 1))%Z
    ∧ sum_num extras = of_int (j + 1 - Z.max k 1) * extra_area
    ∧ fitting_pairs cake_len cake_width
        (find_factor_pairs (Z.of_nat (length requests'))) = Ok working_pairs
    ∧ working_pairs ≠ [].
Proof.
  induction fuel as [|fuel IH]; intros requests k wp requests' Hk Hrun;
    [done|].
  cbn [init_cuts_loop] in Hrun.
  set (share := replicate (Z.to_nat k) (extra_area / of_int k)) in *.
  assert (Hshare : sum_num share
                   = (if decide (k = 0)%Z then 0 else extra_area)).
  { unfold share. rewrite sum_num_replicate, Z2Nat.id by done.
    destruct (decide (k = 0)%Z) as [->|Hk0].
    - replace (of_int 0) with 0 by by_computation. ring.
    - field. intros Hz%of_int_eq_0. lia. }
  assert (Hlen : Z.of_nat (length share) = k).
  { unfold share. rewrite length_replicate. lia. }
  destruct (fitting_pairs cake_len cake_width
              (find_factor_pairs (Z.of_nat (length (requests ++ share)))))
    as [[|pair pairs]|] eqn:Hfit; [| |done].
  - apply IH in Hrun as (j & extras & Hj & -> & Hl & Hs & Hf & Hne); [|lia].
    exists j, (share ++ extras).
    split; [lia|]. split; [by rewrite app_assoc|].
    split; [rewrite length_app; lia|].
    split; [|done].
    rewrite sum_num_app, Hs, Hshare.
    destruct (decide (k = 0)%Z) as [->|Hk0].
    + replace (j + 1 - Z.max (0 + 1) 1)%Z with (j + 1 - Z.max 0 1)%Z by lia.
      ring.
    + replace (j + 1 - Z.max k 1)%Z with (1 + (j + 1 - Z.max (k + 1) 1))%Z
        by lia.
      rewrite of_int_plus. replace (of_int 1) with 1 by by_computation. ring.
  - injection Hrun as <- <-.
    exists k, share. split; [lia|]. split; [done|].
    split; [lia|]. split; [|done].
    rewrite Hshare. destruct (decide (k = 0)%Z) as [->|Hk0].
    + replace (of_int _) with 0 by by_computation. ring.
    + replace (k + 1 - Z.max k 1)%Z with 1%Z by lia.
      replace (of_int 1) with 1 by by_computation. ring.
Qed.

Lemma layout_cuts_lengths (cake_len cake_width : num) (pair : Z * Z)
    (hc vc : list (num * num)) :
  layout_cuts cake_len cake_width pair = Ok (hc, vc) →
  length hc = Z.to_nat (pair.1 - 1) ∧ length vc = Z.to_nat (pair.2 - 1).
Proof.
  destruct pair as [r c]. unfold layout_cuts.
  destruct (py_div cake_len (of_int r)); [|done].
  destruct (py_div cake_width (of_int c)); [|done].
  simpl. intros [= <- <-]. by rewrite !length_fmap, !length_seqZ.
Qed.

Lemma fits_plate_true (cake_len cake_width : num) (r c : Z) :
  (1 ≤ r)%Z → (1 ≤ c)%Z →
  fits_plate cake_len cake_width (r, c) = Ok true →
  (cake_len / of_int r) * (cake_len / of_int r)
  + (cake_width / of_int c) * (cake_width / of_int c) <= of_int 625.
Proof.
  intros Hr Hc. unfold fits_plate, py_div.
  rewrite !decide_False by (intros Hz%of_int_eq_0; lia).
  simpl. intros [= Hb]. by apply bool_decide_eq_true in Hb.
Qed.

Lemma init_cuts_ret (fuel : nat) (requests requests' : list num)
    (cake_len cake_width : num)
    (cuts : list ((Z * Z) * (list (num * num) * list (num * num)))) :
  init_cuts fuel requests cake_len cake_width = Ret (cuts, requests') →
  (∃ (retries : Z) (extras : list num),
     (0 ≤ retries)%Z
     ∧ requests' = requests ++ extras
     ∧ (2 * Z.of_nat (length extras) = retries * (retries + 1))%Z
     ∧ sum_num extras
       = of_int retries * (cake_len * cake_width * dec 5 100))
  ∧ cuts ≠ []
  ∧ ∀ num_rows num_cols hc vc,
      ((num_rows, num_cols), (hc, vc)) ∈ cuts →
      (1 ≤ num_rows ≤ num_cols)%Z
      ∧ (num_rows * num_cols = Z.of_nat (length requests'))%Z
      ∧ (cake_len / of_int num_rows) * (cake_len / of_int num_rows)
        + (cake_width / of_int num_cols) * (cake_width / of_int num_cols)
        <= of_int 625
      ∧ length hc = Z.to_nat (num_rows - 1)
      ∧ length vc = Z.to_nat (num_cols - 1).
Proof.
  unfold init_cuts. intros Hrun.
  destruct (init_cuts_loop fuel cake_len cake_width _ requests 0)
    as [[wp reqs]| |] eqn:Hloop; [|done..].
  destruct (omapM _ wp) as [items|] eqn:Hitems; [|done].
  injection Hrun as <- <-.
  apply init_cuts_loop_ret in Hloop
    as (j & extras & Hj & -> & Hl & Hs & Hf & Hne); [|done].
  split; [|split].
  - exists j, extras. split_and!; try done; [lia|].
    rewrite Hs. by replace (j + 1 - Z.max 0 1)%Z with j by lia.
  - intros ->. destruct wp as [|pair wp]; [done|]. simpl in Hitems.
    destruct (layout_cuts cake_len cake_width pair); [|done].
    simpl in Hitems. by destruct (omapM _ wp).
  - intros r c hc vc Hin.
    assert (Hwp : (r, c) ∈ wp
                  ∧ layout_cuts cake_len cake_width (r, c) = Ok (hc, vc)).
    { clear Hf Hne. revert items Hitems Hin.
      induction wp as [|pair wp IH]; intros items Hitems Hin.
      - simpl in Hitems. simplify_eq. by apply not_elem_of_nil in Hin.
      - simpl in Hitems.
        destruct (layout_cuts cake_len cake_width pair) as [cs|] eqn:Hcs;
          [|done].
        simpl in Hitems.
        destruct (omapM _ wp) as [items'|]; [|done].
        simpl in Hitems. simplify_eq.
        apply elem_of_cons in Hin as [[= <- <-]|Hin].
        + split; [by left|done].
        + destruct (IH items' eq_refl Hin). split; [by right|done]. }
    destruct Hwp as [Hwp Hcuts].
    apply (fitting_pairs_elem_of _ _ _ _ Hf) in Hwp as [Hfp Hfits].
    apply find_factor_pairs_elem_of in Hfp as [Hrc Hprod]; [|lia].
    apply layout_cuts_lengths in Hcuts as [Hhc Hvc].
    split_and!; try done; try lia.
    apply fits_plate_true; [lia..|done].
Qed.

(** X29: every layout [init_cuts] returns is a grid of [num_rows] by
    [num_cols] cells, [num_rows ≤ num_cols], with one cell per request of
    the list as the run leaves it; the diagonal of a cell is at most 25,
    and the layout has [num_rows - 1] horizontal and [num_cols - 1]
    vertical cuts.  There is at least one layout. *)
Theorem init_cuts_layouts (fuel : nat) (requests requests' : list num)
    (cake_len cake_width : num)
    (cuts : list ((Z * Z) * (list (num * num) * list (num * num)))) :
  init_cuts fuel requests cake_len cake_width = Ret (cuts, requests') →
  cuts ≠ []
  ∧ ∀ num_rows num_cols hc vc,
      ((num_rows, num_cols), (hc, vc)) ∈ cuts →
      (1 ≤ num_rows ≤ num_cols)%Z
      ∧ (num_rows * num_cols = Z.of_nat (length requests'))%Z
      ∧ (cake_len / of_int num_rows) * (cake_len / of_int num_rows)
        + (cake_width / of_int num_cols) * (cake_width / of_int num_cols)
        <= of_int 625
      ∧ length hc = Z.to_nat (num_rows - 1)
      ∧ length vc = Z.to_nat (num_cols - 1).
Proof. intros Hrun. by apply init_cuts_ret in Hrun as (_ & ? & ?). Qed.

(** X30: [init_cuts] extends the request list of the percept it is given:
    after [k] retries the list is the old one followed by
    [1 + 2 + ... + k] requests that add up to [k] times 5% of the area of
    the cake. *)
Theorem init_cuts_extends_requests (fuel : nat)
    (requests requests' : list num) (cake_len cake_width : num)
    (cuts : list ((Z * Z) * (list (num * num) * list (num * num)))) :
  init_cuts fuel requests cake_len cake_width = Ret (cuts, requests') →
  ∃ (retries : Z) (extras : list num),
    (0 ≤ retries)%Z
    ∧ requests' = requests ++ extras
    ∧ (2 * Z.of_nat (length extras) = retries * (retries + 1))%Z
    ∧ sum_num extras = of_int retries * (cake_len * cake_width * dec 5 100).
Proof. intros Hrun. by apply init_cuts_ret in Hrun as (? & _). Qed.

Lemma init_cuts_layouts_witness :
  let requests := [of_int 400; of_int 400; of_int 400; of_int 400] in
  ∃ cuts requests',
    init_cuts 10 requests (of_int 40) (of_int 40) = Ret (cuts, requests')
    ∧ cuts ≠ []
    ∧ ∀ num_rows num_cols hc vc,
        ((num_rows, num_cols), (hc, vc)) ∈ cuts →
        (1 ≤ num_rows ≤ num_cols)%Z
        ∧ (num_rows * num_cols = Z.of_nat (length requests'))%Z
        ∧ (of_int 40 / of_int num_rows) * (of_int 40 / of_int num_rows)
          + (of_int 40 / of_int num_cols) * (of_int 40 / of_int num_cols)
          <= of_int 625
        ∧ length hc = Z.to_nat (num_rows - 1)
        ∧ length vc = Z.to_nat (num_cols - 1).
Proof.
  intros requests.
  assert (Hret : returns (init_cuts 10 requests (of_int 40) (of_int 40))
                 = true) by (vm_compute; reflexivity).
  destruct (returns_ret _ Hret) as [[cuts requests'] Hrun].
  exists cuts, requests'. split; [exact Hrun|].
  exact (init_cuts_layouts _ _ _ _ _ _ Hrun).
Defined.

Lemma init_cuts_extends_requests_witness :
  let requests := [of_int 400; of_int 400; of_int 400; of_int 400] in
  ∃ cuts requests' retries extras,
    init_cuts 10 requests (of_int 40) (of_int 40) = Ret (cuts, requests')
    ∧ (0 ≤ retries)%Z
    ∧ requests' = requests ++ extras
    ∧ (2 * Z.of_nat (length extras) = retries * (retries + 1))%Z
    ∧ sum_num extras
      = of_int retries * (of_int 40 * of_int 40 * dec 5 100).
Proof.
  intros requests.
  assert (Hret : returns (init_cuts 10 requests (of_int 40) (of_int 40))
                 = true) by (vm_compute; reflexivity).
  destruct (returns_ret _ Hret) as [[cuts requests'] Hrun].
  destruct (init_cuts_extends_requests _ _ _ _ _ _ Hrun)
    as (retries & extras & H1 & H2 & H3 & H4).
  exists cuts, requests', retries, extras.
  split; [exact Hrun|]. split; [exact H1|]. split; [exact H2|].
  split; [exact H3|exact H4].
Defined.
